(** * prerender-plugin-fscache: a filesystem cache of rendered HTTP responses

    Shallow embedding of [index.js] (the published plugin) and proofs of the
    properties its specification states.

    Conventions of the embedding.
    - Strings and buffers are byte strings ([string], one [ascii] per byte;
      a JavaScript string is taken in its UTF-8 encoding).
    - A path is the list of its components below the root ([path.join]
      appends components, [path.dirname] drops the last one).
    - The filesystem is a finite map from paths to nodes.  Every [fs]
      call of the program is a total function returning either a result or
      the error it rejects with.
    - Every [async] function is a computation in the monad [M]: it reads and
      updates the world (filesystem, pending timers, log, clock) and either
      returns or throws.  A call runs to completion at one reading of the
      clock; the clock advances between calls.
    - [crypto], [zlib] and [JSON] are the platform's; the development is
      parametric in them (class [Platform]) and assumes only that decoding
      inverts encoding. *)

From stdpp Require Import gmap strings list fin_maps pretty.
From Stdlib Require Import ZArith Ascii DecimalN.

Local Open Scope Z_scope.
Local Set Warnings "-register-all".

(** ** Errors, JSON values and the platform *)

(** What a rejected promise or a [throw] carries: the [code] of a
    filesystem error, or the kind of a decoding error. *)
Inductive error :=
| ENOENT | EACCES | EEXIST | EISDIR | ENOTDIR | ENOTEMPTY
| Z_DATA_ERROR | SyntaxError | TypeError | RangeError.

Global Instance error_eq_dec : EqDecision error.
Proof. solve_decision. Defined.

(** The values [JSON.parse] can return. *)
Inductive json :=
| JNull
| JBool (b : bool)
| JNum (n : Z)
| JStr (s : string)
| JArr (l : list json)
| JObj (o : gmap string json).

(** [{ statusCode, headers: filteredHeaders }] as built in [set]. *)
Definition metadata (statusCode : Z) (headers : gmap string string) : json :=
  JObj (<["statusCode" := JNum statusCode]>
        (<["headers" := JObj (JStr <$> headers)]> ∅)).

Class Platform := {
  (** [crypto.createHash("sha1").update(s).digest("hex")] *)
  sha1_hex : string → string;
  (** [zlib.gzip] and [zlib.gunzip]; [None] is a rejected [gunzip]. *)
  zlib_gzip : string → string;
  zlib_gunzip : string → option string;
  (** [JSON.stringify] and [JSON.parse]; [None] is a thrown [SyntaxError]. *)
  JSON_stringify : json → string;
  JSON_parse : string → option json;
}.

(** What is assumed of the platform: decoding inverts encoding, for the
    bodies and for the metadata the program writes. *)
Class PlatformLaws `{Platform} : Prop := {
  zlib_gunzip_gzip : ∀ b, zlib_gunzip (zlib_gzip b) = Some b;
  JSON_parse_stringify : ∀ statusCode headers,
    JSON_parse (JSON_stringify (metadata statusCode headers))
    = Some (metadata statusCode headers);
}.

(** ** Strings *)

Definition ascii_toLowerCase (a : ascii) : ascii :=
  let n := nat_of_ascii a in
  if ((65 <=? n) && (n <=? 90))%nat then ascii_of_nat (n + 32) else a.

(** [String.prototype.toLowerCase], exact on ASCII strings, which header
    names are; other bytes are left as they are. *)
Fixpoint toLowerCase (s : string) : string :=
  match s with
  | EmptyString => EmptyString
  | String a s' => String (ascii_toLowerCase a) (toLowerCase s')
  end.

(** [String.prototype.endsWith] *)
Definition endsWith (s suffix : string) : bool :=
  let n := String.length s in
  let m := String.length suffix in
  ((m <=? n)%nat && String.eqb (String.substring (n - m) m s) suffix)%bool.

(** [s] without the prefix [word], if it starts with it. *)
Fixpoint after (word s : string) : option string :=
  match word, s with
  | EmptyString, _ => Some s
  | String a word', String b s' => if Ascii.eqb a b then after word' s' else None
  | String _ _, EmptyString => None
  end.

(** ** Paths *)

Definition path := list string.

(** [path.join(dir, name)] for a single component [name]. *)
Definition path_join (dir : path) (name : string) : path := dir ++ [name].

(** [path.dirname] *)
Definition path_dirname (p : path) : path := removelast p.

(** [p + suffix]: string concatenation extends the last component. *)
Definition path_concat (p : path) (suffix : string) : path :=
  removelast p ++ [List.last p EmptyString +:+ suffix].

(** ** The filesystem *)

Inductive node :=
| File (content : string) (mtime : Z)
| Dir (writable : bool) (mtime : Z).

Abbreviation filesystem := (gmap path node).

Definition node_mtime (n : node) : Z :=
  match n with File _ t => t | Dir _ t => t end.

Definition node_size (n : node) : Z :=
  match n with File c _ => Z.of_nat (String.length c) | Dir _ _ => 0 end.

Definition node_isDirectory (n : node) : bool :=
  match n with File _ _ => false | Dir _ _ => true end.

(** Creating or removing an entry of a directory needs write permission
    on that directory. *)
Definition dir_writable (fs : filesystem) (d : path) : bool :=
  match fs !! d with Some (Dir true _) => true | _ => false end.

Definition is_child (d p : path) : Prop := p ≠ [] ∧ path_dirname p = d.

Global Instance is_child_dec d p : Decision (is_child d p).
Proof. unfold is_child. apply _. Defined.

Definition children (fs : filesystem) (d : path) : list (path * node) :=
  map_to_list (filter (λ kv, is_child d kv.1) fs).

Record dirent := { dirent_name : string; dirent_isDirectory : bool }.

Record stats := { stats_mtime : Z; stats_size : Z }.

(** [fs.access(p)] with the default mode: does [p] exist? *)
Definition fs_access (p : path) (fs : filesystem) : error + unit :=
  match fs !! p with Some _ => inr () | None => inl ENOENT end.

(** [fs.stat(p)] *)
Definition fs_stat (p : path) (fs : filesystem) : error + stats :=
  match fs !! p with
  | Some n => inr {| stats_mtime := node_mtime n; stats_size := node_size n |}
  | None => inl ENOENT
  end.

(** [fs.readFile(p)] *)
Definition fs_readFile (p : path) (fs : filesystem) : error + string :=
  match fs !! p with
  | Some (File c _) => inr c
  | Some (Dir _ _) => inl EISDIR
  | None => inl ENOENT
  end.

(** [fs.writeFile(p, c)] at time [now]: truncates an existing file, or
    creates the file in an existing writable directory. *)
Definition fs_writeFile (p : path) (c : string) (now : Z) (fs : filesystem)
  : error + filesystem :=
  match fs !! p with
  | Some (File _ _) => inr (<[p := File c now]> fs)
  | Some (Dir _ _) => inl EISDIR
  | None =>
      match fs !! path_dirname p with
      | Some (Dir true _) => inr (<[p := File c now]> fs)
      | Some (Dir false _) => inl EACCES
      | Some (File _ _) => inl ENOTDIR
      | None => inl ENOENT
      end
  end.

(** [fs.unlink(p)] *)
Definition fs_unlink (p : path) (fs : filesystem) : error + filesystem :=
  match fs !! p with
  | Some (File _ _) =>
      if dir_writable fs (path_dirname p) then inr (delete p fs) else inl EACCES
  | Some (Dir _ _) => inl EISDIR
  | None => inl ENOENT
  end.

(** [fs.readdir(d, { withFileTypes: true })] *)
Definition fs_readdir (d : path) (fs : filesystem) : error + list dirent :=
  match fs !! d with
  | Some (Dir _ _) =>
      inr ((λ kv, {| dirent_name := List.last kv.1 EmptyString;
                     dirent_isDirectory := node_isDirectory kv.2 |})
             <$> children fs d)
  | Some (File _ _) => inl ENOTDIR
  | None => inl ENOENT
  end.

(** [fs.rmdir(d)] *)
Definition fs_rmdir (d : path) (fs : filesystem) : error + filesystem :=
  match fs !! d with
  | Some (Dir _ _) =>
      match children fs d with
      | [] => if dir_writable fs (path_dirname d) then inr (delete d fs) else inl EACCES
      | _ :: _ => inl ENOTEMPTY
      end
  | Some (File _ _) => inl ENOTDIR
  | None => inl ENOENT
  end.

(** [fs.mkdir(p, { recursive: true })]: walks down from the root, keeps
    the directories that exist and creates the missing ones. *)
Fixpoint mkdir_from (base : path) (rest : list string) (now : Z) (fs : filesystem)
  : error + filesystem :=
  match rest with
  | [] => inr fs
  | x :: rest' =>
      let p := path_join base x in
      match fs !! p with
      | Some (Dir _ _) => mkdir_from p rest' now fs
      | Some (File _ _) => inl (match rest' with [] => EEXIST | _ => ENOTDIR end)
      | None =>
          if dir_writable fs base
          then mkdir_from p rest' now (<[p := Dir true now]> fs)
          else inl EACCES
      end
  end.

Definition fs_mkdir_recursive (p : path) (now : Z) (fs : filesystem)
  : error + filesystem :=
  mkdir_from [] p now fs.

(** ** The world and the monad of asynchronous functions *)

(** The callbacks the program hands to [setTimeout]. *)
Inductive timer_action :=
| TCleanUpCacheDirectory (dirPath : path)
| TRemoveExpiredCacheUrl (url : string)
| TRemoveExpiredCacheFile (filename : path).

Record timer := { timer_due : Z; timer_callback : timer_action }.

(** One constructor per call of [log] in the program. *)
Inductive log_line :=
| LogCannotAccessDirectory (dirPath : path) (e : error)
| LogCannotCreateDirectory (dirPath : path) (e : error)
| LogRemovingExpired
| LogCleaningUpError (dir : path) (e : error)
| LogRemoved (totalRemovedFiles totalRemovedSize totalTimersCreated : Z)
| LogCannotWrite (filename : path) (e : error)
| LogRemoveUrlError (url : string) (e : error)
| LogRemoveFileError (filename : path) (e : error)
| LogServing (url : string) (filename : path)
| LogCaching (url : string) (filename : path).

Record world := {
  w_fs : filesystem;
  w_timers : list timer;
  w_log : list log_line;
  w_now : Z;                      (* the clock, in milliseconds *)
}.

Definition with_fs (w : world) (fs : filesystem) : world :=
  {| w_fs := fs; w_timers := w_timers w; w_log := w_log w; w_now := w_now w |}.

Definition with_timers (w : world) (timers : list timer) : world :=
  {| w_fs := w_fs w; w_timers := timers; w_log := w_log w; w_now := w_now w |}.

Definition with_log (w : world) (lines : list log_line) : world :=
  {| w_fs := w_fs w; w_timers := w_timers w; w_log := lines; w_now := w_now w |}.

(** Time passes. *)
Definition elapse (ms : Z) (w : world) : world :=
  {| w_fs := w_fs w; w_timers := w_timers w; w_log := w_log w;
     w_now := w_now w + Z.max 0 ms |}.

Inductive result (A : Type) :=
| Ok (a : A)
| Throw (e : error).
Arguments Ok {A} a.
Arguments Throw {A} e.

Definition M (A : Type) : Type := world → result A * world.

Global Instance M_ret : MRet M := λ A a w, (Ok a, w).

Global Instance M_bind : MBind M := λ A B f m w,
  match m w with
  | (Ok a, w') => f a w'
  | (Throw e, w') => (Throw e, w')
  end.

(** [try { body } catch (error) { handler }] *)
Definition try_catch {A} (body : M A) (handler : error → M A) : M A := λ w,
  match body w with
  | (Ok a, w') => (Ok a, w')
  | (Throw e, w') => handler e w'
  end.

(** The body run to its end, its exception (if any) as a value. *)
Definition attempt {A} (body : M A) : M (error + A) :=
  try_catch (a ← body; mret (inr a)) (λ e, mret (inl e)).

(** A call that returns or throws without touching the world. *)
Definition or_throw {A} (r : error + A) : M A := λ w,
  match r with
  | inr a => (Ok a, w)
  | inl e => (Throw e, w)
  end.

Definition fs_read {A} (op : filesystem → error + A) : M A := λ w,
  or_throw (op (w_fs w)) w.

Definition fs_write (op : filesystem → error + filesystem) : M unit := λ w,
  match op (w_fs w) with
  | inr fs' => (Ok (), with_fs w fs')
  | inl e => (Throw e, w)
  end.

(** [new Date()], as milliseconds *)
Definition Date_now : M Z := λ w, (Ok (w_now w), w).

(** Node sets a delay below 1 or above 2^31-1 to 1. *)
Definition timer_delay (ms : Z) : Z :=
  if (ms <? 1) || (2147483647 <? ms) then 1 else ms.

Definition setTimeout (callback : timer_action) (ms : Z) : M unit := λ w,
  (Ok (), with_timers w
            (w_timers w ++ [{| timer_due := w_now w + timer_delay ms;
                               timer_callback := callback |}])).

Definition console_log (line : log_line) : M unit := λ w,
  (Ok (), with_log w (w_log w ++ [line])).

Definition access (p : path) : M unit := fs_read (fs_access p).
Definition stat (p : path) : M stats := fs_read (fs_stat p).
Definition readFile (p : path) : M string := fs_read (fs_readFile p).
Definition readdir (d : path) : M (list dirent) := fs_read (fs_readdir d).
Definition unlink (p : path) : M unit := fs_write (fs_unlink p).
Definition rmdir (d : path) : M unit := fs_write (fs_rmdir d).
Definition writeFile (p : path) (c : string) : M unit :=
  now ← Date_now; fs_write (fs_writeFile p c now).
Definition mkdir_recursive (p : path) : M unit :=
  now ← Date_now; fs_write (fs_mkdir_recursive p now).

(** ** The program: module-level constants *)

(** The settings read from [process.env] when the module is loaded. *)
Record environment := {
  CACHE_PATH : path;
  CACHE_TTL : Z;
  CACHE_STATUS_CODES : list Z;
  DISABLE_LOGGING : bool;
}.

(** The values used when the variables are not set. *)
Definition default_environment : environment := {|
  CACHE_PATH := ["tmp"; "prerender-cache"];
  CACHE_TTL := 86400;
  CACHE_STATUS_CODES := [200; 301; 302; 303; 304; 307; 308; 404];
  DISABLE_LOGGING := false;
|}.

Definition nonCacheableHeaders : gset string :=
  list_to_set [
    "age"; "authorization"; "cf-cache-status"; "cf-ray"; "cache-control";
    "connection"; "content-encoding"; "content-security-policy"; "cookie";
    "date"; "etag"; "expect-ct"; "expires"; "feature-policy"; "last-modified";
    "nel"; "proxy-authorization"; "referrer-policy"; "report-to"; "server";
    "set-cookie"; "strict-transport-security"; "transfer-encoding"; "vary";
    "via"; "x-cache"; "x-cache-hit"; "x-content-type-options";
    "x-correlation-id"; "x-edge-ip"; "x-edge-location";
    "x-edge-origin-shield-skipped"; "x-frame-options"; "x-powered-by";
    "x-request-id"
  ].

(** The object [get] returns, [{ ...metadata, content }]: the own
    properties of the parsed metadata, and [content] on top of them. *)
Record cachedResponse := {
  spread_metadata : json;
  content : string;
}.

(** Reading a property that is not an array index off a spread value. *)
Definition json_property (j : json) (key : string) : option json :=
  match j with JObj o => o !! key | _ => None end.

Definition cachedResponse_statusCode (r : cachedResponse) : option json :=
  json_property (spread_metadata r) "statusCode".

Definition cachedResponse_headers (r : cachedResponse) : option json :=
  json_property (spread_metadata r) "headers".

Definition string_chars (s : string) : list json :=
  (λ a, JStr (String a EmptyString)) <$> String.list_ascii_of_string s.

(** [Object.entries(v)]; [None] is [undefined].  It throws on [undefined]
    and [null], and lists the indices of a string or an array. *)
Definition Object_entries (v : option json) : error + list (string * json) :=
  match v with
  | None | Some JNull => inl TypeError
  | Some (JObj o) => inr (map_to_list o)
  | Some (JArr l) => inr (imap (λ i x, (pretty i, x)) l)
  | Some (JStr s) => inr (imap (λ i x, (pretty i, x)) (string_chars s))
  | Some (JBool _) | Some (JNum _) => inr []
  end.

Record URLFileSystemCache := {
  cachePath : path;
  ttl : Z;
}.

(** What the pipeline passes to the hooks: [req.prerender] and [req]. *)
Record prerender := {
  url : string;
  statusCode : Z;
  headers : option (gmap string string);
  prerender_content : option string;
}.

Record request := {
  method : string;
  request_headers : gmap string string;
  request_prerender : prerender;
  fromCache : bool;
}.

(** How a hook ends: [next()], or [res.send(statusCode, content)] after the
    calls of [res.setHeader] it made. *)
Inductive hook_end :=
| Next
| Send (setHeader : list (string * json)) (statusCode : option json) (content : string).

Section Program.
Context `{Platform} (env : environment).

(** ** The program: helpers *)

Definition log (line : log_line) : M unit :=
  if DISABLE_LOGGING env then mret () else console_log line.

Definition ensureDirExists (dirPath : path) : M unit :=
  try_catch (access dirPath)
    (λ _error,
       try_catch (mkdir_recursive dirPath)
         (λ error, log (LogCannotAccessDirectory dirPath error))).

Definition removeDirectoryIfEmpty (dirPath : path) : M unit :=
  try_catch
    (files ← readdir dirPath;
     if decide (length files = 0%nat) then rmdir dirPath else mret ())
    (λ _, mret ()).

(** ** The program: class [URLFileSystemCache] *)

Definition urlHash (url : string) : string := sha1_hex url.

Definition filenameForUrl (this : URLFileSystemCache) (url : string) : path :=
  let urlHash := urlHash url in
  path_join (path_join (cachePath this) (String.substring 0 2 urlHash)) urlHash.

Definition isExpiredBasedOnMtime (this : URLFileSystemCache) (mtime : Z) : M bool :=
  now ← Date_now;
  (* (now - mtime) / 1000 >= ttl, on milliseconds *)
  mret (bool_decide (ttl this * 1000 ≤ now - mtime)).

Definition isFileExpired (this : URLFileSystemCache) (filePath : path) : M bool :=
  st ← stat filePath;
  isExpiredBasedOnMtime this (stats_mtime st).

Definition removeExpiredCacheUrl (this : URLFileSystemCache) (url : string) : M unit :=
  let filename := filenameForUrl this url in
  try_catch
    (unlink (path_concat filename ".data");;
     unlink (path_concat filename ".meta");;
     removeDirectoryIfEmpty (path_dirname filename))
    (λ error, log (LogRemoveUrlError url error)).

Definition removeExpiredCacheFile (filename : path) : M unit :=
  try_catch
    (unlink filename;;
     removeDirectoryIfEmpty (path_dirname filename))
    (λ error, log (LogRemoveFileError filename error)).

(** [Object.fromEntries(Object.entries(headers).filter(([key]) =>
    !nonCacheableHeaders.has(key.toLowerCase())))] *)
Definition filteredHeaders (headers : gmap string string) : gmap string string :=
  filter (λ kv, toLowerCase kv.1 ∉ nonCacheableHeaders) headers.

Definition set (this : URLFileSystemCache) (url : string) (statusCode : Z)
    (headers : gmap string string) (value : string) : M unit :=
  let filename := filenameForUrl this url in
  let compressedValue := zlib_gzip value in
  let filteredHeaders := filteredHeaders headers in
  let metadata := metadata statusCode filteredHeaders in
  try_catch
    (ensureDirExists (path_dirname filename);;
     writeFile (path_concat filename ".data") compressedValue;;
     writeFile (path_concat filename ".meta") (JSON_stringify metadata))
    (λ error, log (LogCannotWrite filename error));;
  (* Schedule file deletion when TTL is reached *)
  setTimeout (TRemoveExpiredCacheUrl url) (ttl this * 1000).

Definition gunzip (compressed : string) : M string :=
  or_throw (from_option inr (inl Z_DATA_ERROR) (zlib_gunzip compressed)).

Definition parse (text : string) : M json :=
  or_throw (from_option inr (inl SyntaxError) (JSON_parse text)).

Definition get (this : URLFileSystemCache) (url : string) : M (option cachedResponse) :=
  let filename := filenameForUrl this url in
  (* First, check if both files exist *)
  present ← try_catch
    (access (path_concat filename ".data");;
     access (path_concat filename ".meta");;
     mret true)
    (λ _, mret false);
  if negb present then mret None else
  (* Then, check if this cache entry is expired *)
  expired ← isFileExpired this (path_concat filename ".meta");
  if (expired : bool) then
    unlink (path_concat filename ".meta");;
    unlink (path_concat filename ".data");;
    mret None
  else
  (* Finally, read files and return the contents *)
  try_catch
    (compressedContent ← readFile (path_concat filename ".data");
     content ← gunzip compressedContent;
     metadata ← (text ← readFile (path_concat filename ".meta"); parse text);
     mret (Some {| spread_metadata := metadata; content := content |}))
    (λ _, mret None).

(** The counters of [cleanUpCacheDirectory]. *)
Record totals := {
  totalRemovedFiles : Z;
  totalRemovedSize : Z;
  totalTimersCreated : Z;
}.

(** The loop [for (const entry of entries)] of [processDirectory] and the
    [removeDirectoryIfEmpty] after it; [recur] is [processDirectory] itself.
    Inside the [try], only [fs.readdir] and [fs.stat] can throw (the
    other calls catch what they raise): the [catch] is written where they
    are called, and ends the processing of [dir]. *)
Fixpoint processEntries (this : URLFileSystemCache)
    (recur : path → totals → M totals)
    (dir : path) (entries : list dirent) (tot : totals) : M totals :=
  match entries with
  | [] => removeDirectoryIfEmpty dir;; mret tot
  | entry :: rest =>
      let fullPath := path_join dir (dirent_name entry) in
      if dirent_isDirectory entry then
        tot' ← recur fullPath tot;
        processEntries this recur dir rest tot'
      else if endsWith (dirent_name entry) ".data"
              || endsWith (dirent_name entry) ".meta" then
        st ← attempt (stat fullPath);
        match st with
        | inl error => log (LogCleaningUpError dir error);; mret tot
        | inr st =>
            expired ← isExpiredBasedOnMtime this (stats_mtime st);
            if (expired : bool) then
              removeExpiredCacheFile fullPath;;
              processEntries this recur dir rest
                {| totalRemovedFiles := totalRemovedFiles tot + 1;
                   totalRemovedSize := totalRemovedSize tot + stats_size st;
                   totalTimersCreated := totalTimersCreated tot |}
            else
              now ← Date_now;
              (* ttlRemaining * 1000, with ttlRemaining = ttl - (now - mtime) / 1000 *)
              setTimeout (TRemoveExpiredCacheFile fullPath)
                (ttl this * 1000 - (now - stats_mtime st));;
              processEntries this recur dir rest
                {| totalRemovedFiles := totalRemovedFiles tot;
                   totalRemovedSize := totalRemovedSize tot;
                   totalTimersCreated := totalTimersCreated tot + 1 |}
        end
      else processEntries this recur dir rest tot
  end.

(** [processDirectory], by recursion on a bound of the depth of the tree
    under [dir].  With the bound [cleanUpCacheDirectory] passes, the first
    case is never reached (lemma [tree_depth_enough]). *)
Fixpoint processDirectory (this : URLFileSystemCache) (depth : nat)
    (dir : path) (tot : totals) : M totals :=
  match depth with
  | O => log (LogCleaningUpError dir RangeError);; mret tot
  | S depth' =>
      entries ← attempt (readdir dir);
      match entries with
      | inl error => log (LogCleaningUpError dir error);; mret tot
      | inr entries =>
          processEntries this (processDirectory this depth') dir entries tot
      end
  end.

(** No path of the filesystem is longer than this. *)
Definition tree_depth (fs : filesystem) : nat :=
  S (foldr Nat.max 0%nat (length <$> (map_to_list fs).*1)).

Definition cleanUpCacheDirectory (this : URLFileSystemCache) (dirPath : path)
  : M totals :=
  log LogRemovingExpired;;
  depth ← (λ w, (Ok (tree_depth (w_fs w)), w));
  tot ← processDirectory this depth dirPath
    {| totalRemovedFiles := 0; totalRemovedSize := 0; totalTimersCreated := 0 |};
  log (LogRemoved (totalRemovedFiles tot) (totalRemovedSize tot)
         (totalTimersCreated tot));;
  mret tot.

Definition startCleanup (this : URLFileSystemCache) : M unit :=
  try_catch
    (access (cachePath this);;
     setTimeout (TCleanUpCacheDirectory (cachePath this)) 0)
    (λ _,
       (* Directory does not exist or user does not have access to it *)
       try_catch (mkdir_recursive (cachePath this))
         (λ error, log (LogCannotCreateDirectory (cachePath this) error))).

(** [new URLFileSystemCache({ cachePath, ttl })] *)
Definition constructor (cachePath : path) (ttl : Z) : M URLFileSystemCache :=
  let this := {| cachePath := cachePath; ttl := ttl |} in
  startCleanup this;;
  mret this.

(** ** The program: the plugin's hooks *)

(** [init] returns the cache it stores in [this.cache]; the hooks take it
    as their first argument. *)
Definition init : M URLFileSystemCache :=
  constructor (CACHE_PATH env) (CACHE_TTL env).

Definition with_fromCache (req : request) (b : bool) : request :=
  {| method := method req; request_headers := request_headers req;
     request_prerender := request_prerender req; fromCache := b |}.

(** The hook returns the request as it leaves it ([req.fromCache] is
    assigned on a hit) and how it ended.  When [Object.entries] throws on
    the headers of unreadable metadata, the assignment made just before it
    is not kept here: the request is not looked at after a throw. *)
Definition requestReceived (cache : URLFileSystemCache) (req : request)
  : M (request * hook_end) :=
  if negb (String.eqb (method req) "GET") then
    (* We only cache GET requests *)
    mret (req, Next)
  else if decide (request_headers req !! "cache-control" = Some "no-cache") then
    (* If `Cache-Control` header is set to `no-cache`, then do not serve from cache. *)
    mret (req, Next)
  else
    cachedResponse ← get cache (url (request_prerender req));
    match cachedResponse with
    | None => mret (req, Next)
    | Some cachedResponse =>
        log (LogServing (url (request_prerender req))
               (filenameForUrl cache (url (request_prerender req))));;
        entries ← or_throw (Object_entries (cachedResponse_headers cachedResponse));
        mret (with_fromCache req true,
              Send entries (cachedResponse_statusCode cachedResponse)
                (content cachedResponse))
    end.

Definition beforeSend (cache : URLFileSystemCache) (req : request) : M hook_end :=
  (if String.eqb (method req) "GET"
      && bool_decide (statusCode (request_prerender req) ∈ CACHE_STATUS_CODES env)
      && negb (fromCache req)
   then
     log (LogCaching (url (request_prerender req))
            (filenameForUrl cache (url (request_prerender req))));;
     set cache (url (request_prerender req))
       (statusCode (request_prerender req))
       (default ∅ (headers (request_prerender req)))
       (default EmptyString (prerender_content (request_prerender req)))
   else mret ());;
  mret Next.

(** The storage policy of [beforeSend]. *)
Definition eligible (req : request) : Prop :=
  method req = "GET"
  ∧ statusCode (request_prerender req) ∈ CACHE_STATUS_CODES env
  ∧ fromCache req = false.

Global Instance eligible_dec req : Decision (eligible req).
Proof. unfold eligible. apply _. Defined.

(** ** The event loop *)

Definition runCallback (this : URLFileSystemCache) (callback : timer_action)
  : M unit :=
  match callback with
  | TCleanUpCacheDirectory dirPath => cleanUpCacheDirectory this dirPath;; mret ()
  | TRemoveExpiredCacheUrl url => removeExpiredCacheUrl this url
  | TRemoveExpiredCacheFile filename => removeExpiredCacheFile filename
  end.

(** The [i]-th pending timer fires, if it is due. *)
Definition fireTimer (this : URLFileSystemCache) (i : nat) : M unit := λ w,
  match w_timers w !! i with
  | Some t =>
      if decide (timer_due t ≤ w_now w) then
        runCallback this (timer_callback t) (with_timers w (delete i (w_timers w)))
      else (Ok (), w)
  | None => (Ok (), w)
  end.

(** What happens to the process, one event at a time. *)
Inductive event :=
| Elapse (ms : Z)                  (* time passes *)
| Restart                          (* the process starts anew: timers are lost *)
| CallSet (url : string) (statusCode : Z) (headers : gmap string string)
    (value : string)
| CallGet (url : string)
| RequestReceived (req : request)  (* the pipeline runs the first hook *)
| BeforeSend (req : request)       (* the pipeline runs the second hook *)
| FireTimer (i : nat).

Definition step (this : URLFileSystemCache) (ev : event) (w : world) : world :=
  match ev with
  | Elapse ms => elapse ms w
  | Restart => (startCleanup this (with_timers w [])).2
  | CallSet url statusCode headers value =>
      (set this url statusCode headers value w).2
  | CallGet url => (get this url w).2
  | RequestReceived req => (requestReceived this req w).2
  | BeforeSend req => (beforeSend this req w).2
  | FireTimer i => (fireTimer this i w).2
  end.

Definition run (this : URLFileSystemCache) (evs : list event) (w : world) : world :=
  foldl (λ w ev, step this ev w) w evs.
End Program.

(** ** The files of a cache entry *)

Section Entry.
Context `{Platform} (this : URLFileSystemCache) (url : string).

(** [path.dirname(filename)], the shard directory of the entry *)
Definition shard : path :=
  path_join (cachePath this) (String.substring 0 2 (urlHash url)).

(** [filename + ".data"] and [filename + ".meta"] *)
Definition data_file : path := path_concat (filenameForUrl this url) ".data".
Definition meta_file : path := path_concat (filenameForUrl this url) ".meta".

Definition is_directory (fs : filesystem) (p : path) : bool :=
  match fs !! p with Some (Dir _ _) => true | _ => false end.

Definition is_file (fs : filesystem) (p : path) : bool :=
  match fs !! p with Some (File _ _) => true | _ => false end.

(** The shard directory is there and writable, or it is missing and
    [fs.mkdir] can create it. *)
Definition shard_available (w : world) : bool :=
  match w_fs w !! shard with
  | Some (Dir true _) => true
  | Some _ => false
  | None =>
      match fs_mkdir_recursive shard (w_now w) (w_fs w) with
      | inr _ => true
      | inl _ => false
      end
  end.

(** The filesystem lets [set] write the entry: the shard directory is
    available and no directory sits where the two files go. *)
Definition can_store (w : world) : bool :=
  shard_available w
  && negb (is_directory (w_fs w) data_file)
  && negb (is_directory (w_fs w) meta_file).

(** Both files of the entry are there, in a directory that lets them be
    removed. *)
Definition can_remove (w : world) : bool :=
  is_file (w_fs w) data_file
  && is_file (w_fs w) meta_file
  && dir_writable (w_fs w) shard.

(** What [get] makes of the two files of an entry it reads. *)
Definition decode_entry (data meta : node) : option cachedResponse :=
  match data, meta with
  | File compressedContent _, File text _ =>
      match zlib_gunzip compressedContent, JSON_parse text with
      | Some content, Some metadata =>
          Some {| spread_metadata := metadata; content := content |}
      | _, _ => None
      end
  | _, _ => None
  end.

(** The [.meta] file of the entry, if there is one, holds metadata that
    [set] wrote: a status code and filtered headers. *)
Definition clean_meta (fs : filesystem) : Prop :=
  fs !! meta_file = None
  ∨ ∃ statusCode headers t,
      fs !! meta_file
      = Some (File (JSON_stringify (metadata statusCode (filteredHeaders headers))) t).

(** The age of the [.meta] file has reached the TTL. *)
Definition expired (w : world) : Prop :=
  ∃ n, w_fs w !! meta_file = Some n ∧ ttl this * 1000 ≤ w_now w - node_mtime n.
End Entry.

(** ** Properties the cache keeps *)

(** A computation that keeps a property of the filesystem, whether it
    returns or throws. *)
Definition keeps (P : filesystem → Prop) {A} (m : M A) : Prop :=
  ∀ w, P (w_fs w) → P (w_fs (m w).2).

(** No path of the filesystem has more than [n] components. *)
Definition paths_within (n : nat) (fs : filesystem) : Prop :=
  ∀ p, is_Some (fs !! p) → (length p ≤ n)%nat.

(** ** Two sentences of the specification, as it words them *)

Section Worded.
Context `{Platform} (env : environment) (this : URLFileSystemCache).

(** Every header name of the metadata that [get] returns after a [set] is
    lower-cased. *)
Definition header_names_lower_cased : Prop :=
  ∀ url statusCode headers value w r stored key,
    can_store this url w = true →
    (get this url (set env this url statusCode headers value w).2).1 = Ok (Some r) →
    cachedResponse_headers r = Some (JObj stored) →
    is_Some (stored !! key) →
    toLowerCase key = key.

(** Whatever happens to the process from [w] on, an entry never has exactly
    one of its two files. *)
Definition pairs_stay_together (w : world) : Prop :=
  ∀ evs url,
    is_file (w_fs (run env this evs w)) (data_file this url)
    = is_file (w_fs (run env this evs w)) (meta_file this url).
End Worded.

(** * A platform to run the program on

    An instance of [Platform] on which the program can be evaluated:
    SHA-1 as [crypto] computes it; JSON texts as [JSON] prints and reads
    them, with integers for numbers; and, in the place of [zlib], a codec
    that stores the bytes as they are behind the two magic bytes of a gzip
    file.  The proofs about the program use none of this: they hold for every
    platform that keeps [PlatformLaws]. *)

Module SHA1.
Definition mask32 (x : Z) : Z := Z.land x 4294967295.

Definition add32 (x y : Z) : Z := mask32 (x + y).

Definition rotl (n x : Z) : Z :=
  mask32 (Z.lor (Z.shiftl x n) (Z.shiftr x (32 - n))).

Definition bytes_of_string (s : string) : list Z :=
  (λ a, Z.of_nat (nat_of_ascii a)) <$> String.list_ascii_of_string s.

(** The [n] low bytes of [x], most significant first. *)
Fixpoint be_bytes (n : nat) (x : Z) : list Z :=
  match n with
  | O => []
  | S n' => Z.land (Z.shiftr x (8 * Z.of_nat n')) 255 :: be_bytes n' x
  end.

(** The message, a 1 bit, zeros up to 56 modulo 64 bytes, and the length
    in bits on 64 bits. *)
Definition pad (msg : list Z) : list Z :=
  let l := Z.of_nat (length msg) in
  msg ++ [128] ++ replicate (Z.to_nat ((55 - l) mod 64)) 0 ++ be_bytes 8 (8 * l).

Definition word_of_bytes (bs : list Z) : Z :=
  foldl (λ acc b, Z.lor (Z.shiftl acc 8) b) 0 bs.

(** [n] groups of [k] elements. *)
Fixpoint groups {A} (n k : nat) (l : list A) : list (list A) :=
  match n with
  | O => []
  | S n' => take k l :: groups n' k (drop k l)
  end.

(** The message schedule, latest word first. *)
Fixpoint extend (n : nat) (ws : list Z) : list Z :=
  match n with
  | O => ws
  | S n' =>
      let x := Z.lxor (Z.lxor (nth 2 ws 0) (nth 7 ws 0))
                 (Z.lxor (nth 13 ws 0) (nth 15 ws 0)) in
      extend n' (rotl 1 x :: ws)
  end.

Definition schedule (block : list Z) : list Z :=
  reverse (extend 64 (reverse (word_of_bytes <$> groups 16 4 block))).

Record state := { h0 : Z; h1 : Z; h2 : Z; h3 : Z; h4 : Z }.

Definition round (i : nat) (st : state) (wi : Z) : state :=
  let '(a, b, c, d, e) := (h0 st, h1 st, h2 st, h3 st, h4 st) in
  let '(f, k) :=
    if (i <? 20)%nat then
      (Z.lor (Z.land b c) (Z.land (Z.lxor b 4294967295) d), 1518500249)
    else if (i <? 40)%nat then
      (Z.lxor b (Z.lxor c d), 1859775393)
    else if (i <? 60)%nat then
      (Z.lor (Z.lor (Z.land b c) (Z.land b d)) (Z.land c d), 2400959708)
    else
      (Z.lxor b (Z.lxor c d), 3395469782) in
  {| h0 := add32 (add32 (add32 (add32 (rotl 5 a) f) e) k) wi;
     h1 := a; h2 := rotl 30 b; h3 := c; h4 := d |}.

Definition rounds (st : state) (ws : list Z) : state :=
  (foldl (λ '(i, st) wi, (S i, round i st wi)) (O, st) ws).2.

Definition compress (st : state) (block : list Z) : state :=
  let st' := rounds st (schedule block) in
  {| h0 := add32 (h0 st) (h0 st'); h1 := add32 (h1 st) (h1 st');
     h2 := add32 (h2 st) (h2 st'); h3 := add32 (h3 st) (h3 st');
     h4 := add32 (h4 st) (h4 st') |}.

Definition initial : state :=
  {| h0 := 1732584193; h1 := 4023233417; h2 := 2562383102;
     h3 := 271733878; h4 := 3285377520 |}.

Definition hex_digit (n : Z) : ascii :=
  nth (Z.to_nat n) (String.list_ascii_of_string "0123456789abcdef") "0"%char.

Definition hex_of_byte (b : Z) : list ascii :=
  [hex_digit (Z.shiftr b 4); hex_digit (Z.land b 15)].

Definition digest (st : state) : list Z :=
  be_bytes 4 (h0 st) ++ be_bytes 4 (h1 st) ++ be_bytes 4 (h2 st)
  ++ be_bytes 4 (h3 st) ++ be_bytes 4 (h4 st).

Definition hex (s : string) : string :=
  let bytes := pad (bytes_of_string s) in
  let blocks := groups (length bytes / 64) 64 bytes in
  String.string_of_list_ascii
    (concat (hex_of_byte <$> digest (foldl compress initial blocks))).
End SHA1.

Module JSON.
Definition quote : ascii := "034"%char.
Definition backslash : ascii := "092"%char.

(** *** Printing *)

Definition hex_digit (n : nat) : ascii :=
  nth n (String.list_ascii_of_string "0123456789abcdef") "0"%char.

(** How [JSON.stringify] writes one byte of a string. *)
Definition escape (a : ascii) : string :=
  let n := nat_of_ascii a in
  if (n =? 34)%nat then String backslash (String quote EmptyString)
  else if (n =? 92)%nat then String backslash (String backslash EmptyString)
  else if (n =? 8)%nat then String backslash "b"
  else if (n =? 9)%nat then String backslash "t"
  else if (n =? 10)%nat then String backslash "n"
  else if (n =? 12)%nat then String backslash "f"
  else if (n =? 13)%nat then String backslash "r"
  else if (n <? 32)%nat then
    String backslash
      (String "u" (String "0" (String "0"
         (String (hex_digit (n / 16)) (String (hex_digit (n mod 16)) EmptyString)))))
  else String a EmptyString.

Fixpoint quoted_body (s : string) : string :=
  match s with
  | EmptyString => EmptyString
  | String a s' => escape a +:+ quoted_body s'
  end.

Definition quoted (s : string) : string :=
  String quote (quoted_body s +:+ String quote EmptyString).

Fixpoint digits (d : Decimal.uint) : string :=
  match d with
  | Decimal.Nil => EmptyString
  | Decimal.D0 d => String "0" (digits d)
  | Decimal.D1 d => String "1" (digits d)
  | Decimal.D2 d => String "2" (digits d)
  | Decimal.D3 d => String "3" (digits d)
  | Decimal.D4 d => String "4" (digits d)
  | Decimal.D5 d => String "5" (digits d)
  | Decimal.D6 d => String "6" (digits d)
  | Decimal.D7 d => String "7" (digits d)
  | Decimal.D8 d => String "8" (digits d)
  | Decimal.D9 d => String "9" (digits d)
  end.

Definition number (n : Z) : string :=
  match n with
  | Zneg p => String "-" (digits (N.to_uint (Npos p)))
  | _ => digits (N.to_uint (Z.to_N n))
  end.

Fixpoint separated (items : list string) : string :=
  match items with
  | [] => EmptyString
  | [item] => item
  | item :: rest => item +:+ String "," (separated rest)
  end.

Definition member (kv : string * string) : string :=
  quoted kv.1 +:+ String ":" kv.2.

Fixpoint stringify (j : json) : string :=
  match j with
  | JNull => "null"
  | JBool true => "true"
  | JBool false => "false"
  | JNum n => number n
  | JStr s => quoted s
  | JArr l => String "[" (separated (stringify <$> l) +:+ "]")
  | JObj o =>
      String "{" (separated (member <$> map_to_list (stringify <$> o)) +:+ "}")
  end.

(** *** Reading *)

Definition is_whitespace (a : ascii) : bool :=
  let n := nat_of_ascii a in
  ((n =? 32) || (n =? 9) || (n =? 10) || (n =? 13))%nat.

Fixpoint skip_whitespace (s : string) : string :=
  match s with
  | String a s' => if is_whitespace a then skip_whitespace s' else s
  | EmptyString => s
  end.

Definition hex_value (a : ascii) : option nat :=
  let n := nat_of_ascii a in
  if ((48 <=? n) && (n <=? 57))%nat then Some (n - 48)%nat
  else if ((97 <=? n) && (n <=? 102))%nat then Some (n - 87)%nat
  else if ((65 <=? n) && (n <=? 70))%nat then Some (n - 55)%nat
  else None.

(** The UTF-8 bytes of a code point of the basic plane. *)
Definition utf8 (c : nat) : string :=
  if (c <? 128)%nat then String (ascii_of_nat c) EmptyString
  else if (c <? 2048)%nat then
    String (ascii_of_nat (192 + c / 64))
      (String (ascii_of_nat (128 + c mod 64)) EmptyString)
  else
    String (ascii_of_nat (224 + c / 4096))
      (String (ascii_of_nat (128 + (c / 64) mod 64))
         (String (ascii_of_nat (128 + c mod 64)) EmptyString)).

Definition prepend (prefix : string) (r : option (string * string))
  : option (string * string) :=
  match r with
  | Some (s, rest) => Some (prefix +:+ s, rest)
  | None => None
  end.

(** The string that ends at the next unescaped quote, and what follows. *)
Fixpoint unquoted (s : string) : option (string * string) :=
  match s with
  | EmptyString => None
  | String a s' =>
      if Ascii.eqb a quote then Some (EmptyString, s')
      else if Ascii.eqb a backslash then
        match s' with
        | String b s'' =>
            if Ascii.eqb b quote || Ascii.eqb b backslash || Ascii.eqb b "/"
            then prepend (String b EmptyString) (unquoted s'')
            else if Ascii.eqb b "b" then prepend (String "008" EmptyString) (unquoted s'')
            else if Ascii.eqb b "t" then prepend (String "009" EmptyString) (unquoted s'')
            else if Ascii.eqb b "n" then prepend (String "010" EmptyString) (unquoted s'')
            else if Ascii.eqb b "f" then prepend (String "012" EmptyString) (unquoted s'')
            else if Ascii.eqb b "r" then prepend (String "013" EmptyString) (unquoted s'')
            else if Ascii.eqb b "u" then
              match s'' with
              | String x1 (String x2 (String x3 (String x4 s5))) =>
                  match hex_value x1, hex_value x2, hex_value x3, hex_value x4 with
                  | Some v1, Some v2, Some v3, Some v4 =>
                      prepend (utf8 (((v1 * 16 + v2) * 16 + v3) * 16 + v4))
                        (unquoted s5)
                  | _, _, _, _ => None
                  end
              | _ => None
              end
            else None
        | EmptyString => None
        end
      else if (nat_of_ascii a <? 32)%nat then None
      else prepend (String a EmptyString) (unquoted s')
  end.

Definition digit (d : Decimal.uint → Decimal.uint)
    (r : Decimal.uint * string) : Decimal.uint * string :=
  (d r.1, r.2).

(** The decimal digits [s] starts with, and what follows. *)
Fixpoint leading_digits (s : string) : Decimal.uint * string :=
  match s with
  | String "0" s' => digit Decimal.D0 (leading_digits s')
  | String "1" s' => digit Decimal.D1 (leading_digits s')
  | String "2" s' => digit Decimal.D2 (leading_digits s')
  | String "3" s' => digit Decimal.D3 (leading_digits s')
  | String "4" s' => digit Decimal.D4 (leading_digits s')
  | String "5" s' => digit Decimal.D5 (leading_digits s')
  | String "6" s' => digit Decimal.D6 (leading_digits s')
  | String "7" s' => digit Decimal.D7 (leading_digits s')
  | String "8" s' => digit Decimal.D8 (leading_digits s')
  | String "9" s' => digit Decimal.D9 (leading_digits s')
  | _ => (Decimal.Nil, s)
  end.

Definition starts_fraction (s : string) : bool :=
  match s with
  | String a _ => Ascii.eqb a "." || Ascii.eqb a "e" || Ascii.eqb a "E"
  | EmptyString => false
  end.

(** A number without leading zeros, fraction or exponent. *)
Definition unsigned (s : string) : option (N * string) :=
  let '(d, rest) := leading_digits s in
  let n := N.of_uint d in
  if negb (Decimal.uint_beq d Decimal.Nil) && Decimal.uint_beq (N.to_uint n) d then
    if starts_fraction rest then None else Some (n, rest)
  else None.

Definition negative (s : string) : option string :=
  match s with
  | String a s' => if Ascii.eqb a "-" then Some s' else None
  | EmptyString => None
  end.

Definition read_number (s : string) : option (json * string) :=
  match negative s with
  | Some s' =>
      match unsigned s' with
      | Some (n, rest) => Some (JNum (- Z.of_N n), rest)
      | None => None
      end
  | None =>
      match unsigned s with
      | Some (n, rest) => Some (JNum (Z.of_N n), rest)
      | None => None
      end
  end.

(** What the reader is in the middle of. *)
Inductive expecting :=
| AValue
| Members (acc : gmap string json)
| Elements (acc : list json).

Fixpoint read (fuel : nat) (what : expecting) (s : string) : option (json * string) :=
  match fuel with
  | O => None
  | S fuel =>
      match what with
      | AValue =>
          match skip_whitespace s with
          | EmptyString => None
          | String c rest as s =>
              if Ascii.eqb c "{" then
                match skip_whitespace rest with
                | String "}" rest' => Some (JObj ∅, rest')
                | _ => read fuel (Members ∅) rest
                end
              else if Ascii.eqb c "[" then
                match skip_whitespace rest with
                | String "]" rest' => Some (JArr [], rest')
                | _ => read fuel (Elements []) rest
                end
              else if Ascii.eqb c quote then
                match unquoted rest with
                | Some (str, rest') => Some (JStr str, rest')
                | None => None
                end
              else if Ascii.eqb c "n" then
                match after "ull" rest with
                | Some rest' => Some (JNull, rest')
                | None => None
                end
              else if Ascii.eqb c "t" then
                match after "rue" rest with
                | Some rest' => Some (JBool true, rest')
                | None => None
                end
              else if Ascii.eqb c "f" then
                match after "alse" rest with
                | Some rest' => Some (JBool false, rest')
                | None => None
                end
              else read_number s
          end
      | Members acc =>
          match skip_whitespace s with
          | String c rest =>
              if Ascii.eqb c quote then
                match unquoted rest with
                | Some (key, rest) =>
                    match skip_whitespace rest with
                    | String ":" rest =>
                        match read fuel AValue rest with
                        | Some (value, rest) =>
                            match skip_whitespace rest with
                            | String "," rest =>
                                read fuel (Members (<[key := value]> acc)) rest
                            | String "}" rest =>
                                Some (JObj (<[key := value]> acc), rest)
                            | _ => None
                            end
                        | None => None
                        end
                    | _ => None
                    end
                | None => None
                end
              else None
          | EmptyString => None
          end
      | Elements acc =>
          match read fuel AValue s with
          | Some (value, rest) =>
              match skip_whitespace rest with
              | String "," rest => read fuel (Elements (acc ++ [value])) rest
              | String "]" rest => Some (JArr (acc ++ [value]), rest)
              | _ => None
              end
          | None => None
          end
      end
  end.

Definition parse (s : string) : option json :=
  match read (S (String.length s)) AValue s with
  | Some (j, rest) =>
      match skip_whitespace rest with
      | EmptyString => Some j
      | String _ _ => None
      end
  | None => None
  end.

(** *** What the proofs about the reader speak of *)

(** [rest] does not go on with the number before it. *)
Definition ends_number (rest : string) : Prop :=
  leading_digits rest = (Decimal.Nil, rest) ∧ starts_fraction rest = false.

(** The first character of a printed number. *)
Definition number_start (c : ascii) : bool :=
  let n := nat_of_ascii c in ((n =? 45) || ((48 <=? n) && (n <=? 57)))%nat.

(** The value a printed string stands for. *)
Definition string_value (text : string) : json :=
  match text with
  | String _ body =>
      match unquoted body with
      | Some (s, _) => JStr s
      | None => JNull
      end
  | EmptyString => JNull
  end.

(** A member whose value is a printed string, added to an object. *)
Definition add_member (m : gmap string json) (kt : string * string)
  : gmap string json :=
  <[kt.1 := string_value kt.2]> m.
End JSON.

Module Stored.
Definition magic : string := String "031" (String "139" EmptyString).

(** The bytes as they are, behind the magic bytes of a gzip file. *)
Definition gzip (b : string) : string := magic +:+ b.

Definition gunzip (s : string) : option string := after magic s.
End Stored.

Global Instance reference : Platform := {|
  sha1_hex := SHA1.hex;
  zlib_gzip := Stored.gzip;
  zlib_gunzip := Stored.gunzip;
  JSON_stringify := JSON.stringify;
  JSON_parse := JSON.parse;
|}.

(** * A scenario to evaluate

    A machine whose filesystem holds [/tmp], the plugin with its default
    settings, and the response of the specification's example. *)

Module Scenario.
Definition env : environment := default_environment.

Definition cache : URLFileSystemCache :=
  {| cachePath := CACHE_PATH env; ttl := CACHE_TTL env |}.

Definition machine : world :=
  {| w_fs := <[["tmp"] := Dir true 0]> (<[[] := Dir true 0]> ∅);
     w_timers := []; w_log := []; w_now := 1000 |}.

(** The process has started: [init] has run. *)
Definition started : world := (init env machine).2.

Definition a_url : string := "http://a".

Definition a_headers : gmap string string :=
  <["content-type" := "text/html"]> (<["date" := "X"]> ∅).

Definition a_body : string := "hi".

(** The response has been cached. *)
Definition cached : world := (set env cache a_url 200 a_headers a_body started).2.

(** A day later. *)
Definition stale : world := elapse (CACHE_TTL env * 1000) cached.

(** The shard directory has lost its write permission. *)
Definition read_only (w : world) : world :=
  with_fs w (<[shard cache a_url := Dir false 0]> (w_fs w)).

(** The body of the entry is no longer a gzip file. *)
Definition corrupted (w : world) : world :=
  with_fs w (<[data_file cache a_url := File "garbage" 0]> (w_fs w)).

(** The same response with header names as a server sends them. *)
Definition mixed_case_headers : gmap string string :=
  <["Content-Type" := "text/html"]> (<["Date" := "X"]> ∅).

(** The process is restarted a second after the response was cached; it
    sweeps the cache, which sets a timer for each of the two files; a day
    after the write the first of these timers fires. *)
Definition restart_then_timer : list event :=
  [CallSet a_url 200 a_headers a_body; Elapse 1000; Restart; Elapse 1;
   FireTimer 0; Elapse (CACHE_TTL env * 1000 - 1001); FireTimer 0].

Definition a_request : request :=
  {| method := "GET";
     request_headers := ∅;
     request_prerender :=
       {| url := a_url; statusCode := 200; headers := Some a_headers;
          prerender_content := Some a_body |};
     fromCache := false |}.

Definition with_statusCode (req : request) (code : Z) : request :=
  {| method := method req;
     request_headers := request_headers req;
     request_prerender :=
       {| url := url (request_prerender req); statusCode := code;
          headers := headers (request_prerender req);
          prerender_content := prerender_content (request_prerender req) |};
     fromCache := fromCache req |}.

Definition no_cache (req : request) : request :=
  {| method := method req;
     request_headers := <["cache-control" := "no-cache"]> (request_headers req);
     request_prerender := request_prerender req;
     fromCache := fromCache req |}.

(** Other requests, a restart and its sweep after the response was cached. *)
Definition busy_hour : list event :=
  [RequestReceived a_request; Elapse 1000;
   CallSet "http://b" 404 mixed_case_headers "not found";
   Restart; Elapse 1; FireTimer 0; Elapse 3600000;
   RequestReceived (no_cache a_request); BeforeSend (no_cache a_request);
   CallGet "http://b"].
End Scenario.

(** ** Words for the sweep *)

(** The names [processDirectory] takes for the files of the cache. *)
Definition cache_file_name (name : string) : bool :=
  endsWith name ".data" || endsWith name ".meta".

(** [p] is somewhere below the directory [d]. *)
Definition below (d p : path) : Prop := d `prefix_of` p ∧ p ≠ d.

(** Every node but the root is the entry of a directory. *)
Definition well_formed (fs : filesystem) : Prop :=
  ∀ p, is_Some (fs !! p) → p ≠ [] → is_directory fs (path_dirname p) = true.

(** Every directory lets its entries be removed. *)
Definition all_writable (fs : filesystem) : Prop :=
  ∀ d, is_directory fs d = true → dir_writable fs d = true.

(** The timer the sweep sets for a file that has not reached the TTL. *)
Definition expiry_timer (this : URLFileSystemCache) (now : Z) (filename : path)
    (mtime : Z) : timer :=
  {| timer_due := now + timer_delay (ttl this * 1000 - (now - mtime));
     timer_callback := TRemoveExpiredCacheFile filename |}.

(** A computation that logs nothing. *)
Definition quiet {A} (m : M A) : Prop := ∀ w, w_log (m w).2 = w_log w.

(** What a part of the sweep may do to the world: it leaves the clock,
    removes nodes, adds timers and logs; it changes no path outside of
    [allowed], and leaves a well-formed filesystem well-formed. *)
Definition sweeps (allowed : path → Prop) (w w' : world) : Prop :=
  w_now w' = w_now w
  ∧ w_fs w' ⊆ w_fs w
  ∧ (∃ new, w_timers w' = w_timers w ++ new)
  ∧ (∀ p, ¬ allowed p → w_fs w' !! p = w_fs w !! p)
  ∧ (well_formed (w_fs w) → well_formed (w_fs w')).

(** The sweep is done with the file at [p], if there is one and it is a
    file of the cache: it has not reached the TTL, and its timer is set. *)
Definition handled (this : URLFileSystemCache) (now : Z) (w' : world) (p : path)
  : Prop :=
  ∀ c t, w_fs w' !! p = Some (File c t) →
         cache_file_name (List.last p EmptyString) = true →
         now - t < ttl this * 1000
         ∧ expiry_timer this now p t ∈ w_timers w'.

(** ** More of the scenario *)

Module Situations.
Import Scenario.

(** A second after the response was cached. *)
Definition a_second_later : world := elapse 1000 cached.

(** The [.meta] file of the entry holds [null]. *)
Definition headless : world :=
  with_fs cached (<[meta_file cache a_url := File "null" 1000]> (w_fs cached)).

(** A cache that keeps its entries for thirty days. *)
Definition long_lived : URLFileSystemCache :=
  {| cachePath := CACHE_PATH env; ttl := 2592000 |}.

(** The default settings, with [DISABLE_LOGGING] set. *)
Definition silent : environment :=
  {| CACHE_PATH := CACHE_PATH env; CACHE_TTL := CACHE_TTL env;
     CACHE_STATUS_CODES := CACHE_STATUS_CODES env; DISABLE_LOGGING := true |}.

(** Another response, for the same URL. *)
Definition gone_headers : gmap string string := <["Content-Type" := "text/plain"]> ∅.
End Situations.

(** * Proofs *)

(** ** Paths of a cache entry *)

Lemma path_dirname_join d x : path_dirname (path_join d x) = d.
Proof. apply removelast_last. Qed.

Lemma path_concat_join d x s : path_concat (path_join d x) s = path_join d (x +:+ s).
Proof. unfold path_concat, path_join. by rewrite removelast_last, last_last. Qed.

Lemma path_join_ne_dir d x : path_join d x ≠ d.
Proof.
  unfold path_join. intros E. apply (f_equal length) in E.
  rewrite length_app in E. simpl in E. lia.
Qed.

Lemma string_app_cons a (x s : string) : String a x +:+ s = String a (x +:+ s).
Proof. reflexivity. Qed.

Lemma string_app_nil (s : string) : EmptyString +:+ s = s.
Proof. reflexivity. Qed.

Lemma string_app_inj_l (x s1 s2 : string) : x +:+ s1 = x +:+ s2 → s1 = s2.
Proof.
  induction x as [|a x IH]; [done|].
  rewrite !string_app_cons. intros [= E]. auto.
Qed.

Lemma string_app_length (s1 s2 : string) :
  String.length (s1 +:+ s2) = (String.length s1 + String.length s2)%nat.
Proof.
  induction s1 as [|a s1 IH]; [done|].
  rewrite string_app_cons. simpl. by rewrite IH.
Qed.

(** Two strings with suffixes of the same length agree only if the
    suffixes do. *)
Lemma string_app_inj_suffix (x y s1 s2 : string) :
  String.length s1 = String.length s2 → x +:+ s1 = y +:+ s2 → x = y ∧ s1 = s2.
Proof.
  revert y. induction x as [|a x IH]; intros [|b y] Hl;
    rewrite ?string_app_cons, ?string_app_nil.
  - done.
  - intros ->. simpl in Hl. rewrite string_app_length in Hl. lia.
  - intros <-. simpl in Hl. rewrite string_app_length in Hl. lia.
  - intros [= -> E]. destruct (IH y Hl E) as [-> ->]. done.
Qed.

Section Entry.
Context `{Platform} (this : URLFileSystemCache) (url : string).

Lemma dirname_filename : path_dirname (filenameForUrl this url) = shard this url.
Proof. unfold filenameForUrl. apply path_dirname_join. Qed.

Lemma data_file_eq :
  data_file this url = path_join (shard this url) (urlHash url +:+ ".data").
Proof. unfold data_file, filenameForUrl. by rewrite path_concat_join. Qed.

Lemma meta_file_eq :
  meta_file this url = path_join (shard this url) (urlHash url +:+ ".meta").
Proof. unfold meta_file, filenameForUrl. by rewrite path_concat_join. Qed.

Lemma dirname_data_file : path_dirname (data_file this url) = shard this url.
Proof. rewrite data_file_eq. apply path_dirname_join. Qed.

Lemma dirname_meta_file : path_dirname (meta_file this url) = shard this url.
Proof. rewrite meta_file_eq. apply path_dirname_join. Qed.

Lemma data_meta_ne : data_file this url ≠ meta_file this url.
Proof.
  rewrite data_file_eq, meta_file_eq. unfold path_join.
  intros E. apply app_inv_head in E. injection E as E.
  apply string_app_inj_l in E. discriminate.
Qed.

Lemma data_file_ne_shard : data_file this url ≠ shard this url.
Proof. rewrite data_file_eq. apply path_join_ne_dir. Qed.

Lemma meta_file_ne_shard : meta_file this url ≠ shard this url.
Proof. rewrite meta_file_eq. apply path_join_ne_dir. Qed.

Lemma length_data_file :
  length (data_file this url) = S (length (shard this url)).
Proof. rewrite data_file_eq. unfold path_join. rewrite length_app. simpl. lia. Qed.

Lemma length_meta_file :
  length (meta_file this url) = S (length (shard this url)).
Proof. rewrite meta_file_eq. unfold path_join. rewrite length_app. simpl. lia. Qed.
End Entry.

(** ** The monad *)

Ltac mrun :=
  repeat progress
    unfold mbind, M_bind, mret, M_ret, try_catch, attempt, access, stat, readFile,
      readdir, unlink, rmdir, writeFile, mkdir_recursive, fs_read, fs_write,
      or_throw, Date_now, gunzip, parse in *.

Lemma bind_Ok {A B} (m : M A) (f : A → M B) w a w' :
  m w = (Ok a, w') → (m ≫= f) w = f a w'.
Proof. unfold mbind, M_bind. by intros ->. Qed.

Lemma bind_Throw {A B} (m : M A) (f : A → M B) w e w' :
  m w = (Throw e, w') → (m ≫= f) w = (Throw e, w').
Proof. unfold mbind, M_bind. by intros ->. Qed.

Lemma try_catch_Ok {A} (body : M A) handler w a w' :
  body w = (Ok a, w') → try_catch body handler w = (Ok a, w').
Proof. unfold try_catch. by intros ->. Qed.

Lemma try_catch_Throw {A} (body : M A) handler w e w' :
  body w = (Throw e, w') → try_catch body handler w = handler e w'.
Proof. unfold try_catch. by intros ->. Qed.

Lemma bind_mret_snd {A B} (m : M A) (b : B) w : ((m;; mret b) w).2 = (m w).2.
Proof. unfold mbind, M_bind. by destruct (m w) as [[a|e] w']. Qed.

Section Get.
Context `{Platform} (this : URLFileSystemCache) (url : string).

Lemma get_absent w :
  w_fs w !! data_file this url = None ∨ w_fs w !! meta_file this url = None →
  get this url w = (Ok None, w).
Proof.
  intros Habs. unfold get. fold (data_file this url) (meta_file this url).
  mrun. unfold fs_access.
  destruct (w_fs w !! data_file this url) as [nd|]; simpl; [|done].
  destruct (w_fs w !! meta_file this url) as [nm|]; simpl; [|done].
  by destruct Habs.
Qed.

Lemma get_unexpired w nd nm :
  w_fs w !! data_file this url = Some nd →
  w_fs w !! meta_file this url = Some nm →
  w_now w - node_mtime nm < ttl this * 1000 →
  get this url w = (Ok (decode_entry nd nm), w).
Proof.
  intros Hd Hm Ht. unfold get. fold (data_file this url) (meta_file this url).
  unfold isFileExpired, isExpiredBasedOnMtime.
  mrun. unfold fs_access, fs_stat, fs_readFile. rewrite Hd, Hm. simpl.
  rewrite Hm. simpl.
  rewrite bool_decide_eq_false_2 by lia. simpl.
  rewrite Hd. destruct nd as [cd td|]; simpl; [|done].
  destruct (zlib_gunzip cd); simpl; [|by destruct nm].
  rewrite Hm. destruct nm as [cm tm|]; simpl; [|done].
  destruct (JSON_parse cm); simpl; done.
Qed.

Lemma get_expired w nd nm :
  w_fs w !! data_file this url = Some nd →
  w_fs w !! meta_file this url = Some nm →
  ttl this * 1000 ≤ w_now w - node_mtime nm →
  get this url w =
    (unlink (meta_file this url);; unlink (data_file this url);; mret None) w.
Proof.
  intros Hd Hm Ht. unfold get. fold (data_file this url) (meta_file this url).
  unfold isFileExpired, isExpiredBasedOnMtime.
  mrun. unfold fs_access, fs_stat. rewrite Hd, Hm. simpl.
  rewrite Hm. simpl.
  rewrite bool_decide_eq_true_2 by lia. done.
Qed.
End Get.

(** ** Filesystem calls *)

Lemma mkdir_from_lookup_long base rest now fs fs' p :
  mkdir_from base rest now fs = inr fs' →
  (length base + length rest < length p)%nat →
  fs' !! p = fs !! p.
Proof.
  revert base fs. induction rest as [|x rest IH]; intros base fs; simpl.
  - by intros [= ->].
  - intros Hmk Hlen.
    assert (Hlen' : (length (path_join base x) + length rest < length p)%nat).
    { unfold path_join. rewrite length_app. simpl. lia. }
    destruct (fs !! path_join base x) as [[|]|] eqn:E; [done| |].
    + eauto.
    + destruct (dir_writable fs base); [|done].
      rewrite (IH _ _ Hmk Hlen'). apply lookup_insert_ne.
      intros <-. unfold path_join in Hlen'. lia.
Qed.

Lemma mkdir_from_creates base rest now fs fs' :
  mkdir_from base rest now fs = inr fs' →
  rest ≠ [] →
  fs !! (base ++ rest) = None →
  fs' !! (base ++ rest) = Some (Dir true now).
Proof.
  revert base fs. induction rest as [|x rest IH]; intros base fs; simpl; [done|].
  intros Hmk _ Hnone.
  replace (base ++ x :: rest) with (path_join base x ++ rest) in *
    by (unfold path_join; by rewrite <- app_assoc).
  destruct (fs !! path_join base x) as [[|]|] eqn:E; [done| |].
  - destruct rest as [|y rest].
    { rewrite app_nil_r in Hnone. assert (Some (Dir writable mtime) = None) by (rewrite <- E; exact Hnone). done. }
    by apply (IH _ _ Hmk).
  - destruct (dir_writable fs base); [|done].
    destruct rest as [|y rest].
    + simpl in Hmk. injection Hmk as <-. rewrite app_nil_r. apply lookup_insert_eq.
    + apply (IH _ _ Hmk); [done|].
      rewrite lookup_insert_ne; [done|].
      intros E'. apply (f_equal length) in E'. rewrite length_app in E'. simpl in E'. lia.
Qed.

Lemma fs_mkdir_recursive_lookup_long d now fs fs' p :
  fs_mkdir_recursive d now fs = inr fs' →
  (length d < length p)%nat →
  fs' !! p = fs !! p.
Proof. intros Hmk Hlen. by apply (mkdir_from_lookup_long _ _ _ _ _ _ Hmk). Qed.

Lemma fs_mkdir_recursive_creates d now fs fs' :
  fs_mkdir_recursive d now fs = inr fs' →
  d ≠ [] →
  fs !! d = None →
  fs' !! d = Some (Dir true now).
Proof. apply (mkdir_from_creates []). Qed.

Lemma writeFile_Ok p c w :
  is_directory (w_fs w) p = false →
  dir_writable (w_fs w) (path_dirname p) = true →
  writeFile p c w = (Ok (), with_fs w (<[p := File c (w_now w)]> (w_fs w))).
Proof.
  unfold is_directory, dir_writable, writeFile. mrun. unfold fs_writeFile.
  destruct (w_fs w !! p) as [[|]|]; [done..|].
  by destruct (w_fs w !! path_dirname p) as [[|[|]]|].
Qed.

Lemma unlink_Ok p w :
  is_file (w_fs w) p = true →
  dir_writable (w_fs w) (path_dirname p) = true →
  unlink p w = (Ok (), with_fs w (delete p (w_fs w))).
Proof.
  unfold is_file, unlink. mrun. unfold fs_unlink.
  destruct (w_fs w !! p) as [[|]|]; [|done..].
  by intros _ ->.
Qed.

Lemma fs_unlink_error p fs e :
  fs_unlink p fs = inl e → e ≠ Z_DATA_ERROR ∧ e ≠ SyntaxError.
Proof. unfold fs_unlink. repeat case_match; by intros [= <-]. Qed.

Section SetProofs.
Context `{Platform} (env : environment) (this : URLFileSystemCache) (url : string).

(** After [ensureDirExists] on an available shard, the shard is a
    writable directory and the two files are as they were. *)
Lemma ensureDirExists_shard w :
  shard_available this url w = true →
  ∃ fs', ensureDirExists env (shard this url) w = (Ok (), with_fs w fs')
    ∧ dir_writable fs' (shard this url) = true
    ∧ fs' !! data_file this url = w_fs w !! data_file this url
    ∧ fs' !! meta_file this url = w_fs w !! meta_file this url.
Proof.
  unfold shard_available, ensureDirExists. mrun. unfold fs_access.
  destruct (w_fs w !! shard this url) as [[|[|] t]|] eqn:E; try done.
  - intros _. exists (w_fs w). unfold dir_writable. rewrite E.
    by destruct w.
  - destruct (fs_mkdir_recursive (shard this url) (w_now w) (w_fs w))
      as [|fs'] eqn:Emk; [done|].
    intros _. exists fs'. split_and!; [done| | |].
    + unfold dir_writable.
      rewrite (fs_mkdir_recursive_creates _ _ _ _ Emk); [done| |done].
      unfold shard, path_join. by destruct (cachePath this).
    + apply (fs_mkdir_recursive_lookup_long _ _ _ _ _ Emk).
      rewrite length_data_file. lia.
    + apply (fs_mkdir_recursive_lookup_long _ _ _ _ _ Emk).
      rewrite length_meta_file. lia.
Qed.

Lemma set_stores statusCode headers value w :
  can_store this url w = true →
  ∃ fs',
    set env this url statusCode headers value w
    = (Ok (), with_timers (with_fs w fs')
                (w_timers w ++ [{| timer_due := w_now w + timer_delay (ttl this * 1000);
                                   timer_callback := TRemoveExpiredCacheUrl url |}]))
    ∧ fs' !! data_file this url = Some (File (zlib_gzip value) (w_now w))
    ∧ fs' !! meta_file this url
      = Some (File (JSON_stringify (metadata statusCode (filteredHeaders headers)))
                (w_now w))
    ∧ dir_writable fs' (shard this url) = true.
Proof.
  unfold can_store. rewrite !andb_true_iff, !negb_true_iff.
  intros [[Hshard Hd] Hm].
  destruct (ensureDirExists_shard w Hshard) as (fs0 & Hens & Hw & Hd0 & Hm0).
  pose proof (data_meta_ne this url) as Hne.
  pose proof (data_file_ne_shard this url) as Hds.
  pose proof (meta_file_ne_shard this url) as Hms.
  exists (<[meta_file this url :=
             File (JSON_stringify (metadata statusCode (filteredHeaders headers)))
               (w_now w)]>
            (<[data_file this url := File (zlib_gzip value) (w_now w)]> fs0)).
  split.
  - unfold set. rewrite dirname_filename.
    fold (data_file this url) (meta_file this url).
    set (fs1 := <[data_file this url := File (zlib_gzip value) (w_now w)]> fs0).
    rewrite (bind_Ok _ _ w () (with_fs w (<[meta_file this url :=
             File (JSON_stringify (metadata statusCode (filteredHeaders headers)))
               (w_now w)]> fs1))); [done|].
    apply try_catch_Ok.
    rewrite (bind_Ok _ _ _ _ _ Hens).
    rewrite (bind_Ok _ _ _ () (with_fs w fs1)).
    2:{ rewrite writeFile_Ok; simpl.
        - done.
        - unfold is_directory in *. by rewrite Hd0.
        - by rewrite dirname_data_file. }
    rewrite writeFile_Ok; subst fs1; simpl.
    + done.
    + unfold is_directory in *. rewrite lookup_insert_ne by done. by rewrite Hm0.
    + rewrite dirname_meta_file. unfold dir_writable in *.
      by rewrite lookup_insert_ne.
  - split_and!.
    + rewrite lookup_insert_ne by done. apply lookup_insert_eq.
    + apply lookup_insert_eq.
    + unfold dir_writable in *. by rewrite !lookup_insert_ne.
Qed.
End SetProofs.

(** ** Calls that never throw *)

Section NoThrow.
Context `{Platform} (env : environment).

Lemma log_Ok line w :
  ∃ lines, log env line w = (Ok (), with_log w lines).
Proof.
  unfold log. destruct (DISABLE_LOGGING env).
  - exists (w_log w). by destruct w.
  - by eexists.
Qed.

Lemma log_fs line w : w_fs (log env line w).2 = w_fs w.
Proof. by destruct (log_Ok line w) as [lines ->]. Qed.

(** [removeDirectoryIfEmpty] removes [dirPath] or nothing. *)
Lemma removeDirectoryIfEmpty_Ok dirPath w :
  removeDirectoryIfEmpty dirPath w = (Ok (), w)
  ∨ removeDirectoryIfEmpty dirPath w = (Ok (), with_fs w (delete dirPath (w_fs w))).
Proof.
  unfold removeDirectoryIfEmpty. mrun. unfold fs_readdir, fs_rmdir.
  destruct (w_fs w !! dirPath) as [[|]|] eqn:E; [by left| |by left].
  simpl. case_decide; [|by left]. rewrite E.
  destruct (children (w_fs w) dirPath); [|simpl in *; done].
  destruct (dir_writable (w_fs w) (path_dirname dirPath)); [by right|by left].
Qed.

Lemma removeExpiredCacheUrl_Ok this url w :
  (removeExpiredCacheUrl env this url w).1 = Ok ().
Proof.
  unfold removeExpiredCacheUrl.
  unfold try_catch.
  destruct ((unlink _;; unlink _;; removeDirectoryIfEmpty _) w) as [[[]|e] w'] eqn:E.
  - done.
  - by destruct (log_Ok (LogRemoveUrlError url e) w') as [lines ->].
Qed.
End NoThrow.



(** ** The storage hook *)

Section Hooks.
Context `{Platform} (env : environment) (cache : URLFileSystemCache).

(** [set] schedules the removal of the entry whether or not it could
    write it. *)
Lemma set_timers url statusCode headers value w :
  w_timers (set env cache url statusCode headers value w).2
  = w_timers w ++ [{| timer_due := w_now w + timer_delay (ttl cache * 1000);
                      timer_callback := TRemoveExpiredCacheUrl url |}].
Proof.
  unfold set, ensureDirExists, log, console_log, setTimeout. mrun.
  repeat (case_match; simplify_eq; simpl in *; try done).
Qed.

Lemma beforeSend_ineligible req w :
  ¬ eligible env req → beforeSend env cache req w = (Ok Next, w).
Proof.
  unfold eligible, beforeSend. intros Hn.
  destruct (String.eqb_spec (method req) "GET") as [Hm|Hm]; simpl; [|done].
  case_bool_decide as Hs; simpl; [|done].
  destruct (fromCache req); simpl; [done|].
  by destruct Hn.
Qed.

Lemma beforeSend_eligible req w :
  eligible env req →
  beforeSend env cache req w
  = (log env (LogCaching (url (request_prerender req))
                (filenameForUrl cache (url (request_prerender req))));;
     set env cache (url (request_prerender req))
       (statusCode (request_prerender req))
       (default ∅ (headers (request_prerender req)))
       (default EmptyString (prerender_content (request_prerender req)));;
     mret Next) w.
Proof.
  unfold eligible, beforeSend. intros (Hm & Hs & Hf).
  rewrite Hm, Hf. case_bool_decide; [|done]. simpl.
  unfold mbind, M_bind.
  destruct (log env _ w) as [[[]|e] w1]; [|done].
  by destruct (set env cache _ _ _ _ w1) as [[[]|e] w2].
Qed.

(** What [get] throws leaves [requestReceived]. *)
Lemma requestReceived_get_throws req w e w' :
  method req = "GET" →
  request_headers req !! "cache-control" ≠ Some "no-cache" →
  get cache (url (request_prerender req)) w = (Throw e, w') →
  requestReceived env cache req w = (Throw e, w').
Proof.
  intros Hm Hnc Hget. unfold requestReceived. rewrite Hm. simpl.
  case_decide; [done|]. by apply bind_Throw.
Qed.

Lemma log_timers line w : w_timers (log env line w).2 = w_timers w.
Proof. by destruct (log_Ok env line w) as [lines ->]. Qed.

Lemma log_now line w : w_now (log env line w).2 = w_now w.
Proof. by destruct (log_Ok env line w) as [lines ->]. Qed.
End Hooks.



(** ** Properties of the filesystem that the cache keeps *)

Section Keeps.
Context `{Platform} (env : environment) (P : filesystem → Prop).

Lemma keeps_ret {A} (a : A) : keeps P (mret a).
Proof. by intros w. Qed.

Lemma keeps_bind {A B} (m : M A) (f : A → M B) :
  keeps P m → (∀ a, keeps P (f a)) → keeps P (m ≫= f).
Proof.
  intros Hm Hf w Hc. unfold mbind, M_bind.
  specialize (Hm w Hc). destruct (m w) as [[a|e] w']; [|done].
  by apply Hf.
Qed.

Lemma keeps_try_catch {A} (body : M A) handler :
  keeps P body → (∀ e, keeps P (handler e)) → keeps P (try_catch body handler).
Proof.
  intros Hm Hf w Hc. unfold try_catch.
  specialize (Hm w Hc). destruct (body w) as [[a|e] w']; [done|].
  by apply Hf.
Qed.

Lemma keeps_attempt {A} (body : M A) : keeps P body → keeps P (attempt body).
Proof.
  intros Hb. apply keeps_try_catch; [|intros; apply keeps_ret].
  apply keeps_bind; [done|intros; apply keeps_ret].
Qed.

Lemma keeps_fs_read {A} (op : filesystem → error + A) : keeps P (fs_read op).
Proof. intros w Hc. unfold fs_read, or_throw. by destruct (op (w_fs w)). Qed.

Lemma keeps_or_throw {A} (r : error + A) : keeps P (or_throw r).
Proof. intros w Hc. unfold or_throw. by destruct r. Qed.

Lemma keeps_fs_write op :
  (∀ fs fs', op fs = inr fs' → P fs → P fs') → keeps P (fs_write op).
Proof.
  intros Hop w Hc. unfold fs_write.
  destruct (op (w_fs w)) as [e|fs'] eqn:E; [done|]. simpl. eauto.
Qed.

Lemma keeps_Date_now : keeps P Date_now.
Proof. by intros w. Qed.

Lemma keeps_setTimeout callback ms : keeps P (setTimeout callback ms).
Proof. by intros w. Qed.

Lemma keeps_log line : keeps P (log env line).
Proof. intros w Hc. by rewrite log_fs. Qed.

(** What removing a node keeps is kept by [get], by the removals and by
    the sweep. *)
Hypothesis P_delete : ∀ q fs, P fs → P (delete q fs).

Lemma keeps_unlink q : keeps P (unlink q).
Proof.
  apply keeps_fs_write. intros fs fs'. unfold fs_unlink.
  repeat case_match; try done. intros [= <-]. apply P_delete.
Qed.

Lemma keeps_rmdir q : keeps P (rmdir q).
Proof.
  apply keeps_fs_write. intros fs fs'. unfold fs_rmdir.
  repeat case_match; try done. intros [= <-]. apply P_delete.
Qed.

Lemma keeps_removeDirectoryIfEmpty d : keeps P (removeDirectoryIfEmpty d).
Proof.
  apply keeps_try_catch; [|intros; apply keeps_ret].
  apply keeps_bind; [apply keeps_fs_read|]. intros files.
  case_decide; [apply keeps_rmdir|apply keeps_ret].
Qed.

Lemma keeps_removeExpiredCacheFile filename :
  keeps P (removeExpiredCacheFile env filename).
Proof.
  apply keeps_try_catch; [|intros; apply keeps_log].
  apply keeps_bind; [apply keeps_unlink|]. intros _.
  apply keeps_removeDirectoryIfEmpty.
Qed.

Lemma keeps_removeExpiredCacheUrl this url :
  keeps P (removeExpiredCacheUrl env this url).
Proof.
  apply keeps_try_catch; [|intros; apply keeps_log].
  apply keeps_bind; [apply keeps_unlink|]. intros _.
  apply keeps_bind; [apply keeps_unlink|]. intros _.
  apply keeps_removeDirectoryIfEmpty.
Qed.

Lemma keeps_isExpiredBasedOnMtime this mtime :
  keeps P (isExpiredBasedOnMtime this mtime).
Proof. apply keeps_bind; [apply keeps_Date_now|intros; apply keeps_ret]. Qed.

Lemma keeps_get this url : keeps P (get this url).
Proof.
  unfold get. apply keeps_bind.
  { apply keeps_try_catch; [|intros; apply keeps_ret].
    repeat (apply keeps_bind; [apply keeps_fs_read|intros _]). apply keeps_ret. }
  intros present. destruct present; simpl; [|apply keeps_ret].
  apply keeps_bind.
  { apply keeps_bind; [apply keeps_fs_read|]. intros st.
    apply keeps_isExpiredBasedOnMtime. }
  intros [|].
  - repeat (apply keeps_bind; [apply keeps_unlink|intros _]). apply keeps_ret.
  - apply keeps_try_catch; [|intros; apply keeps_ret].
    apply keeps_bind; [apply keeps_fs_read|]. intros c.
    apply keeps_bind; [apply keeps_or_throw|]. intros b.
    apply keeps_bind; [|intros; apply keeps_ret].
    apply keeps_bind; [apply keeps_fs_read|]. intros text. apply keeps_or_throw.
Qed.

Lemma keeps_requestReceived cache req : keeps P (requestReceived env cache req).
Proof.
  unfold requestReceived. destruct (negb _); [apply keeps_ret|].
  case_decide; [apply keeps_ret|].
  apply keeps_bind; [apply keeps_get|]. intros [cachedResponse|]; [|apply keeps_ret].
  apply keeps_bind; [apply keeps_log|]. intros _.
  apply keeps_bind; [apply keeps_or_throw|intros; apply keeps_ret].
Qed.

Lemma keeps_processEntries this recur dir entries tot :
  (∀ p t, keeps P (recur p t)) →
  keeps P (processEntries env this recur dir entries tot).
Proof.
  intros Hrec. revert tot.
  induction entries as [|entry rest IH]; intros tot; simpl.
  - apply keeps_bind; [apply keeps_removeDirectoryIfEmpty|intros; apply keeps_ret].
  - destruct (dirent_isDirectory entry).
    { apply keeps_bind; [apply Hrec|]. intros tot'. apply IH. }
    destruct (endsWith _ _ || endsWith _ _); [|apply IH].
    apply keeps_bind; [apply keeps_attempt, keeps_fs_read|].
    intros [e|st].
    { apply keeps_bind; [apply keeps_log|intros; apply keeps_ret]. }
    apply keeps_bind; [apply keeps_isExpiredBasedOnMtime|].
    intros [|].
    + apply keeps_bind; [apply keeps_removeExpiredCacheFile|]. intros _. apply IH.
    + apply keeps_bind; [apply keeps_Date_now|]. intros now.
      apply keeps_bind; [apply keeps_setTimeout|]. intros _. apply IH.
Qed.

Lemma keeps_processDirectory this depth dir tot :
  keeps P (processDirectory env this depth dir tot).
Proof.
  revert dir tot. induction depth as [|depth IH]; intros dir tot; simpl.
  - apply keeps_bind; [apply keeps_log|intros; apply keeps_ret].
  - apply keeps_bind; [apply keeps_attempt, keeps_fs_read|].
    intros [e|entries].
    + apply keeps_bind; [apply keeps_log|intros; apply keeps_ret].
    + by apply keeps_processEntries.
Qed.

Lemma keeps_cleanUpCacheDirectory this dirPath :
  keeps P (cleanUpCacheDirectory env this dirPath).
Proof.
  apply keeps_bind; [apply keeps_log|]. intros _.
  apply keeps_bind; [by intros w|]. intros depth.
  apply keeps_bind; [apply keeps_processDirectory|]. intros tot.
  apply keeps_bind; [apply keeps_log|intros; apply keeps_ret].
Qed.

Lemma keeps_runCallback this callback : keeps P (runCallback env this callback).
Proof.
  destruct callback; simpl.
  - apply keeps_bind; [apply keeps_cleanUpCacheDirectory|intros; apply keeps_ret].
  - apply keeps_removeExpiredCacheUrl.
  - apply keeps_removeExpiredCacheFile.
Qed.

Lemma keeps_fireTimer this i : keeps P (fireTimer env this i).
Proof.
  intros w Hc. unfold fireTimer.
  destruct (w_timers w !! i) as [t|]; [|done].
  case_decide; [|done]. by apply keeps_runCallback.
Qed.
End Keeps.

(** ** The sweep reaches every directory

    [processDirectory] recurses on a bound of the depth of the tree;
    [cleanUpCacheDirectory] gives it [tree_depth], and a larger bound gives
    the same result: the bound is never used up. *)

Lemma paths_within_delete n q fs :
  paths_within n fs → paths_within n (delete q fs).
Proof.
  intros Hn p Hp. apply Hn. rewrite lookup_delete in Hp.
  by case_decide; [destruct Hp|].
Qed.

Lemma paths_within_tree_depth fs : paths_within (pred (tree_depth fs)) fs.
Proof.
  unfold tree_depth. simpl. intros p [x Hp].
  apply elem_of_map_to_list in Hp.
  assert (Hin : length p ∈ length <$> (map_to_list fs).*1).
  { apply list_elem_of_fmap. exists p. split; [done|].
    apply list_elem_of_fmap. by exists (p, x). }
  revert Hin. generalize (length <$> (map_to_list fs).*1). intros l.
  induction l as [|y l IH]; [by intros ?%elem_of_nil|].
  intros [->|Hin]%elem_of_cons; simpl; [lia|]. specialize (IH Hin). lia.
Qed.

Lemma length_child d p : is_child d p → length p = S (length d).
Proof.
  intros [Hne <-]. unfold path_dirname.
  destruct (exists_last Hne) as (q & x & ->).
  rewrite removelast_last, length_app. simpl. lia.
Qed.

(** A directory with an entry is not at the bottom of the tree. *)
Lemma fs_readdir_within n dir fs entries :
  fs_readdir dir fs = inr entries →
  paths_within n fs →
  entries ≠ [] →
  (length dir < n)%nat.
Proof.
  unfold fs_readdir. destruct (fs !! dir) as [[|]|]; [done| |done].
  intros [= <-] Hn Hne.
  destruct (children fs dir) as [|[p x] l] eqn:E; [done|].
  assert (Hin : (p, x) ∈ children fs dir) by (rewrite E; left).
  apply elem_of_map_to_list, map_lookup_filter_Some in Hin as [Hp Hchild].
  apply length_child in Hchild. simpl in Hchild.
  specialize (Hn p (mk_is_Some _ _ Hp)). lia.
Qed.

Section Depth.
Context `{Platform} (env : environment) (this : URLFileSystemCache) (n : nat).

Lemma bind_ext_keeps {A B} (m : M A) (f g : A → M B) w :
  keeps (paths_within n) m →
  paths_within n (w_fs w) →
  (∀ a w', paths_within n (w_fs w') → f a w' = g a w') →
  (m ≫= f) w = (m ≫= g) w.
Proof.
  intros Hm Hw Hfg. unfold mbind, M_bind. specialize (Hm w Hw).
  destruct (m w) as [[a|e] w']; [|done]. by apply Hfg.
Qed.

Lemma processEntries_ext recur1 recur2 dir entries tot w :
  (∀ p t, keeps (paths_within n) (recur1 p t)) →
  (∀ name t w', paths_within n (w_fs w') →
                recur1 (path_join dir name) t w' = recur2 (path_join dir name) t w') →
  paths_within n (w_fs w) →
  processEntries env this recur1 dir entries tot w
  = processEntries env this recur2 dir entries tot w.
Proof.
  intros Hkeeps Hrec. revert tot w.
  induction entries as [|entry rest IH]; intros tot w Hw; [done|].
  simpl. destruct (dirent_isDirectory entry).
  { unfold mbind at 1 2, M_bind at 1 2. rewrite <- (Hrec _ _ _ Hw).
    pose proof (Hkeeps (path_join dir (dirent_name entry)) tot w Hw) as Hw'.
    destruct (recur1 _ tot w) as [[tot'|e] w']; [by apply IH|done]. }
  destruct (endsWith _ _ || endsWith _ _); [|by apply IH].
  apply bind_ext_keeps; [apply keeps_attempt, keeps_fs_read|done|].
  intros [e|st] w1 Hw1; [done|].
  apply bind_ext_keeps;
    [apply keeps_isExpiredBasedOnMtime|done|].
  intros [|] w2 Hw2.
  - apply bind_ext_keeps; [|done|by intros; apply IH].
    apply keeps_removeExpiredCacheFile, paths_within_delete.
  - apply bind_ext_keeps; [apply keeps_Date_now|done|]. intros now w3 Hw3.
    apply bind_ext_keeps; [apply keeps_setTimeout|done|]. by intros; apply IH.
Qed.

Lemma processDirectory_depth depth dir tot w :
  paths_within n (w_fs w) →
  (n < depth + length dir)%nat →
  (0 < depth)%nat →
  processDirectory env this (S depth) dir tot w
  = processDirectory env this depth dir tot w.
Proof.
  revert dir tot w. induction depth as [|depth IH]; intros dir tot w Hw Hn Hd; [lia|].
  change (processDirectory env this (S (S depth)) dir tot)
    with (entries ← attempt (readdir dir);
          match entries with
          | inl error => log env (LogCleaningUpError dir error);; mret tot
          | inr entries =>
              processEntries env this (processDirectory env this (S depth))
                dir entries tot
          end).
  change (processDirectory env this (S depth) dir tot)
    with (entries ← attempt (readdir dir);
          match entries with
          | inl error => log env (LogCleaningUpError dir error);; mret tot
          | inr entries =>
              processEntries env this (processDirectory env this depth)
                dir entries tot
          end).
  unfold mbind at 1 3, M_bind at 1 3.
  unfold attempt, try_catch, readdir, fs_read, or_throw, mbind, M_bind, mret, M_ret.
  destruct (fs_readdir dir (w_fs w)) as [e|entries] eqn:E; [done|].
  destruct entries as [|entry rest]; [done|].
  pose proof (fs_readdir_within n dir (w_fs w) _ E Hw ltac:(done)) as Hlen.
  apply processEntries_ext; [| |done].
  - intros p t. apply keeps_processDirectory, paths_within_delete.
  - intros name t w' Hw'. apply IH; [done| |lia].
    unfold path_join. rewrite length_app. simpl. lia.
Qed.

Lemma processDirectory_more_depth extra depth dir tot w :
  paths_within n (w_fs w) →
  (n < depth)%nat →
  processDirectory env this (extra + depth) dir tot w
  = processDirectory env this depth dir tot w.
Proof.
  intros Hw Hn. induction extra as [|extra IH]; [done|].
  simpl. rewrite <- IH. apply processDirectory_depth; [done|lia..].
Qed.
End Depth.

Lemma tree_depth_enough `{Platform} env this extra dir tot w :
  processDirectory env this (extra + tree_depth (w_fs w)) dir tot w
  = processDirectory env this (tree_depth (w_fs w)) dir tot w.
Proof.
  apply (processDirectory_more_depth env this (pred (tree_depth (w_fs w)))).
  - apply paths_within_tree_depth.
  - unfold tree_depth. simpl. lia.
Qed.

(** ** The [.meta] file of an entry stays clean *)

Section CleanMeta.
Context `{Platform} (env : environment) (this : URLFileSystemCache) (url : string).

Lemma clean_meta_delete q fs :
  clean_meta this url fs → clean_meta this url (delete q fs).
Proof.
  unfold clean_meta. intros [Hn|(sc & hs & t & Hc)].
  - left. rewrite lookup_delete. by case_decide.
  - destruct (decide (q = meta_file this url)) as [->|Hne].
    + left. apply lookup_delete_eq.
    + right. exists sc, hs, t. by rewrite lookup_delete_ne.
Qed.

Lemma clean_meta_other fs fs' :
  fs' !! meta_file this url = fs !! meta_file this url →
  clean_meta this url fs → clean_meta this url fs'.
Proof. unfold clean_meta. by intros ->. Qed.

Local Abbreviation clean := (clean_meta this url).

Lemma keeps_mkdir_recursive d :
  (length d < length (meta_file this url))%nat → keeps clean (mkdir_recursive d).
Proof.
  intros Hlen. apply keeps_bind; [apply keeps_Date_now|]. intros now.
  apply keeps_fs_write. intros fs fs' Hmk. apply clean_meta_other.
  by apply (fs_mkdir_recursive_lookup_long _ _ _ _ _ Hmk).
Qed.

Lemma keeps_writeFile_other q c :
  q ≠ meta_file this url → keeps clean (writeFile q c).
Proof.
  intros Hne. apply keeps_bind; [apply keeps_Date_now|]. intros now.
  apply keeps_fs_write. intros fs fs'. unfold fs_writeFile.
  repeat case_match; try done; intros [= <-];
    apply clean_meta_other; by rewrite lookup_insert_ne.
Qed.

Lemma keeps_writeFile_metadata q statusCode headers :
  keeps clean
    (writeFile q (JSON_stringify (metadata statusCode (filteredHeaders headers)))).
Proof.
  apply keeps_bind; [apply keeps_Date_now|]. intros now.
  apply keeps_fs_write. intros fs fs' Hw Hc.
  assert (fs' = <[q := File (JSON_stringify (metadata statusCode (filteredHeaders headers))) now]> fs) as ->.
  { unfold fs_writeFile in Hw. repeat case_match; try done; by injection Hw as <-. }
  destruct (decide (q = meta_file this url)) as [->|Hne].
  - right. eexists _, _, _. apply lookup_insert_eq.
  - revert Hc. apply clean_meta_other. by rewrite lookup_insert_ne.
Qed.

Lemma data_file_ne_meta_file url' : data_file this url' ≠ meta_file this url.
Proof.
  rewrite data_file_eq, meta_file_eq. unfold path_join. intros E.
  apply app_inj_tail in E as [_ E].
  by apply string_app_inj_suffix in E as [_ ?].
Qed.

Lemma length_shard url' : length (shard this url') = S (length (cachePath this)).
Proof. unfold shard, path_join. rewrite length_app. simpl. lia. Qed.

Lemma keeps_ensureDirExists d :
  (length d < length (meta_file this url))%nat → keeps clean (ensureDirExists env d).
Proof.
  intros Hlen. apply keeps_try_catch; [apply keeps_fs_read|]. intros _.
  apply keeps_try_catch; [by apply keeps_mkdir_recursive|].
  intros; apply keeps_log.
Qed.

Lemma keeps_set url' statusCode headers value :
  keeps clean (set env this url' statusCode headers value).
Proof.
  unfold set. rewrite dirname_filename.
  fold (data_file this url') (meta_file this url').
  apply keeps_bind; [|intros; apply keeps_setTimeout].
  apply keeps_try_catch; [|intros; apply keeps_log].
  apply keeps_bind.
  { apply keeps_ensureDirExists. rewrite length_meta_file, !length_shard. lia. }
  intros _. apply keeps_bind.
  { apply keeps_writeFile_other, data_file_ne_meta_file. }
  intros _. apply keeps_writeFile_metadata.
Qed.

Lemma keeps_startCleanup : keeps clean (startCleanup env this).
Proof.
  apply keeps_try_catch.
  - apply keeps_bind; [apply keeps_fs_read|intros; apply keeps_setTimeout].
  - intros _. apply keeps_try_catch; [|intros; apply keeps_log].
    apply keeps_mkdir_recursive. rewrite length_meta_file, length_shard. lia.
Qed.

Lemma keeps_beforeSend req : keeps clean (beforeSend env this req).
Proof.
  unfold beforeSend. apply keeps_bind; [|intros; apply keeps_ret].
  destruct (_ && _); [|apply keeps_ret].
  apply keeps_bind; [apply keeps_log|]. intros _. apply keeps_set.
Qed.

Lemma step_clean_meta ev w :
  clean (w_fs w) → clean (w_fs (step env this ev w)).
Proof.
  intros Hc. destruct ev; simpl.
  - done.
  - by apply keeps_startCleanup.
  - by apply keeps_set.
  - by apply keeps_get; [apply clean_meta_delete|].
  - by apply keeps_requestReceived; [apply clean_meta_delete|].
  - by apply keeps_beforeSend.
  - by apply keeps_fireTimer; [apply clean_meta_delete|].
Qed.

Lemma run_clean_meta evs w :
  clean (w_fs w) → clean (w_fs (run env this evs w)).
Proof.
  revert w. induction evs as [|ev evs IH]; intros w Hc; simpl; [done|].
  by apply IH, step_clean_meta.
Qed.
End CleanMeta.

(** ** What [get] and the removals do to an entry *)

Section Removal.
Context `{Platform} (env : environment) (this : URLFileSystemCache) (url : string).

Lemma get_expired_Ok w :
  expired this url w →
  can_remove this url w = true →
  get this url w
  = (Ok None, with_fs w (delete (data_file this url)
                           (delete (meta_file this url) (w_fs w)))).
Proof.
  intros (nm & Hm & Hexp). unfold can_remove. rewrite !andb_true_iff.
  intros [[Hfd Hfm] Hw].
  assert (∃ nd, w_fs w !! data_file this url = Some nd) as [nd Hd].
  { unfold is_file in Hfd. destruct (w_fs w !! data_file this url); [eauto|done]. }
  rewrite (get_expired this url w nd nm Hd Hm Hexp).
  pose proof (data_meta_ne this url) as Hne.
  pose proof (meta_file_ne_shard this url) as Hms.
  rewrite (bind_Ok _ _ _ () (with_fs w (delete (meta_file this url) (w_fs w)))).
  2:{ apply unlink_Ok; [done|]. by rewrite dirname_meta_file. }
  rewrite (bind_Ok _ _ _ () (with_fs w (delete (data_file this url)
                               (delete (meta_file this url) (w_fs w))))); [done|].
  rewrite unlink_Ok; simpl; [done| |].
  - unfold is_file in *. by rewrite lookup_delete_ne.
  - rewrite dirname_data_file. unfold dir_writable in *. by rewrite lookup_delete_ne.
Qed.

Lemma get_Some_inv w r :
  (get this url w).1 = Ok (Some r) →
  ∃ nd nm, w_fs w !! data_file this url = Some nd
           ∧ w_fs w !! meta_file this url = Some nm
           ∧ decode_entry nd nm = Some r.
Proof.
  destruct (w_fs w !! data_file this url) as [nd|] eqn:Hd;
    [|by rewrite get_absent by auto].
  destruct (w_fs w !! meta_file this url) as [nm|] eqn:Hm;
    [|by rewrite get_absent by auto].
  destruct (decide (ttl this * 1000 ≤ w_now w - node_mtime nm)) as [Hexp|Hexp].
  - rewrite (get_expired this url w nd nm Hd Hm Hexp). mrun.
    destruct (fs_unlink (meta_file this url) (w_fs w)); [done|]. simpl.
    by destruct (fs_unlink (data_file this url) _).
  - rewrite (get_unexpired this url w nd nm Hd Hm) by lia.
    intros [= E]. eauto.
Qed.

(** The [unlink] of the expiry path of [get] is not in a [try]. *)
Lemma get_expired_unlink_fails w nd e :
  expired this url w →
  w_fs w !! data_file this url = Some nd →
  fs_unlink (meta_file this url) (w_fs w) = inl e →
  get this url w = (Throw e, w).
Proof.
  intros (nm & Hm & Hexp) Hd Hun.
  rewrite (get_expired this url w nd nm Hd Hm Hexp).
  apply bind_Throw. unfold unlink, fs_write. by rewrite Hun.
Qed.

(** The two [unlink]s of [removeExpiredCacheUrl] go through, and what
    [removeDirectoryIfEmpty] does after them leaves the files gone. *)
Lemma removeExpiredCacheUrl_removes w :
  can_remove this url w = true →
  w_fs (removeExpiredCacheUrl env this url w).2 !! data_file this url = None
  ∧ w_fs (removeExpiredCacheUrl env this url w).2 !! meta_file this url = None.
Proof.
  unfold can_remove. rewrite !andb_true_iff. intros [[Hfd Hfm] Hw].
  pose proof (data_meta_ne this url) as Hne.
  pose proof (data_file_ne_shard this url) as Hds.
  pose proof (meta_file_ne_shard this url) as Hms.
  unfold removeExpiredCacheUrl.
  fold (data_file this url) (meta_file this url). rewrite dirname_filename.
  set (fs2 := delete (meta_file this url) (delete (data_file this url) (w_fs w))).
  assert (Hun : (unlink (data_file this url);; unlink (meta_file this url);;
                 removeDirectoryIfEmpty (shard this url)) w
                = removeDirectoryIfEmpty (shard this url) (with_fs w fs2)).
  { rewrite (bind_Ok _ _ _ () (with_fs w (delete (data_file this url) (w_fs w)))).
    2:{ apply unlink_Ok; [done|]. by rewrite dirname_data_file. }
    rewrite (bind_Ok _ _ _ () (with_fs w fs2)); [done|].
    rewrite unlink_Ok; simpl; [done| |].
    - unfold is_file in *. by rewrite lookup_delete_ne.
    - rewrite dirname_meta_file. unfold dir_writable in *.
      by rewrite lookup_delete_ne. }
  unfold try_catch. rewrite Hun.
  destruct (removeDirectoryIfEmpty_Ok (shard this url) (with_fs w fs2)) as [-> | ->];
    simpl; subst fs2.
  - split; [rewrite lookup_delete_ne by done|]; apply lookup_delete_eq.
  - split; rewrite lookup_delete_ne by done;
      [rewrite lookup_delete_ne by done|]; apply lookup_delete_eq.
Qed.

(** [removeExpiredCacheFile] removes the file it is given and leaves the
    other files of the directory. *)
Lemma removeExpiredCacheFile_one filename other w :
  is_file (w_fs w) filename = true →
  dir_writable (w_fs w) (path_dirname filename) = true →
  other ≠ filename →
  other ≠ path_dirname filename →
  w_fs (removeExpiredCacheFile env filename w).2 !! filename = None
  ∧ w_fs (removeExpiredCacheFile env filename w).2 !! other = w_fs w !! other.
Proof.
  intros Hf Hw Hne Hnd. unfold removeExpiredCacheFile.
  assert (Hun : (unlink filename;; removeDirectoryIfEmpty (path_dirname filename)) w
                = removeDirectoryIfEmpty (path_dirname filename)
                    (with_fs w (delete filename (w_fs w)))).
  { by rewrite (bind_Ok _ _ _ () (with_fs w (delete filename (w_fs w))))
      by by apply unlink_Ok. }
  unfold try_catch. rewrite Hun.
  assert (Hfd : filename ≠ path_dirname filename).
  { intros E. unfold is_file, dir_writable in *. rewrite <- E in Hw.
    by destruct (w_fs w !! filename) as [[|]|]. }
  destruct (removeDirectoryIfEmpty_Ok (path_dirname filename)
              (with_fs w (delete filename (w_fs w)))) as [-> | ->]; simpl.
  - split; [apply lookup_delete_eq|by rewrite lookup_delete_ne].
  - split; [rewrite lookup_delete_ne by done; apply lookup_delete_eq|].
    by rewrite !lookup_delete_ne.
Qed.

Lemma filteredHeaders_lookup headers key :
  filteredHeaders headers !! key
  = if decide (toLowerCase key ∈ nonCacheableHeaders) then None else headers !! key.
Proof.
  unfold filteredHeaders. case_decide as Hk.
  - apply map_lookup_filter_None. right. intros v _ Hn. by apply Hn.
  - destruct (headers !! key) as [v|] eqn:E.
    + by apply map_lookup_filter_Some.
    + apply map_lookup_filter_None. by left.
Qed.

Lemma metadata_headers statusCode headers :
  json_property (metadata statusCode headers) "headers"
  = Some (JObj (JStr <$> headers)).
Proof.
  unfold metadata, json_property. by rewrite lookup_insert_ne, lookup_insert_eq.
Qed.
End Removal.
(** ** The platform keeps its laws *)

Lemma string_app_assoc (s1 s2 s3 : string) : (s1 +:+ s2) +:+ s3 = s1 +:+ (s2 +:+ s3).
Proof.
  induction s1 as [|a s1 IH]; [done|].
  rewrite !string_app_cons. by rewrite IH.
Qed.

Lemma after_app (word s : string) : after word (word +:+ s) = Some s.
Proof.
  induction word as [|a word IH]; [done|].
  rewrite string_app_cons. simpl. by rewrite Ascii.eqb_refl.
Qed.

Module JSONFacts.
Import JSON.

Ltac compute_escape :=
  match goal with
  | |- context [escape ?a] =>
      let e := eval vm_compute in (escape a) in change (escape a) with e
  end.

Lemma unquoted_quoted_body s rest :
  unquoted (quoted_body s +:+ String quote rest) = Some (s, rest).
Proof.
  induction s as [|a s IH].
  - reflexivity.
  - change (quoted_body (String a s)) with (escape a +:+ quoted_body s).
    rewrite string_app_assoc. revert IH.
    generalize (quoted_body s +:+ String quote rest). intros X IH.
    destruct a as [[] [] [] [] [] [] [] []]; compute_escape;
      rewrite ?string_app_cons, ?string_app_nil; simpl; rewrite IH; reflexivity.
Qed.

Lemma leading_digits_digits d rest :
  leading_digits rest = (Decimal.Nil, rest) →
  leading_digits (digits d +:+ rest) = (d, rest).
Proof.
  intros Hrest. induction d; simpl digits;
    rewrite ?string_app_cons, ?string_app_nil; [done|..];
    simpl; by rewrite IHd.
Qed.

Lemma to_uint_canonical n :
  Decimal.uint_beq (N.to_uint n) Decimal.Nil = false
  ∧ Decimal.uint_beq (N.to_uint (N.of_uint (N.to_uint n))) (N.to_uint n) = true.
Proof.
  split.
  - destruct (Decimal.uint_beq _ _) eqn:E; [|done].
    apply Decimal.internal_uint_dec_bl in E.
    destruct n as [|p]; [done|]. simpl in E.
    by apply DecimalPos.Unsigned.to_uint_nonnil in E.
  - rewrite DecimalN.Unsigned.of_to. by apply Decimal.internal_uint_dec_lb.
Qed.

Lemma unsigned_digits n rest :
  ends_number rest →
  unsigned (digits (N.to_uint n) +:+ rest) = Some (n, rest).
Proof.
  intros [Hd Hf]. unfold unsigned. rewrite leading_digits_digits by done.
  destruct (to_uint_canonical n) as [-> ->]. simpl.
  by rewrite Hf, DecimalN.Unsigned.of_to.
Qed.

Lemma negative_minus s : negative (String "-" s) = Some s.
Proof. reflexivity. Qed.

Lemma read_number_number n rest :
  ends_number rest →
  read_number (number n +:+ rest) = Some (JNum n, rest).
Proof.
  intros Hrest. unfold read_number, number. destruct n as [|p|p]; cbv iota.
  - change (negative _) with (@None string). by rewrite unsigned_digits.
  - assert (negative (digits (N.to_uint (Z.to_N (Z.pos p))) +:+ rest) = None) as ->.
    { pose proof (proj1 (to_uint_canonical (Z.to_N (Z.pos p)))) as Hnn.
      destruct (N.to_uint _); simpl digits;
        rewrite ?string_app_cons, ?string_app_nil; done. }
    by rewrite unsigned_digits.
  - rewrite string_app_cons, negative_minus. by rewrite unsigned_digits.
Qed.

Lemma read_value_number_start fuel c s :
  number_start c = true →
  read (S fuel) AValue (String c s) = read_number (String c s).
Proof.
  destruct c as [[] [] [] [] [] [] [] []]; intros Hc; try discriminate Hc;
    reflexivity.
Qed.

Lemma number_starts n rest :
  ∃ c s, number n +:+ rest = String c s ∧ number_start c = true.
Proof.
  destruct n as [|p|p]; [by eexists _, _| |by eexists _, _].
  unfold number. pose proof (proj1 (to_uint_canonical (Z.to_N (Z.pos p)))) as Hnn.
  destruct (N.to_uint _); [done|..]; by eexists _, _.
Qed.

Lemma read_value_number fuel n rest :
  ends_number rest →
  read (S fuel) AValue (number n +:+ rest) = Some (JNum n, rest).
Proof.
  intros Hrest. destruct (number_starts n rest) as (c & s & E & Hc).
  rewrite <- (read_number_number n rest Hrest), E.
  by apply read_value_number_start.
Qed.

Lemma quoted_app s rest :
  quoted s +:+ rest = String quote (quoted_body s +:+ String quote rest).
Proof.
  unfold quoted. by rewrite string_app_cons, string_app_assoc, string_app_cons.
Qed.

Lemma read_value_string fuel s rest :
  read (S fuel) AValue (quoted s +:+ rest) = Some (JStr s, rest).
Proof.
  rewrite quoted_app.
  change (read (S fuel) AValue (String quote ?x))
    with (match unquoted x with
          | Some (str, rest') => Some (JStr str, rest')
          | None => None
          end).
  by rewrite unquoted_quoted_body.
Qed.

(** One member of an object, from its key to the comma or brace after
    its value. *)
Lemma read_member fuel acc key s :
  read (S fuel) (Members acc) (quoted key +:+ String ":" s)
  = match read fuel AValue s with
    | Some (value, rest) =>
        match skip_whitespace rest with
        | String "," rest => read fuel (Members (<[key := value]> acc)) rest
        | String "}" rest => Some (JObj (<[key := value]> acc), rest)
        | _ => None
        end
    | None => None
    end.
Proof.
  rewrite quoted_app.
  change (read (S fuel) (Members acc) (String quote ?x))
    with (match unquoted x with
          | Some (key, rest) =>
              match skip_whitespace rest with
              | String ":" rest =>
                  match read fuel AValue rest with
                  | Some (value, rest) =>
                      match skip_whitespace rest with
                      | String "," rest =>
                          read fuel (Members (<[key := value]> acc)) rest
                      | String "}" rest =>
                          Some (JObj (<[key := value]> acc), rest)
                      | _ => None
                      end
                  | None => None
                  end
              | _ => None
              end
          | None => None
          end).
  by rewrite unquoted_quoted_body.
Qed.

Lemma string_value_quoted s : string_value (quoted s) = JStr s.
Proof. unfold quoted, string_value. by rewrite unquoted_quoted_body. Qed.

Lemma add_member_quoted acc key s :
  add_member acc (key, quoted s) = <[key := JStr s]> acc.
Proof. unfold add_member. cbn [fst snd]. by rewrite string_value_quoted. Qed.

Lemma separated_cons item items :
  items ≠ [] →
  separated (item :: items) = item +:+ String "," (separated items).
Proof. by destruct items. Qed.

(** The members of an object whose values are strings. *)
Lemma read_string_members l acc fuel rest :
  l ≠ [] →
  Forall (λ kt : string * string, ∃ s, kt.2 = quoted s) l →
  (length l < fuel)%nat →
  read fuel (Members acc) (separated (member <$> l) +:+ String "}" rest)
  = Some (JObj (foldl add_member acc l), rest).
Proof.
  intros Hne Hl. revert acc fuel.
  induction Hl as [|[key text] l [s Hs] Hl IH]; [done|].
  intros acc fuel Hfuel. simpl in Hs, Hfuel. subst text.
  destruct fuel as [|[|fuel]]; [lia..|].
  destruct l as [|kt l].
  - change (separated (member <$> [(key, quoted s)]))
      with (quoted key +:+ String ":" (quoted s)).
    rewrite !string_app_assoc, string_app_cons, read_member.
    rewrite read_value_string.
    change (skip_whitespace (String "}" rest)) with (String "}" rest). cbv iota.
    by rewrite <- add_member_quoted.
  - rewrite fmap_cons, separated_cons by done.
    change (member (key, quoted s)) with (quoted key +:+ String ":" (quoted s)).
    rewrite !string_app_assoc, !string_app_cons, read_member.
    rewrite read_value_string.
    change (skip_whitespace (String "," ?x)) with (String "," x). cbv iota.
    rewrite IH; [|done|simpl in *; lia].
    by rewrite <- add_member_quoted.
Qed.

Lemma foldl_add_member_lookup l acc key :
  NoDup l.*1 →
  foldl add_member acc l !! key
  = match (list_to_map l : gmap string string) !! key with
    | Some text => Some (string_value text)
    | None => acc !! key
    end.
Proof.
  revert acc. induction l as [|[k text] l IH]; intros acc Hnd; [done|].
  simpl in *. apply NoDup_cons in Hnd as [Hk Hnd].
  rewrite IH by done. unfold add_member. simpl.
  destruct (decide (k = key)) as [->|Hne].
  - rewrite lookup_insert_eq.
    by rewrite (not_elem_of_list_to_map_1 _ _ Hk), lookup_insert_eq.
  - rewrite !lookup_insert_ne by done. done.
Qed.

Lemma foldl_add_member_map_to_list (m : gmap string string) :
  foldl add_member ∅ (map_to_list m) = string_value <$> m.
Proof.
  apply map_eq. intros key.
  rewrite foldl_add_member_lookup by apply NoDup_fst_map_to_list.
  rewrite list_to_map_to_list, lookup_fmap.
  by destruct (m !! key).
Qed.

(** The object of the headers. *)
Lemma read_headers fuel (headers : gmap string string) rest :
  (S (size headers) < fuel)%nat →
  read fuel AValue (stringify (JObj (JStr <$> headers)) +:+ rest)
  = Some (JObj (JStr <$> headers), rest).
Proof.
  intros Hfuel. destruct fuel as [|fuel]; [lia|].
  cbn [stringify]. rewrite <- map_fmap_compose.
  change (stringify ∘ JStr) with quoted.
  set (texts := quoted <$> headers).
  assert (Htexts : string_value <$> texts = JStr <$> headers).
  { subst texts. rewrite <- map_fmap_compose. apply map_fmap_ext.
    intros key s _. apply string_value_quoted. }
  assert (Hall : Forall (λ kt : string * string, ∃ s, kt.2 = quoted s)
                   (map_to_list texts)).
  { apply Forall_forall. intros [key text] Hin.
    apply elem_of_map_to_list in Hin. subst texts.
    apply lookup_fmap_Some in Hin as (s & <- & _). by exists s. }
  assert (Hlen : length (map_to_list texts) = size headers).
  { rewrite length_map_to_list. subst texts. apply map_size_fmap. }
  rewrite string_app_cons, string_app_assoc.
  change ("}" +:+ rest) with (String "}" rest).
  destruct (map_to_list texts) as [|kt l] eqn:El.
  - apply map_to_list_empty_iff in El.
    rewrite <- Htexts, El, fmap_empty. reflexivity.
  - assert (∃ x, separated (member <$> kt :: l) +:+ String "}" rest
                 = String quote x) as [x Ex].
    { destruct l; simpl; unfold member; rewrite quoted_app;
        rewrite ?string_app_cons; by eexists. }
    change (read (S fuel) AValue (String "{" ?s))
      with (match skip_whitespace s with
            | String "}" rest' => Some (JObj ∅, rest')
            | _ => read fuel (Members ∅) s
            end).
    rewrite Ex. change (skip_whitespace (String quote x)) with (String quote x).
    cbv iota beta. rewrite <- Ex.
    rewrite read_string_members; [|done|done|rewrite Hlen; lia].
    by rewrite <- El, foldl_add_member_map_to_list, Htexts.
Qed.

Lemma length_separated items :
  (length items ≤ S (String.length (separated items)))%nat.
Proof.
  induction items as [|item [|item' items] IH]; [simpl; lia..|].
  rewrite separated_cons by done.
  revert IH. generalize (separated (item' :: items)). intros rest IH.
  rewrite string_app_length. simpl in *. lia.
Qed.

Lemma length_stringify_headers (headers : gmap string string) :
  (size headers ≤ String.length (stringify (JObj (JStr <$> headers))))%nat.
Proof.
  cbn [stringify]. simpl String.length. rewrite string_app_length.
  pose proof (length_separated
                (member <$> map_to_list (stringify <$> (JStr <$> headers)))) as Hl.
  rewrite length_fmap, length_map_to_list, !map_size_fmap in Hl. lia.
Qed.

Lemma map_to_list_metadata (num text : string) :
  map_to_list (<["statusCode" := num]> (<["headers" := text]> (∅ : gmap string string)))
  = [("statusCode", num); ("headers", text)].
Proof. reflexivity. Qed.

Lemma stringify_metadata statusCode headers :
  stringify (metadata statusCode headers)
  = String "{"
      (quoted "statusCode" +:+ String ":"
         (number statusCode +:+ String ","
            (quoted "headers" +:+ String ":"
               (stringify (JObj (JStr <$> headers)) +:+ String "}" EmptyString)))).
Proof.
  unfold metadata. cbn [stringify].
  rewrite !fmap_insert, fmap_empty, map_to_list_metadata.
  cbn [fmap list_fmap separated]. unfold member at 1 2. cbn [fst snd stringify].
  by repeat (progress rewrite ?string_app_assoc, ?string_app_cons).
Qed.

Lemma parse_stringify_metadata statusCode headers :
  parse (stringify (metadata statusCode headers))
  = Some (metadata statusCode headers).
Proof.
  unfold parse.
  assert (Hlen : (size headers + 4 ≤ String.length (stringify (metadata statusCode headers)))%nat).
  { rewrite stringify_metadata.
    pose proof (length_stringify_headers headers) as Hh. revert Hh.
    generalize (stringify (JObj (JStr <$> headers))). intros inner Hh.
    repeat (progress (rewrite ?string_app_length; simpl String.length)). lia. }
  destruct (String.length _) as [|[|[|fuel]]]; [lia..|].
  rewrite stringify_metadata.
  change (read (S (S (S (S fuel)))) AValue (String "{" (quoted ?k +:+ ?s)))
    with (read (S (S (S fuel))) (Members ∅) (quoted k +:+ s)).
  rewrite read_member. rewrite read_value_number by (by split).
  change (skip_whitespace (String "," ?x)) with (String "," x). cbv iota.
  rewrite read_member, read_headers by lia.
  change (skip_whitespace (String "}" ?x)) with (String "}" x). cbv iota.
  change (skip_whitespace EmptyString) with EmptyString. cbv iota.
  unfold metadata. by rewrite insert_insert_ne.
Qed.
End JSONFacts.

Lemma gunzip_gzip b : Stored.gunzip (Stored.gzip b) = Some b.
Proof. apply after_app. Qed.

Global Instance reference_laws : @PlatformLaws reference.
Proof.
  split.
  - apply gunzip_gzip.
  - apply JSONFacts.parse_stringify_metadata.
Qed.

(** * The claims of the specification *)

Section Claims.
Context `{PlatformLaws} (env : environment) (this : URLFileSystemCache).

(** C1.  Round trip: for every URL, status code (200 in particular),
    headers map and body, [set] followed by [get] while the entry is
    unexpired (at once, or any time before the TTL has passed) returns the
    status code, the headers without the Non-Cacheable Headers (a header is
    there, with its value, exactly when its lower-cased name is not in the
    deny-list), and the body, byte for byte, provided the filesystem lets
    [set] write the entry. *)
Theorem set_get_roundtrip url statusCode headers value w ms :
  can_store this url w = true →
  0 ≤ ms < ttl this * 1000 →
  let w1 := elapse ms (set env this url statusCode headers value w).2 in
  get this url w1
  = (Ok (Some {| spread_metadata := metadata statusCode (filteredHeaders headers);
                 content := value |}), w1)
  ∧ ∀ key, filteredHeaders headers !! key
           = if decide (toLowerCase key ∈ nonCacheableHeaders) then None
             else headers !! key.
Proof.
  intros Hstore Hms w1. split; [|apply filteredHeaders_lookup].
  destruct (set_stores env this url statusCode headers value w Hstore)
    as (fs' & Hset & Hd & Hm & _).
  subst w1. rewrite Hset. simpl.
  erewrite get_unexpired; [|exact Hd|exact Hm|simpl; lia].
  simpl. by rewrite zlib_gunzip_gzip, JSON_parse_stringify.
Qed.

(** Expiry: when the [.meta] file of an entry is TTL seconds old or more,
    [get] never returns the entry; and where both files are there and can be
    removed, it returns Miss and has removed both. *)
Theorem get_expired_removes url w :
  expired this url w →
  (∀ r, (get this url w).1 ≠ Ok (Some r))
  ∧ (can_remove this url w = true →
     get this url w
     = (Ok None, with_fs w (delete (data_file this url)
                              (delete (meta_file this url) (w_fs w))))
     ∧ w_fs (get this url w).2 !! data_file this url = None
     ∧ w_fs (get this url w).2 !! meta_file this url = None).
Proof.
  intros Hexpired. split.
  - destruct Hexpired as (nm & Hm & Hexp). intros r.
    destruct (w_fs w !! data_file this url) as [nd|] eqn:Hd.
    + rewrite (get_expired this url w nd nm Hd Hm Hexp).
      mrun. destruct (fs_unlink _ _); [done|]. simpl.
      by destruct (fs_unlink _ _).
    + by rewrite get_absent by auto.
  - intros Hremove. rewrite get_expired_Ok by done. simpl.
    pose proof (data_meta_ne this url) as Hne.
    split_and!; [done|apply lookup_delete_eq|].
    rewrite lookup_delete_ne by done. apply lookup_delete_eq.
Qed.

(** C3.  Header filtering: [set] persists metadata from which every header
    whose lower-cased name is in the deny-list has been dropped; and once it
    has stored an entry, whatever the process does next (calls of [set] and
    [get] for any URL, the two hooks on any request, timers, a restart and
    its sweep, time passing), the headers of a [get] result for that URL hold
    no such name. *)
Theorem non_cacheable_headers_never_returned url statusCode headers value w :
  can_store this url w = true →
  (w_fs (set env this url statusCode headers value w).2 !! meta_file this url
   = Some (File (JSON_stringify (metadata statusCode (filteredHeaders headers)))
             (w_now w))
   ∧ ∀ key, toLowerCase key ∈ nonCacheableHeaders →
            filteredHeaders headers !! key = None)
  ∧ ∀ evs r,
      (get this url
         (run env this evs (set env this url statusCode headers value w).2)).1
      = Ok (Some r) →
      ∃ stored : gmap string string,
        cachedResponse_headers r = Some (JObj (JStr <$> stored))
        ∧ ∀ key, toLowerCase key ∈ nonCacheableHeaders → stored !! key = None.
Proof.
  intros Hstore.
  destruct (set_stores env this url statusCode headers value w Hstore)
    as (fs' & Hset & _ & Hm & _).
  assert (Hdropped : ∀ hs key, toLowerCase key ∈ nonCacheableHeaders →
                               filteredHeaders hs !! key = None).
  { intros hs key Hk. rewrite filteredHeaders_lookup.
    case_decide; [reflexivity|contradiction]. }
  rewrite Hset. simpl. split; [by split; [|apply Hdropped]|].
  intros evs r Hget.
  apply get_Some_inv in Hget as (nd & nm & Hd' & Hm' & Hdec).
  assert (Hc : clean_meta this url
                 (w_fs (run env this evs
                          (with_timers (with_fs w fs')
                             (w_timers w
                              ++ [{| timer_due := w_now w + timer_delay (ttl this * 1000);
                                     timer_callback := TRemoveExpiredCacheUrl url |}]))))).
  { apply run_clean_meta. right. by eexists _, _, _. }
  destruct Hc as [Hc|(sc & hs & t & Hc)]; rewrite Hm' in Hc; [done|].
  injection Hc as ->. exists (filteredHeaders hs). split; [|apply Hdropped].
  unfold decode_entry in Hdec. destruct nd as [cd td|]; [|done].
  rewrite JSON_parse_stringify in Hdec.
  destruct (zlib_gunzip cd); [|done]. injection Hdec as <-.
  apply metadata_headers.
Qed.

(** C5.  [get] returns Miss, and leaves the world as it is, when either
    file is absent, and when the body does not decompress or the metadata
    does not parse; whatever the state, what [get] throws is never a decoding
    error. *)
Theorem get_miss_never_decode_error url w :
  (w_fs w !! data_file this url = None ∨ w_fs w !! meta_file this url = None →
   get this url w = (Ok None, w))
  ∧ (∀ compressedContent t text t',
       w_fs w !! data_file this url = Some (File compressedContent t) →
       w_fs w !! meta_file this url = Some (File text t') →
       w_now w - t' < ttl this * 1000 →
       zlib_gunzip compressedContent = None ∨ JSON_parse text = None →
       get this url w = (Ok None, w))
  ∧ (∀ e, (get this url w).1 = Throw e → e ≠ Z_DATA_ERROR ∧ e ≠ SyntaxError).
Proof.
  split_and!.
  - apply get_absent.
  - intros cd t cm t' Hd Hm Ht Hbad.
    rewrite (get_unexpired this url w _ _ Hd Hm) by done. simpl.
    destruct Hbad as [-> | ->]; [done|]. by destruct (zlib_gunzip cd).
  - intros e.
    destruct (w_fs w !! data_file this url) as [nd|] eqn:Hd;
      [|by rewrite get_absent by auto].
    destruct (w_fs w !! meta_file this url) as [nm|] eqn:Hm;
      [|by rewrite get_absent by auto].
    destruct (decide (ttl this * 1000 ≤ w_now w - node_mtime nm)) as [Hexp|Hexp].
    + rewrite (get_expired this url w nd nm Hd Hm Hexp).
      mrun.
      destruct (fs_unlink (meta_file this url) (w_fs w)) as [e1|fs1] eqn:E1; simpl.
      { intros [= <-]. eapply fs_unlink_error, E1. }
      destruct (fs_unlink (data_file this url) fs1) as [e2|fs2] eqn:E2; simpl; [|done].
      intros [= <-]. eapply fs_unlink_error, E2.
    + by rewrite (get_unexpired this url w nd nm Hd Hm) by lia.
Qed.

(** C7, as the code has it.  [set] writes both files of an entry in one
    call; the expiry path of [get] and [removeExpiredCacheUrl] (the per-write
    deletion) remove both in one call; the sweep and the timers it sets call
    [removeExpiredCacheFile], which removes the one file it is given and
    leaves the other.  (Where the filesystem lets the entry be written,
    respectively removed.) *)
Theorem pair_written_together_removed_per_call url statusCode headers value w :
  (can_store this url w = true →
   is_file (w_fs (set env this url statusCode headers value w).2) (data_file this url)
   = true
   ∧ is_file (w_fs (set env this url statusCode headers value w).2) (meta_file this url)
     = true)
  ∧ (can_remove this url w = true →
     (expired this url w →
      is_file (w_fs (get this url w).2) (data_file this url) = false
      ∧ is_file (w_fs (get this url w).2) (meta_file this url) = false)
     ∧ (is_file (w_fs (removeExpiredCacheUrl env this url w).2) (data_file this url)
        = false
        ∧ is_file (w_fs (removeExpiredCacheUrl env this url w).2) (meta_file this url)
          = false)
     ∧ (is_file (w_fs (removeExpiredCacheFile env (data_file this url) w).2)
          (data_file this url) = false
        ∧ is_file (w_fs (removeExpiredCacheFile env (data_file this url) w).2)
            (meta_file this url) = true)
     ∧ (is_file (w_fs (removeExpiredCacheFile env (meta_file this url) w).2)
          (meta_file this url) = false
        ∧ is_file (w_fs (removeExpiredCacheFile env (meta_file this url) w).2)
            (data_file this url) = true)).
Proof.
  pose proof (data_meta_ne this url) as Hne.
  split.
  - intros Hstore.
    destruct (set_stores env this url statusCode headers value w Hstore)
      as (fs' & -> & Hd & Hm & _).
    unfold is_file. simpl. by rewrite Hd, Hm.
  - intros Hremove. split; [|split; [|split]].
    + intros Hexpired. rewrite get_expired_Ok by done. unfold is_file. simpl.
      rewrite lookup_delete_eq, lookup_delete_ne, lookup_delete_eq by done. done.
    + destruct (removeExpiredCacheUrl_removes env this url w Hremove) as [Hd Hm].
      unfold is_file. by rewrite Hd, Hm.
    + revert Hremove. unfold can_remove. rewrite !andb_true_iff.
      intros [[Hfd Hfm] Hw].
      destruct (removeExpiredCacheFile_one env (data_file this url)
                  (meta_file this url) w) as [Hd Hm];
        [done|by rewrite dirname_data_file|done| |].
      { rewrite dirname_data_file. apply meta_file_ne_shard. }
      unfold is_file in *. by rewrite Hd, Hm.
    + revert Hremove. unfold can_remove. rewrite !andb_true_iff.
      intros [[Hfd Hfm] Hw].
      destruct (removeExpiredCacheFile_one env (meta_file this url)
                  (data_file this url) w) as [Hm Hd];
        [done|by rewrite dirname_meta_file|done| |].
      { rewrite dirname_meta_file. apply data_file_ne_shard. }
      unfold is_file in *. by rewrite Hd, Hm.
Qed.

(** C8, as the code has it.  The metadata [set] persists holds the header
    names as they were given: a name is kept, in the case it came in, exactly
    when its lower-cased form is not in the deny-list; lower-casing serves
    the test alone. *)
Theorem stored_header_names_as_given url statusCode headers value w :
  can_store this url w = true →
  ∃ t,
    w_fs (set env this url statusCode headers value w).2 !! meta_file this url
    = Some (File (JSON_stringify (metadata statusCode (filteredHeaders headers))) t)
    ∧ ∀ key, filteredHeaders headers !! key
             = if decide (toLowerCase key ∈ nonCacheableHeaders) then None
               else headers !! key.
Proof.
  intros Hstore.
  destruct (set_stores env this url statusCode headers value w Hstore)
    as (fs' & Hset & _ & Hm & _).
  exists (w_now w). rewrite Hset. simpl. split; [done|].
  apply filteredHeaders_lookup.
Qed.

(** C10.  Idempotence of the expiry removal: called a second time,
    [removeExpiredCacheUrl] does not throw; where the first call could remove
    the two files, they are gone, and the second call finds them absent,
    swallows that and leaves the filesystem as it is. *)
Theorem removeExpiredCacheUrl_twice url w :
  let w1 := (removeExpiredCacheUrl env this url w).2 in
  (removeExpiredCacheUrl env this url w1).1 = Ok ()
  ∧ (can_remove this url w = true →
     w_fs w1 !! data_file this url = None
     ∧ w_fs w1 !! meta_file this url = None
     ∧ w_fs (removeExpiredCacheUrl env this url w1).2 = w_fs w1).
Proof.
  intros w1. split.
  - apply removeExpiredCacheUrl_Ok.
  - intros Hremove.
    destruct (removeExpiredCacheUrl_removes env this url w Hremove) as [Hd Hm].
    fold w1 in Hd, Hm. split_and!; [done..|].
    unfold removeExpiredCacheUrl. fold (data_file this url).
    rewrite (try_catch_Throw _ _ _ ENOENT w1).
    + apply log_fs.
    + apply bind_Throw. unfold unlink. mrun. unfold fs_unlink. by rewrite Hd.
Qed.
End Claims.

Section HookClaims.
Context `{PlatformLaws} (env : environment) (cache : URLFileSystemCache).

(** C4.  [beforeSend] touches the Store only for a GET request whose
    response has a status code of the allow-list and was not served from
    cache: otherwise it leaves the world as it is and calls [next]; for such
    a request it has called [set], which shows in the removal timer [set]
    always schedules.  The default allow-list is 200, 301, 302, 303, 304,
    307, 308, 404; with it, a response with status 500 is not stored. *)
Theorem beforeSend_stores_only_eligible req w :
  (beforeSend env cache req w ≠ (Ok Next, w) →
   method req = "GET"
   ∧ statusCode (request_prerender req) ∈ CACHE_STATUS_CODES env
   ∧ fromCache req = false)
  ∧ (eligible env req →
     w_timers (beforeSend env cache req w).2
     = w_timers w
       ++ [{| timer_due := w_now w + timer_delay (ttl cache * 1000);
              timer_callback := TRemoveExpiredCacheUrl (url (request_prerender req)) |}])
  ∧ CACHE_STATUS_CODES default_environment = [200; 301; 302; 303; 304; 307; 308; 404]
  ∧ (statusCode (request_prerender req) = 500 →
     beforeSend default_environment cache req w = (Ok Next, w)).
Proof.
  split_and!.
  - intros Hne. destruct (decide (eligible env req)) as [|Hn]; [done|].
    by rewrite beforeSend_ineligible in Hne.
  - intros Hel. rewrite beforeSend_eligible by done.
    unfold mbind at 1, M_bind at 1.
    pose proof (log_timers env (LogCaching (url (request_prerender req))
      (filenameForUrl cache (url (request_prerender req)))) w) as Ht.
    pose proof (log_now env (LogCaching (url (request_prerender req))
      (filenameForUrl cache (url (request_prerender req)))) w) as Hn.
    destruct (log env _ w) as [[[]|e] w1] eqn:E.
    + simpl in Ht, Hn. rewrite <- Ht, <- Hn.
      pose proof (set_timers env cache (url (request_prerender req))
                    (statusCode (request_prerender req))
                    (default ∅ (headers (request_prerender req)))
                    (default EmptyString (prerender_content (request_prerender req)))
                    w1) as Hs.
      unfold mbind, M_bind.
      by destruct (set env cache _ _ _ _ w1) as [[[]|e] w2].
    + by destruct (log_Ok env (LogCaching (url (request_prerender req))
        (filenameForUrl cache (url (request_prerender req)))) w) as [lines El];
        rewrite El in E.
  - done.
  - intros H500. apply beforeSend_ineligible.
    unfold eligible. rewrite H500. intros (_ & Hin & _). simpl in Hin.
    rewrite !elem_of_cons, elem_of_nil in Hin. by intuition.
Qed.

(** C9.  For a GET request whose [cache-control] header is [no-cache],
    [requestReceived] calls [next] and leaves the world and the request as
    they are, whatever the cache holds; and [beforeSend] afterwards stores the
    response as for any other request: if it is eligible and the filesystem
    lets [set] write, a [get] then returns it. *)
Theorem no_cache_skips_lookup_not_storage req w :
  method req = "GET" →
  request_headers req !! "cache-control" = Some "no-cache" →
  requestReceived env cache req w = (Ok (req, Next), w)
  ∧ (statusCode (request_prerender req) ∈ CACHE_STATUS_CODES env →
     fromCache req = false →
     can_store cache (url (request_prerender req)) w = true →
     0 < ttl cache →
     let w1 := (beforeSend env cache req w).2 in
     get cache (url (request_prerender req)) w1
     = (Ok (Some {| spread_metadata :=
                      metadata (statusCode (request_prerender req))
                        (filteredHeaders (default ∅ (headers (request_prerender req))));
                    content := default EmptyString
                                 (prerender_content (request_prerender req)) |}),
        w1)).
Proof.
  intros Hm Hnc. split.
  - unfold requestReceived. rewrite Hm. simpl. by case_decide.
  - intros Hs Hf Hstore Httl w1. subst w1.
    rewrite beforeSend_eligible by done.
    set (line := LogCaching _ _).
    destruct (log_Ok env line w) as [lines Hlog].
    rewrite (bind_Ok _ _ _ _ _ Hlog), bind_mret_snd.
    destruct (set_stores env cache (url (request_prerender req))
                (statusCode (request_prerender req))
                (default ∅ (headers (request_prerender req)))
                (default EmptyString (prerender_content (request_prerender req)))
                (with_log w lines) Hstore)
      as (fs' & -> & Hd & Hmeta & _).
    simpl. erewrite get_unexpired; [|exact Hd|exact Hmeta|simpl; lia].
    simpl. by rewrite zlib_gunzip_gzip, JSON_parse_stringify.
Qed.
End HookClaims.

(** * The claims on the scenario *)

Section OnTheScenario.
Import Scenario.

Lemma can_store_started : can_store cache a_url started = true.
Proof. vm_compute. reflexivity. Qed.

Lemma can_store_cached : can_store cache a_url cached = true.
Proof. vm_compute. reflexivity. Qed.

Lemma can_store_stale : can_store cache a_url stale = true.
Proof. vm_compute. reflexivity. Qed.

Lemma can_remove_cached : can_remove cache a_url cached = true.
Proof. vm_compute. reflexivity. Qed.

Lemma can_remove_stale : can_remove cache a_url stale = true.
Proof. vm_compute. reflexivity. Qed.

Lemma expired_stale : expired cache a_url stale.
Proof. eexists. split; [vm_compute; reflexivity|]. by vm_compute. Qed.

(** The example of the specification: [date] is dropped. *)
Example filteredHeaders_a_headers :
  filteredHeaders a_headers = <["content-type" := "text/html"]> ∅.
Proof. vm_compute. reflexivity. Qed.

Lemma set_get_roundtrip_witness :
  can_store cache a_url started = true
  ∧ 0 ≤ 0 < ttl cache * 1000
  ∧ get cache a_url (elapse 0 cached)
    = (Ok (Some {| spread_metadata := metadata 200 (filteredHeaders a_headers);
                   content := a_body |}),
       elapse 0 cached)
  ∧ ∀ key, filteredHeaders a_headers !! key
           = if decide (toLowerCase key ∈ nonCacheableHeaders) then None
             else a_headers !! key.
Proof.
  assert (Hms : 0 ≤ 0 < ttl cache * 1000) by (simpl; lia).
  split; [apply can_store_started|]. split; [apply Hms|].
  exact (set_get_roundtrip env cache a_url 200 a_headers a_body started 0
           can_store_started Hms).
Defined.

Lemma get_expired_removes_witness :
  expired cache a_url stale
  ∧ can_remove cache a_url stale = true
  ∧ (∀ r, (get cache a_url stale).1 ≠ Ok (Some r))
  ∧ get cache a_url stale
    = (Ok None, with_fs stale (delete (data_file cache a_url)
                                 (delete (meta_file cache a_url) (w_fs stale))))
  ∧ w_fs (get cache a_url stale).2 !! data_file cache a_url = None
  ∧ w_fs (get cache a_url stale).2 !! meta_file cache a_url = None.
Proof.
  split; [apply expired_stale|]. split; [apply can_remove_stale|].
  destruct (get_expired_removes cache a_url stale expired_stale) as [Hnever Hremoves].
  split; [exact Hnever|]. exact (Hremoves can_remove_stale).
Defined.

Lemma get_busy_hour :
  (get cache a_url (run env cache busy_hour cached)).1
  = Ok (Some {| spread_metadata := metadata 200 (filteredHeaders a_headers);
                content := a_body |}).
Proof. vm_compute. reflexivity. Qed.

Lemma non_cacheable_headers_never_returned_witness :
  can_store cache a_url started = true
  ∧ filteredHeaders a_headers !! "date" = None
  ∧ (get cache a_url (run env cache busy_hour cached)).1
    = Ok (Some {| spread_metadata := metadata 200 (filteredHeaders a_headers);
                  content := a_body |})
  ∧ ∃ stored : gmap string string,
      cachedResponse_headers
        {| spread_metadata := metadata 200 (filteredHeaders a_headers);
           content := a_body |}
      = Some (JObj (JStr <$> stored))
      ∧ ∀ key, toLowerCase key ∈ nonCacheableHeaders → stored !! key = None.
Proof.
  destruct (non_cacheable_headers_never_returned env cache a_url 200 a_headers a_body
              started can_store_started) as [[_ Hdropped] Hlater].
  split; [apply can_store_started|].
  split; [apply Hdropped; vm_compute; reflexivity|].
  split; [apply get_busy_hour|].
  exact (Hlater busy_hour _ get_busy_hour).
Defined.

Lemma beforeSend_stores_only_eligible_witness :
  eligible env a_request
  ∧ w_timers (beforeSend env cache a_request started).2
    = [{| timer_due := 86401000; timer_callback := TRemoveExpiredCacheUrl a_url |}]
  ∧ statusCode (request_prerender (with_statusCode a_request 500)) = 500
  ∧ beforeSend env cache (with_statusCode a_request 500) started = (Ok Next, started).
Proof.
  assert (Hel : eligible env a_request).
  { split_and!; [reflexivity| |reflexivity]. by vm_compute; left. }
  split; [exact Hel|].
  destruct (beforeSend_stores_only_eligible env cache a_request started)
    as (_ & Hstored & _ & _).
  destruct (beforeSend_stores_only_eligible env cache
              (with_statusCode a_request 500) started) as (_ & _ & _ & H500).
  split; [exact (Hstored Hel)|]. split; [reflexivity|]. exact (H500 eq_refl).
Defined.

Lemma get_corrupted :
  w_fs (corrupted cached) !! data_file cache a_url = Some (File "garbage" 0)
  ∧ w_fs (corrupted cached) !! meta_file cache a_url
    = Some (File (JSON_stringify (metadata 200 (filteredHeaders a_headers))) 1000)
  ∧ zlib_gunzip "garbage" = None.
Proof. split_and!; vm_compute; reflexivity. Qed.

Lemma get_miss_never_decode_error_witness :
  (w_fs started !! data_file cache a_url = None
   ∧ get cache a_url started = (Ok None, started))
  ∧ (zlib_gunzip "garbage" = None
     ∧ get cache a_url (corrupted cached) = (Ok None, corrupted cached))
  ∧ ((get cache a_url (read_only stale)).1 = Throw EACCES
     ∧ EACCES ≠ Z_DATA_ERROR ∧ EACCES ≠ SyntaxError).
Proof.
  assert (Habsent : w_fs started !! data_file cache a_url = None)
    by (vm_compute; reflexivity).
  assert (Hthrows : (get cache a_url (read_only stale)).1 = Throw EACCES)
    by (vm_compute; reflexivity).
  destruct get_corrupted as (Hd & Hm & Hbad).
  split_and!.
  - exact Habsent.
  - exact (proj1 (get_miss_never_decode_error cache a_url started) (or_introl Habsent)).
  - exact Hbad.
  - refine (proj1 (proj2 (get_miss_never_decode_error cache a_url (corrupted cached)))
              _ _ _ _ Hd Hm _ (or_introl Hbad)).
    vm_compute. reflexivity.
  - exact Hthrows.
  - exact (proj1 (proj2 (proj2 (get_miss_never_decode_error cache a_url (read_only stale)))
                    EACCES Hthrows)).
  - exact (proj2 (proj2 (proj2 (get_miss_never_decode_error cache a_url (read_only stale)))
                    EACCES Hthrows)).
Defined.

(** C2.  An entry whose [.meta] file is TTL seconds old is not always
    answered with Miss and removed.  Here the shard directory does not let
    its files be removed: [get] does not return Miss, it throws what
    [fs.unlink] throws, and both files of the entry are there after the
    call as they were before. *)
Theorem get_expired_throws_and_removes_nothing :
  expired cache a_url (read_only stale)
  ∧ is_file (w_fs (read_only stale)) (data_file cache a_url) = true
  ∧ is_file (w_fs (read_only stale)) (meta_file cache a_url) = true
  ∧ (get cache a_url (read_only stale)).1 = Throw EACCES
  ∧ (get cache a_url (read_only stale)).1 ≠ Ok None
  ∧ is_file (w_fs (get cache a_url (read_only stale)).2) (data_file cache a_url) = true
  ∧ is_file (w_fs (get cache a_url (read_only stale)).2) (meta_file cache a_url) = true.
Proof.
  assert (Hexp : expired cache a_url (read_only stale)).
  { eexists. split; [vm_compute; reflexivity|]. by vm_compute. }
  assert (Hd : is_file (w_fs (read_only stale)) (data_file cache a_url) = true)
    by (vm_compute; reflexivity).
  assert (Hm : is_file (w_fs (read_only stale)) (meta_file cache a_url) = true)
    by (vm_compute; reflexivity).
  assert (Hget : get cache a_url (read_only stale) = (Throw EACCES, read_only stale)).
  { eapply get_expired_unlink_fails; [exact Hexp| |].
    - vm_compute. reflexivity.
    - vm_compute. reflexivity. }
  rewrite Hget. cbn [fst snd].
  split; [exact Hexp|]. split; [exact Hd|]. split; [exact Hm|].
  split; [reflexivity|]. split; [discriminate|]. split; [exact Hd|exact Hm].
Qed.

(** C6.  An expired entry in a shard directory that does not let its files
    be removed: [fs.unlink] fails inside [get], outside any [try], and the
    error leaves [get] and then [requestReceived]; nothing is logged and the
    files stay.  ([removeExpiredCacheUrl] and [removeExpiredCacheFile] catch
    and log the same failure.) *)
Theorem get_raises_when_unlink_fails :
  expired cache a_url (read_only stale)
  ∧ fs_unlink (meta_file cache a_url) (w_fs (read_only stale)) = inl EACCES
  ∧ get cache a_url (read_only stale) = (Throw EACCES, read_only stale)
  ∧ requestReceived env cache a_request (read_only stale)
    = (Throw EACCES, read_only stale)
  ∧ (removeExpiredCacheUrl env cache a_url (read_only stale)).1 = Ok ()
  ∧ w_log (removeExpiredCacheUrl env cache a_url (read_only stale)).2
    = [LogRemoveUrlError a_url EACCES].
Proof.
  assert (Hexp : expired cache a_url (read_only stale)).
  { eexists. split; [vm_compute; reflexivity|]. by vm_compute. }
  assert (Hun : fs_unlink (meta_file cache a_url) (w_fs (read_only stale))
                = inl EACCES) by (vm_compute; reflexivity).
  assert (Hget : get cache a_url (read_only stale) = (Throw EACCES, read_only stale)).
  { eapply get_expired_unlink_fails; [exact Hexp| |exact Hun].
    vm_compute. reflexivity. }
  split_and!; [exact Hexp|exact Hun|exact Hget| | |].
  - apply requestReceived_get_throws; [reflexivity| |exact Hget].
    vm_compute. discriminate.
  - vm_compute. reflexivity.
  - vm_compute. reflexivity.
Qed.

(** C7 as the specification words it fails: a restart sweeps the cache
    and sets one timer per file; when the first fires, the entry has its
    [.data] file and no [.meta] file. *)
Lemma pair_split_by_sweep_timer : ¬ pairs_stay_together env cache started.
Proof.
  intros Htogether. specialize (Htogether restart_then_timer a_url).
  vm_compute in Htogether. discriminate Htogether.
Qed.

Lemma pair_written_together_removed_per_call_witness :
  can_store cache a_url stale = true
  ∧ can_remove cache a_url stale = true
  ∧ expired cache a_url stale
  ∧ (is_file (w_fs (set env cache a_url 200 a_headers a_body stale).2)
       (data_file cache a_url) = true
     ∧ is_file (w_fs (set env cache a_url 200 a_headers a_body stale).2)
         (meta_file cache a_url) = true)
  ∧ (is_file (w_fs (get cache a_url stale).2) (data_file cache a_url) = false
     ∧ is_file (w_fs (get cache a_url stale).2) (meta_file cache a_url) = false)
  ∧ (is_file (w_fs (removeExpiredCacheFile env (data_file cache a_url) stale).2)
       (data_file cache a_url) = false
     ∧ is_file (w_fs (removeExpiredCacheFile env (data_file cache a_url) stale).2)
         (meta_file cache a_url) = true).
Proof.
  destruct (pair_written_together_removed_per_call env cache a_url 200 a_headers
              a_body stale) as (Hset & Hrem).
  destruct (Hrem can_remove_stale) as (Hget & _ & Hdata & _).
  split; [apply can_store_stale|]. split; [apply can_remove_stale|].
  split; [apply expired_stale|].
  split; [exact (Hset can_store_stale)|].
  split; [exact (Hget expired_stale)|exact Hdata].
Defined.

(** C8 as the specification words it fails: a header that comes in as
    [Content-Type] is stored and returned under that name. *)
Lemma mixed_case_header_name_stored : ¬ header_names_lower_cased env cache.
Proof.
  intros Hlower.
  specialize (Hlower a_url 200 mixed_case_headers a_body started
                {| spread_metadata :=
                     metadata 200 (<["Content-Type" := "text/html"]> ∅);
                   content := a_body |}
                (<["Content-Type" := JStr "text/html"]> ∅) "Content-Type"
                can_store_started).
  assert (Hname : toLowerCase "Content-Type" = "Content-Type" → False)
    by (vm_compute; discriminate).
  apply Hname, Hlower.
  - vm_compute. reflexivity.
  - vm_compute. reflexivity.
  - eexists. vm_compute. reflexivity.
Qed.

Lemma stored_header_names_as_given_witness :
  can_store cache a_url started = true
  ∧ ∃ t,
      w_fs (set env cache a_url 200 mixed_case_headers a_body started).2
        !! meta_file cache a_url
      = Some (File (JSON_stringify (metadata 200 (filteredHeaders mixed_case_headers))) t)
      ∧ ∀ key, filteredHeaders mixed_case_headers !! key
               = if decide (toLowerCase key ∈ nonCacheableHeaders) then None
                 else mixed_case_headers !! key.
Proof.
  split; [apply can_store_started|].
  exact (stored_header_names_as_given env cache a_url 200 mixed_case_headers a_body
           started can_store_started).
Defined.

Lemma no_cache_skips_lookup_not_storage_witness :
  (requestReceived env cache a_request cached).1
  = Ok (with_fromCache a_request true,
        Send [("content-type", JStr "text/html")] (Some (JNum 200)) a_body)
  ∧ method (no_cache a_request) = "GET"
  ∧ request_headers (no_cache a_request) !! "cache-control" = Some "no-cache"
  ∧ requestReceived env cache (no_cache a_request) cached
    = (Ok (no_cache a_request, Next), cached)
  ∧ get cache a_url (beforeSend env cache (no_cache a_request) cached).2
    = (Ok (Some {| spread_metadata := metadata 200 (filteredHeaders a_headers);
                   content := a_body |}),
       (beforeSend env cache (no_cache a_request) cached).2).
Proof.
  assert (Hnc : request_headers (no_cache a_request) !! "cache-control"
                = Some "no-cache") by (vm_compute; reflexivity).
  assert (Hcode : statusCode (request_prerender (no_cache a_request))
                  ∈ CACHE_STATUS_CODES env) by (vm_compute; left).
  assert (Httl : 0 < ttl cache) by (simpl; lia).
  destruct (no_cache_skips_lookup_not_storage env cache (no_cache a_request) cached
              eq_refl Hnc) as [Hnext Hstored].
  split; [vm_compute; reflexivity|].
  split; [reflexivity|]. split; [exact Hnc|]. split; [exact Hnext|].
  exact (Hstored Hcode eq_refl can_store_cached Httl).
Defined.

Lemma removeExpiredCacheUrl_twice_witness :
  can_remove cache a_url cached = true
  ∧ (removeExpiredCacheUrl env cache a_url
       (removeExpiredCacheUrl env cache a_url cached).2).1 = Ok ()
  ∧ w_fs (removeExpiredCacheUrl env cache a_url cached).2 !! data_file cache a_url = None
  ∧ w_fs (removeExpiredCacheUrl env cache a_url cached).2 !! meta_file cache a_url = None
  ∧ w_fs (removeExpiredCacheUrl env cache a_url
            (removeExpiredCacheUrl env cache a_url cached).2).2
    = w_fs (removeExpiredCacheUrl env cache a_url cached).2.
Proof.
  destruct (removeExpiredCacheUrl_twice env cache a_url cached) as [Hok Hgone].
  split; [apply can_remove_cached|]. split; [exact Hok|].
  exact (Hgone can_remove_cached).
Defined.
End OnTheScenario.

(** * More of what the program does

    Further properties of the functions of [index.js]: what
    [set], [get] and the hooks leave untouched, how calls compose, what the
    timers and the sweep remove, and which errors are swallowed. *)

(** ** Calls that catch what they raise *)

Section Swallowed.
Context `{Platform} (env : environment).

Lemma log_spec line w :
  log env line w
  = (Ok (), with_log w (w_log w ++ if DISABLE_LOGGING env then [] else [line])).
Proof.
  unfold log, console_log. destruct (DISABLE_LOGGING env); [|done].
  rewrite app_nil_r. by destruct w.
Qed.

Lemma ensureDirExists_cases dirPath w :
  ensureDirExists env dirPath w
  = match w_fs w !! dirPath with
    | Some _ => (Ok (), w)
    | None =>
        match fs_mkdir_recursive dirPath (w_now w) (w_fs w) with
        | inr fs' => (Ok (), with_fs w fs')
        | inl e => log env (LogCannotAccessDirectory dirPath e) w
        end
    end.
Proof.
  unfold ensureDirExists. mrun. unfold fs_access.
  destruct (w_fs w !! dirPath); simpl; [done|].
  by destruct (fs_mkdir_recursive _ _ _).
Qed.

Lemma writeFile_cases p c w :
  writeFile p c w
  = match fs_writeFile p c (w_now w) (w_fs w) with
    | inr fs' => (Ok (), with_fs w fs')
    | inl e => (Throw e, w)
    end.
Proof. reflexivity. Qed.

Lemma fs_writeFile_inr p c now fs fs' :
  fs_writeFile p c now fs = inr fs' → fs' = <[p := File c now]> fs.
Proof. unfold fs_writeFile. repeat case_match; try done; by intros [= <-]. Qed.
End Swallowed.

(** ** What a write leaves as it is *)

(** [fs.mkdir] with [recursive] only adds directories, on the way to the
    one it is asked for. *)
Lemma mkdir_from_lookup base rest now fs fs' p :
  mkdir_from base rest now fs = inr fs' →
  fs' !! p = fs !! p
  ∨ (fs !! p = None ∧ p `prefix_of` base ++ rest ∧ fs' !! p = Some (Dir true now)).
Proof.
  revert base fs. induction rest as [|x rest IH]; intros base fs; simpl.
  { intros [= ->]. by left. }
  replace (base ++ x :: rest) with (path_join base x ++ rest)
    by (unfold path_join; by rewrite <- app_assoc).
  destruct (fs !! path_join base x) as [[|]|] eqn:E; [done|by apply IH|].
  destruct (dir_writable fs base); [|done].
  intros Hmk. destruct (decide (p = path_join base x)) as [->|Hne].
  - right. split; [done|]. split; [by apply prefix_app_r|].
    destruct (IH _ _ Hmk) as [-> | (Hn & _)].
    + apply lookup_insert_eq.
    + by rewrite lookup_insert_eq in Hn.
  - destruct (IH _ _ Hmk) as [-> | (Hn & Hp & Hd)].
    + left. by apply lookup_insert_ne.
    + right. by rewrite lookup_insert_ne in Hn.
Qed.

Section SetSpec.
Context `{Platform} (env : environment) (this : URLFileSystemCache) (url : string).

(** What [ensureDirExists] makes of the world: it returns, with
    directories added on the way to [dirPath] or a line logged. *)
Lemma ensureDirExists_spec dirPath w :
  ∃ fs0 lines,
    ensureDirExists env dirPath w
    = (Ok (), with_log (with_fs w fs0) (w_log w ++ lines))
    ∧ (is_Some (w_fs w !! dirPath) → fs0 = w_fs w ∧ lines = [])
    ∧ (lines = []
       ∨ ∃ e, fs0 = w_fs w
              ∧ lines = if DISABLE_LOGGING env then []
                        else [LogCannotAccessDirectory dirPath e])
    ∧ ∀ p, fs0 !! p = w_fs w !! p
           ∨ (w_fs w !! p = None ∧ p `prefix_of` dirPath
              ∧ fs0 !! p = Some (Dir true (w_now w))).
Proof.
  rewrite ensureDirExists_cases.
  destruct (w_fs w !! dirPath) as [n|] eqn:E.
  { exists (w_fs w), []. rewrite app_nil_r. split; [by destruct w|].
    split; [done|]. split; by left. }
  destruct (fs_mkdir_recursive dirPath (w_now w) (w_fs w)) as [e|fs0] eqn:Emk.
  - rewrite log_spec. eexists (w_fs w), _. split; [by destruct w|].
    split; [by intros [? ?]|]. split; [right; by exists e|by left].
  - exists fs0, []. rewrite app_nil_r. split; [by destruct w|].
    split; [by intros [? ?]|]. split; [by left|].
    intros p. apply (mkdir_from_lookup [] dirPath _ _ _ p Emk).
Qed.

(** What [set] makes of the world: it returns, has scheduled the removal,
    and has either written the two files or logged why it could not; it
    leaves every other node, but for directories added on the way to the
    shard. *)
Lemma set_spec statusCode headers value w :
  ∃ fs' lines,
    set env this url statusCode headers value w
    = (Ok (), {| w_fs := fs';
                 w_timers := w_timers w
                   ++ [{| timer_due := w_now w + timer_delay (ttl this * 1000);
                          timer_callback := TRemoveExpiredCacheUrl url |}];
                 w_log := w_log w ++ lines;
                 w_now := w_now w |})
    ∧ ((fs' !! data_file this url = Some (File (zlib_gzip value) (w_now w))
        ∧ fs' !! meta_file this url
          = Some (File (JSON_stringify (metadata statusCode (filteredHeaders headers)))
                    (w_now w)))
       ∨ ∃ e before,
           lines = if DISABLE_LOGGING env then []
                   else before ++ [LogCannotWrite (filenameForUrl this url) e])
    ∧ ∀ p, p ≠ data_file this url → p ≠ meta_file this url →
           fs' !! p = w_fs w !! p
           ∨ (w_fs w !! p = None ∧ p `prefix_of` shard this url
              ∧ fs' !! p = Some (Dir true (w_now w))).
Proof.
  pose proof (data_meta_ne this url) as Hne.
  unfold set. rewrite dirname_filename.
  fold (data_file this url) (meta_file this url).
  destruct (ensureDirExists_spec (shard this url) w) as (fs0 & lines0 & Hens & _ & Hlines0 & Hfs0).
  assert (Hlogged : ∀ e, ∃ before,
            lines0 ++ (if DISABLE_LOGGING env then []
                       else [LogCannotWrite (filenameForUrl this url) e])
            = if DISABLE_LOGGING env then []
              else before ++ [LogCannotWrite (filenameForUrl this url) e]).
  { intros e. exists lines0. destruct Hlines0 as [->|(e0 & _ & ->)];
      by destruct (DISABLE_LOGGING env). }
  set (w0 := with_log (with_fs w fs0) (w_log w ++ lines0)) in *.
  set (json := JSON_stringify (metadata statusCode (filteredHeaders headers))).
  unfold mbind at 1, M_bind at 1. unfold try_catch.
  rewrite (bind_Ok _ _ _ _ _ Hens).
  unfold mbind at 1, M_bind at 1. rewrite writeFile_cases.
  destruct (fs_writeFile (data_file this url) (zlib_gzip value) (w_now w0) (w_fs w0))
    as [e|fs1] eqn:E1.
  { rewrite log_spec. unfold setTimeout. simpl.
    eexists fs0, _. split; [by rewrite <- app_assoc|].
    split; [right; exists e; apply Hlogged|].
    intros p _ _. apply Hfs0. }
  apply fs_writeFile_inr in E1 as ->.
  rewrite writeFile_cases.
  destruct (fs_writeFile (meta_file this url) json (w_now (with_fs w0 _)) (w_fs (with_fs w0 _)))
    as [e|fs2] eqn:E2.
  { rewrite log_spec. unfold setTimeout. simpl.
    eexists _, _. split; [by rewrite <- app_assoc|].
    split; [right; exists e; apply Hlogged|].
    intros p Hd _. simpl. rewrite lookup_insert_ne by done. apply Hfs0. }
  apply fs_writeFile_inr in E2 as ->.
  unfold setTimeout. simpl.
  eexists _, lines0. split; [done|]. split.
  - left. simpl. rewrite lookup_insert_eq, lookup_insert_ne, lookup_insert_eq by done.
    done.
  - intros p Hd Hm. simpl. rewrite !lookup_insert_ne by done. apply Hfs0.
Qed.
End SetSpec.

Section StoreProperties.
Context `{PlatformLaws} (env : environment) (this : URLFileSystemCache).

(** After [set] could write, it can write again. *)
Lemma can_store_written url fs now timers lines nd nm :
  fs !! data_file this url = Some (File nd now) →
  fs !! meta_file this url = Some (File nm now) →
  dir_writable fs (shard this url) = true →
  ∀ now', can_store this url
            {| w_fs := fs; w_timers := timers; w_log := lines; w_now := now' |} = true.
Proof.
  intros Hd Hm Hw now'. unfold can_store, shard_available, is_directory. simpl.
  rewrite Hd, Hm. unfold dir_writable in Hw.
  by destruct (fs !! shard this url) as [[|[|]]|].
Qed.

(** [get] reads: it changes the world only on its expiry path. *)
Lemma get_world url w :
  (¬ expired this url w → (get this url w).2 = w)
  ∧ ((get this url w).2 = w
     ∨ (get this url w).2 = with_fs w (delete (meta_file this url) (w_fs w))
     ∨ (get this url w).2
       = with_fs w (delete (data_file this url)
                      (delete (meta_file this url) (w_fs w)))).
Proof.
  destruct (w_fs w !! data_file this url) as [nd|] eqn:Hd;
    [|rewrite get_absent by auto; split; [done|by left]].
  destruct (w_fs w !! meta_file this url) as [nm|] eqn:Hm;
    [|rewrite get_absent by auto; split; [done|by left]].
  destruct (decide (ttl this * 1000 ≤ w_now w - node_mtime nm)) as [Hexp|Hexp].
  - split; [intros []; by exists nm|].
    rewrite (get_expired this url w nd nm Hd Hm Hexp). mrun.
    destruct (fs_unlink (meta_file this url) (w_fs w)) as [e|fs1] eqn:E1; [by left|].
    assert (fs1 = delete (meta_file this url) (w_fs w)) as ->.
    { unfold fs_unlink in E1. repeat case_match; try done. by injection E1. }
    simpl.
    destruct (fs_unlink (data_file this url) _) as [e|fs2] eqn:E2; [right; by left|].
    assert (fs2 = delete (data_file this url) (delete (meta_file this url) (w_fs w)))
      as ->.
    { unfold fs_unlink in E2. repeat case_match; try done. by injection E2. }
    right. by right.
  - rewrite (get_unexpired this url w nd nm Hd Hm) by lia. split; [done|by left].
Qed.

(** A hit is an unexpired, readable entry. *)
Lemma get_not_expired url w :
  ¬ expired this url w →
  get this url w
  = (Ok (match w_fs w !! data_file this url, w_fs w !! meta_file this url with
         | Some nd, Some nm => decode_entry nd nm
         | _, _ => None
         end), w).
Proof.
  intros Hexp.
  destruct (w_fs w !! data_file this url) as [nd|] eqn:Hd;
    [|by rewrite get_absent by auto].
  destruct (w_fs w !! meta_file this url) as [nm|] eqn:Hm;
    [|by rewrite get_absent by auto].
  apply get_unexpired; [done..|].
  destruct (decide (ttl this * 1000 ≤ w_now w - node_mtime nm)); [|lia].
  destruct Hexp. by exists nm.
Qed.
End StoreProperties.

(** ** The files of two entries *)

Section TwoEntries.
Context `{Platform} (this : URLFileSystemCache).

Lemma data_file_inj url url' :
  data_file this url = data_file this url' → urlHash url = urlHash url'.
Proof.
  rewrite !data_file_eq. unfold path_join. intros E.
  apply app_inj_tail in E as [_ E].
  by apply string_app_inj_suffix in E as [? _].
Qed.

Lemma meta_file_inj url url' :
  meta_file this url = meta_file this url' → urlHash url = urlHash url'.
Proof.
  rewrite !meta_file_eq. unfold path_join. intros E.
  apply app_inj_tail in E as [_ E].
  by apply string_app_inj_suffix in E as [? _].
Qed.

Lemma not_prefix_of_shard_data url url' :
  ¬ data_file this url `prefix_of` shard this url'.
Proof.
  intros Hp%prefix_length. rewrite length_data_file, !length_shard in Hp. lia.
Qed.

Lemma not_prefix_of_shard_meta url url' :
  ¬ meta_file this url `prefix_of` shard this url'.
Proof.
  intros Hp%prefix_length. rewrite length_meta_file, !length_shard in Hp. lia.
Qed.
End TwoEntries.

(** ** Storing and reading *)

(** A path whose node is the same: a file is as it was, a directory is a
    directory, and where there was nothing there is nothing. *)
Lemma same_node (fs fs' : filesystem) (p : path) :
  fs' !! p = fs !! p →
  (∀ c t, fs !! p = Some (File c t) → fs' !! p = Some (File c t))
  ∧ (is_directory fs p = true → is_directory fs' p = true)
  ∧ (fs !! p = None → fs' !! p = None).
Proof. unfold is_directory. intros ->. done. Qed.

Section Storing.
Context `{PlatformLaws} (env : environment) (this : URLFileSystemCache).

(** [set] never rejects, whatever the filesystem does: it returns, it has
    scheduled the removal of the entry, and it has either written the two
    files or caught the error and passed it to [log]. *)
Theorem set_never_throws url statusCode headers value w :
  (set env this url statusCode headers value w).1 = Ok ()
  ∧ w_timers (set env this url statusCode headers value w).2
    = w_timers w ++ [{| timer_due := w_now w + timer_delay (ttl this * 1000);
                        timer_callback := TRemoveExpiredCacheUrl url |}]
  ∧ ((w_fs (set env this url statusCode headers value w).2 !! data_file this url
      = Some (File (zlib_gzip value) (w_now w))
      ∧ w_fs (set env this url statusCode headers value w).2 !! meta_file this url
        = Some (File (JSON_stringify (metadata statusCode (filteredHeaders headers)))
                  (w_now w)))
     ∨ ∃ e before,
         w_log (set env this url statusCode headers value w).2
         = w_log w ++ if DISABLE_LOGGING env then []
                      else before ++ [LogCannotWrite (filenameForUrl this url) e]).
Proof.
  destruct (set_spec env this url statusCode headers value w)
    as (fs' & lines & -> & Hdone & _).
  simpl. split; [done|]. split; [done|].
  destruct Hdone as [Hwritten|(e & before & ->)]; [by left|].
  right. by exists e, before.
Qed.

(** [set] changes the two files of its entry and nothing else that is
    there: any other file is as it was (content and mtime), a directory
    stays a directory, and a path that had no node has none, unless it is a
    directory on the way to the shard. *)
Theorem set_leaves_other_nodes url statusCode headers value w p :
  p ≠ data_file this url →
  p ≠ meta_file this url →
  (∀ c t, w_fs w !! p = Some (File c t) →
          w_fs (set env this url statusCode headers value w).2 !! p = Some (File c t))
  ∧ (is_directory (w_fs w) p = true →
     is_directory (w_fs (set env this url statusCode headers value w).2) p = true)
  ∧ (w_fs w !! p = None → ¬ p `prefix_of` shard this url →
     w_fs (set env this url statusCode headers value w).2 !! p = None).
Proof.
  intros Hd Hm.
  destruct (set_spec env this url statusCode headers value w)
    as (fs' & lines & -> & _ & Hframe).
  simpl. destruct (Hframe p Hd Hm) as [Hsame|(Hnone & Hprefix & Hnew)].
  - destruct (same_node _ _ _ Hsame) as (Hfile & Hdir & Habsent). auto.
  - split_and!.
    + intros c t Hp. by assert (Some (File c t) = None) by (rewrite <- Hp; exact Hnone).
    + intros Hdir. unfold is_directory in *.
      assert (Hnew' : fs' !! p = Some (Dir true (w_now w))) by exact Hnew.
      by rewrite Hnew'.
    + done.
Qed.


(** Storing another URL does not disturb an entry: unless the two URLs have
    the same digest, the files of the entry are as they were, and a [get]
    gives what it gave. *)
Theorem set_of_another_url url url' statusCode headers value w :
  urlHash url ≠ urlHash url' →
  let w' := (set env this url' statusCode headers value w).2 in
  w_fs w' !! data_file this url = w_fs w !! data_file this url
  ∧ w_fs w' !! meta_file this url = w_fs w !! meta_file this url
  ∧ (¬ expired this url w → (get this url w').1 = (get this url w).1).
Proof.
  intros Hhash w'.
  destruct (set_spec env this url' statusCode headers value w)
    as (fs' & lines & Hset & _ & Hframe).
  assert (Hd : fs' !! data_file this url = w_fs w !! data_file this url).
  { destruct (Hframe (data_file this url)) as [Hsame|(_ & Hprefix & _)]; [| |done|].
    - intros E%data_file_inj. done.
    - intros E. by apply (data_file_ne_meta_file this url' url).
    - by apply not_prefix_of_shard_data in Hprefix. }
  assert (Hm : fs' !! meta_file this url = w_fs w !! meta_file this url).
  { destruct (Hframe (meta_file this url)) as [Hsame|(_ & Hprefix & _)]; [| |done|].
    - intros E. by apply (data_file_ne_meta_file this url url').
    - intros E%meta_file_inj. done.
    - by apply not_prefix_of_shard_meta in Hprefix. }
  subst w'. rewrite Hset. simpl. split; [done|]. split; [done|].
  intros Hfresh. rewrite !get_not_expired; simpl.
  - by rewrite Hd, Hm.
  - done.
  - intros (n & Hn & Hexp). apply Hfresh. exists n. simpl in *.
    by rewrite <- Hm.
Qed.

(** [get] writes nothing and removes nothing, except on its expiry path,
    where it removes the two files of the entry and nothing else: any other
    file is as it was, a directory stays a directory (the shard too, when it
    is left empty), nothing appears; it sets no timer and logs nothing. *)
Theorem get_only_removes_expired_entry url w :
  (¬ expired this url w → (get this url w).2 = w)
  ∧ (∀ p, p ≠ data_file this url → p ≠ meta_file this url →
          (∀ c t, w_fs w !! p = Some (File c t) →
                  w_fs (get this url w).2 !! p = Some (File c t))
          ∧ (is_directory (w_fs w) p = true →
             is_directory (w_fs (get this url w).2) p = true)
          ∧ (w_fs w !! p = None → w_fs (get this url w).2 !! p = None))
  ∧ w_timers (get this url w).2 = w_timers w
  ∧ w_log (get this url w).2 = w_log w.
Proof.
  destruct (get_world this url w) as [Hfresh Hcases].
  split; [done|].
  destruct Hcases as [-> | [-> | ->]]; simpl; split_and!; try done.
  - intros p _ Hm. apply same_node. by rewrite lookup_delete_ne.
  - intros p Hd Hm. apply same_node. by rewrite !lookup_delete_ne.
Qed.

(** Two URLs share their files exactly when their digests are equal, and
    the [.data] file of an entry is never the [.meta] file of another. *)
Theorem entries_share_files_iff_same_digest url url' :
  (data_file this url = data_file this url' ↔ urlHash url = urlHash url')
  ∧ (meta_file this url = meta_file this url' ↔ urlHash url = urlHash url')
  ∧ data_file this url ≠ meta_file this url'.
Proof.
  split_and!.
  - split; [apply data_file_inj|].
    intros E. unfold data_file, filenameForUrl. by rewrite E.
  - split; [apply meta_file_inj|].
    intros E. unfold meta_file, filenameForUrl. by rewrite E.
  - apply data_file_ne_meta_file.
Qed.
End Storing.

(** ** The hooks *)

Section HookProperties.
Context `{PlatformLaws} (env : environment) (cache : URLFileSystemCache).

(** Nothing the store does can fail the response: [beforeSend] always
    calls [next], whatever the request and whatever the filesystem does. *)
Theorem beforeSend_never_throws req w :
  (beforeSend env cache req w).1 = Ok Next.
Proof.
  destruct (decide (eligible env req)) as [Hel|Hn];
    [|by rewrite beforeSend_ineligible].
  rewrite beforeSend_eligible by done.
  unfold mbind at 1, M_bind at 1. rewrite log_spec.
  unfold mbind, M_bind.
  by destruct (set_spec env cache (url (request_prerender req))
                 (statusCode (request_prerender req))
                 (default ∅ (headers (request_prerender req)))
                 (default EmptyString (prerender_content (request_prerender req)))
                 (with_log w (w_log w ++ if DISABLE_LOGGING env then []
                    else [LogCaching (url (request_prerender req))
                            (filenameForUrl cache (url (request_prerender req)))])))
    as (fs' & lines & -> & _).
Qed.


(** No self-caching: when [requestReceived] has served a request from the
    cache, it has set [fromCache] on it, and [beforeSend] then stores nothing
    for it: no file is written, no timer is set, the age of the entry is not
    renewed. *)
Theorem hit_is_not_stored_again req w req' setHeader statusCode content :
  (requestReceived env cache req w).1 = Ok (req', Send setHeader statusCode content) →
  fromCache req' = true
  ∧ ∀ w', beforeSend env cache req' w' = (Ok Next, w').
Proof.
  intros Hsent.
  assert (Hfrom : fromCache req' = true).
  { revert Hsent. unfold requestReceived.
    destruct (negb _); [done|]. case_decide; [done|].
    unfold mbind at 1, M_bind at 1.
    destruct (get cache _ w) as [[[r|]|e] w1]; [|done..].
    unfold mbind at 1, M_bind at 1. rewrite log_spec.
    unfold mbind, M_bind, or_throw.
    destruct (Object_entries _); [done|]. by intros [= <- _]. }
  split; [done|]. intros w'. apply beforeSend_ineligible.
  unfold eligible. rewrite Hfrom. by intros (_ & _ & ?).
Qed.

(** Metadata that parses but has no [headers] (or [null] for them) is not
    a miss: [get] returns it, and [Object.entries] then throws a [TypeError]
    out of [requestReceived]. *)
Theorem requestReceived_throws_without_headers req w compressed t text t' body j :
  method req = "GET" →
  request_headers req !! "cache-control" ≠ Some "no-cache" →
  w_fs w !! data_file cache (url (request_prerender req)) = Some (File compressed t) →
  w_fs w !! meta_file cache (url (request_prerender req)) = Some (File text t') →
  w_now w - t' < ttl cache * 1000 →
  zlib_gunzip compressed = Some body →
  JSON_parse text = Some j →
  json_property j "headers" = None ∨ json_property j "headers" = Some JNull →
  get cache (url (request_prerender req)) w
  = (Ok (Some {| spread_metadata := j; content := body |}), w)
  ∧ (requestReceived env cache req w).1 = Throw TypeError.
Proof.
  intros Hm Hnc Hd Hmeta Hfresh Hbody Hparse Hheaders.
  assert (Hget : get cache (url (request_prerender req)) w
                 = (Ok (Some {| spread_metadata := j; content := body |}), w)).
  { rewrite (get_unexpired cache _ w _ _ Hd Hmeta) by done.
    simpl. by rewrite Hbody, Hparse. }
  split; [done|].
  unfold requestReceived. rewrite Hm. simpl. case_decide; [done|].
  rewrite (bind_Ok _ _ _ _ _ Hget).
  unfold mbind at 1, M_bind at 1. rewrite log_spec.
  unfold cachedResponse_headers. simpl.
  by destruct Hheaders as [-> | ->].
Qed.
End HookProperties.

(** ** The removal timers *)

Section Timers.
Context `{PlatformLaws} (env : environment) (this : URLFileSystemCache).

Lemma fireTimer_removeExpiredCacheUrl i url due w :
  w_timers w !! i
  = Some {| timer_due := due; timer_callback := TRemoveExpiredCacheUrl url |} →
  due ≤ w_now w →
  fireTimer env this i w
  = removeExpiredCacheUrl env this url (with_timers w (delete i (w_timers w))).
Proof.
  intros Ht Hdue. unfold fireTimer. rewrite Ht. simpl. by case_decide.
Qed.

Lemma fireTimer_removes i url due w :
  w_timers w !! i
  = Some {| timer_due := due; timer_callback := TRemoveExpiredCacheUrl url |} →
  due ≤ w_now w →
  can_remove this url w = true →
  w_fs (fireTimer env this i w).2 !! data_file this url = None
  ∧ w_fs (fireTimer env this i w).2 !! meta_file this url = None
  ∧ get this url (fireTimer env this i w).2 = (Ok None, (fireTimer env this i w).2).
Proof.
  intros Ht Hdue Hremove.
  rewrite (fireTimer_removeExpiredCacheUrl i url due w Ht Hdue).
  destruct (removeExpiredCacheUrl_removes env this url
              (with_timers w (delete i (w_timers w))) Hremove) as [Hd Hm].
  split; [done|]. split; [done|]. apply get_absent. by left.
Qed.

Lemma can_remove_written url fs now now' timers lines nd nm :
  fs !! data_file this url = Some (File nd now) →
  fs !! meta_file this url = Some (File nm now) →
  dir_writable fs (shard this url) = true →
  can_remove this url
    {| w_fs := fs; w_timers := timers; w_log := lines; w_now := now' |} = true.
Proof.
  intros Hd Hm Hw. unfold can_remove, is_file. simpl. by rewrite Hd, Hm, Hw.
Qed.

(** The timer [set] schedules removes the entry: once its delay has passed
    and it fires, the two files are gone and [get] is a miss, without any
    [get] having looked at the entry before. *)
Theorem removal_timer_removes_entry url statusCode headers value w ms :
  can_store this url w = true →
  timer_delay (ttl this * 1000) ≤ ms →
  let w1 := elapse ms (set env this url statusCode headers value w).2 in
  let w2 := (fireTimer env this (length (w_timers w)) w1).2 in
  w_fs w2 !! data_file this url = None
  ∧ w_fs w2 !! meta_file this url = None
  ∧ get this url w2 = (Ok None, w2).
Proof.
  intros Hstore Hms w1 w2.
  destruct (set_stores env this url statusCode headers value w Hstore)
    as (fs1 & Hset & Hd & Hm & Hw).
  subst w2 w1. rewrite Hset.
  eapply fireTimer_removes.
  - simpl. apply list_lookup_middle. done.
  - simpl. lia.
  - by eapply can_remove_written.
Qed.

(** The timer of a first [set] does not know of a second: when it fires
    it removes the entry that the second [set] wrote, however fresh that one
    is.  Here the entry is rewritten [a] ms after it was first stored, and
    the first timer fires [b] ms later, at the TTL of the first write: the
    entry would have been served, and is gone. *)
Theorem removal_timer_removes_rewritten_entry url statusCode1 headers1 value1
    statusCode2 headers2 value2 w a b :
  can_store this url w = true →
  1 ≤ ttl this * 1000 ≤ 2147483647 →
  0 ≤ a →
  0 ≤ b < ttl this * 1000 →
  ttl this * 1000 ≤ a + b →
  let w1 := elapse a (set env this url statusCode1 headers1 value1 w).2 in
  let w2 := elapse b (set env this url statusCode2 headers2 value2 w1).2 in
  let w3 := (fireTimer env this (length (w_timers w)) w2).2 in
  get this url w2
  = (Ok (Some {| spread_metadata := metadata statusCode2 (filteredHeaders headers2);
                 content := value2 |}), w2)
  ∧ w_fs w3 !! data_file this url = None
  ∧ w_fs w3 !! meta_file this url = None
  ∧ get this url w3 = (Ok None, w3).
Proof.
  intros Hstore Httl Ha Hb Hab w1 w2 w3.
  destruct (set_stores env this url statusCode1 headers1 value1 w Hstore)
    as (fs1 & Hset1 & Hd1 & Hm1 & Hw1).
  assert (Hstore1 : can_store this url w1 = true).
  { subst w1. rewrite Hset1. by eapply can_store_written. }
  destruct (set_stores env this url statusCode2 headers2 value2 w1 Hstore1)
    as (fs2 & Hset2 & Hd2 & Hm2 & Hw2).
  assert (Hdelay : timer_delay (ttl this * 1000) = ttl this * 1000).
  { unfold timer_delay.
    destruct (Z.ltb_spec (ttl this * 1000) 1); [lia|].
    destruct (Z.ltb_spec 2147483647 (ttl this * 1000)); [lia|done]. }
  split.
  - subst w2. rewrite Hset2.
    erewrite get_unexpired; [|exact Hd2|exact Hm2|simpl; lia].
    simpl. by rewrite zlib_gunzip_gzip, JSON_parse_stringify.
  - subst w3 w2. rewrite Hset2.
    eapply fireTimer_removes.
    + simpl. subst w1. rewrite Hset1. simpl.
      rewrite lookup_app_l by (rewrite length_app; simpl; lia).
      apply list_lookup_middle. done.
    + simpl. subst w1. rewrite Hset1. simpl. lia.
    + by eapply can_remove_written.
Qed.

(** A TTL of more than 2^31-1 ms is more than a timer can wait: the delay
    is set to 1 ms, and the timer removes the entry a millisecond after it
    was stored, when it is as good as new. *)
Theorem long_ttl_removes_entry_at_once url statusCode headers value w :
  can_store this url w = true →
  2147483647 < ttl this * 1000 →
  let w1 := elapse 1 (set env this url statusCode headers value w).2 in
  let w2 := (fireTimer env this (length (w_timers w)) w1).2 in
  get this url w1
  = (Ok (Some {| spread_metadata := metadata statusCode (filteredHeaders headers);
                 content := value |}), w1)
  ∧ w_fs w2 !! data_file this url = None
  ∧ w_fs w2 !! meta_file this url = None
  ∧ get this url w2 = (Ok None, w2).
Proof.
  intros Hstore Httl w1 w2.
  destruct (set_stores env this url statusCode headers value w Hstore)
    as (fs1 & Hset & Hd & Hm & Hw).
  assert (Hdelay : timer_delay (ttl this * 1000) = 1).
  { unfold timer_delay.
    destruct (Z.ltb_spec (ttl this * 1000) 1); [done|].
    destruct (Z.ltb_spec 2147483647 (ttl this * 1000)); [done|lia]. }
  split.
  - subst w1. rewrite Hset.
    erewrite get_unexpired; [|exact Hd|exact Hm|simpl; lia].
    simpl. by rewrite zlib_gunzip_gzip, JSON_parse_stringify.
  - subst w2 w1. rewrite Hset.
    eapply fireTimer_removes.
    + simpl. apply list_lookup_middle. done.
    + simpl. lia.
    + by eapply can_remove_written.
Qed.
End Timers.

(** ** The removals *)

Lemma children_nil fs d :
  children fs d = [] ↔ ∀ p, is_child d p → fs !! p = None.
Proof.
  unfold children. rewrite map_to_list_empty_iff, map_empty_filter.
  unfold map_Forall. simpl. split.
  - intros Hall p Hchild. destruct (fs !! p) as [n|] eqn:E; [|done].
    destruct (Hall p n E Hchild).
  - intros Hnone p n Hp Hchild. rewrite (Hnone p Hchild) in Hp. done.
Qed.

Lemma removeDirectoryIfEmpty_cases dirPath w :
  removeDirectoryIfEmpty dirPath w
  = (Ok (),
     if decide (is_directory (w_fs w) dirPath = true
                ∧ children (w_fs w) dirPath = []
                ∧ dir_writable (w_fs w) (path_dirname dirPath) = true)
     then with_fs w (delete dirPath (w_fs w)) else w).
Proof.
  destruct (decide _) as [(Hdir & Hnil & Hw)|Hc].
  - unfold removeDirectoryIfEmpty, is_directory in *. mrun.
    unfold fs_readdir, fs_rmdir.
    destruct (w_fs w !! dirPath) as [[|]|] eqn:E; [done| |done].
    simpl. rewrite length_fmap, Hnil. simpl. by rewrite E, Hnil, Hw.
  - unfold removeDirectoryIfEmpty, is_directory in *. mrun.
    unfold fs_readdir, fs_rmdir.
    destruct (w_fs w !! dirPath) as [[|]|] eqn:E; [done| |done].
    simpl. rewrite length_fmap.
    destruct (children (w_fs w) dirPath) as [|c l] eqn:Ec; simpl; [|done].
    rewrite E, Ec.
    destruct (dir_writable (w_fs w) (path_dirname dirPath)); [|done].
    by destruct Hc.
Qed.

Lemma fs_unlink_inr p fs fs' : fs_unlink p fs = inr fs' → fs' = delete p fs.
Proof. unfold fs_unlink. repeat case_match; try done. by intros [= <-]. Qed.

Lemma unlink_cases p w :
  unlink p w
  = match fs_unlink p (w_fs w) with
    | inr _ => (Ok (), with_fs w (delete p (w_fs w)))
    | inl e => (Throw e, w)
    end.
Proof.
  unfold unlink, fs_write.
  destruct (fs_unlink p (w_fs w)) as [e|fs'] eqn:E; [done|].
  by apply fs_unlink_inr in E as ->.
Qed.

Section Removals.
Context `{Platform} (env : environment) (this : URLFileSystemCache).

(** [removeDirectoryIfEmpty] never throws and tells nobody of an error.
    It removes [dirPath] when that is a directory with no entry in a parent
    that can be written, and in every other case (no such path, a file, a
    directory with an entry, no permission) leaves the world as it is. *)
Theorem removeDirectoryIfEmpty_removes_only_empty_directory dirPath w :
  ∃ removed : bool,
    removeDirectoryIfEmpty dirPath w
    = (Ok (), if removed then with_fs w (delete dirPath (w_fs w)) else w)
    ∧ (removed = true
       ↔ is_directory (w_fs w) dirPath = true
         ∧ (∀ p, is_child dirPath p → w_fs w !! p = None)
         ∧ dir_writable (w_fs w) (path_dirname dirPath) = true).
Proof.
  rewrite removeDirectoryIfEmpty_cases.
  case_decide as Hc.
  - exists true. by rewrite <- children_nil.
  - exists false. rewrite <- children_nil. split; [done|]. split; [done|].
    intros Hc'. by destruct Hc.
Qed.

(** [removeExpiredCacheFile] never throws, and does not look at the age of
    the file: it removes the file it is given, whenever that can be removed;
    when it cannot, the error is passed to [log] and nothing changes. *)
Theorem removeExpiredCacheFile_removes_whatever_the_age filename w :
  (removeExpiredCacheFile env filename w).1 = Ok ()
  ∧ (is_file (w_fs w) filename = true →
     dir_writable (w_fs w) (path_dirname filename) = true →
     w_fs (removeExpiredCacheFile env filename w).2 !! filename = None)
  ∧ (∀ e, fs_unlink filename (w_fs w) = inl e →
          removeExpiredCacheFile env filename w
          = (Ok (), with_log w (w_log w ++ if DISABLE_LOGGING env then []
                                           else [LogRemoveFileError filename e]))).
Proof.
  unfold removeExpiredCacheFile, try_catch.
  unfold mbind, M_bind. rewrite unlink_cases.
  destruct (fs_unlink filename (w_fs w)) as [e|fs'] eqn:E.
  - rewrite log_spec. split; [done|]. split; [|by intros ? [= <-]].
    intros Hf Hw. unfold fs_unlink, is_file in *.
    destruct (w_fs w !! filename) as [[|]|]; try done. by rewrite Hw in E.
  - rewrite removeDirectoryIfEmpty_cases. split; [done|]. split; [|done].
    intros Hf Hw. simpl. case_decide as Hc; simpl; [|apply lookup_delete_eq].
    rewrite lookup_delete_ne; [apply lookup_delete_eq|].
    intros E'. unfold is_file, dir_writable in *. rewrite E' in Hw.
    by destruct (w_fs w !! filename) as [[|]|].
Qed.

Lemma removeExpiredCacheUrl_half url w :
  (w_fs w !! data_file this url = None →
   removeExpiredCacheUrl env this url w
   = (Ok (), with_log w (w_log w ++ if DISABLE_LOGGING env then []
                                    else [LogRemoveUrlError url ENOENT]))
   ∧ get this url w = (Ok None, w))
  ∧ (is_file (w_fs w) (data_file this url) = true →
     dir_writable (w_fs w) (shard this url) = true →
     w_fs w !! meta_file this url = None →
     removeExpiredCacheUrl env this url w
     = (Ok (), with_log (with_fs w (delete (data_file this url) (w_fs w)))
                 (w_log w ++ if DISABLE_LOGGING env then []
                             else [LogRemoveUrlError url ENOENT]))).
Proof.
  unfold removeExpiredCacheUrl. fold (data_file this url) (meta_file this url).
  split.
  - intros Hd. split; [|apply get_absent; by left].
    rewrite (try_catch_Throw _ _ _ ENOENT w); [apply log_spec|].
    apply bind_Throw. rewrite unlink_cases. unfold fs_unlink. by rewrite Hd.
  - intros Hf Hw Hm.
    rewrite (try_catch_Throw _ _ _ ENOENT
               (with_fs w (delete (data_file this url) (w_fs w))));
      [by rewrite log_spec|].
    rewrite (bind_Ok _ _ _ () (with_fs w (delete (data_file this url) (w_fs w)))).
    2:{ apply unlink_Ok; [done|]. by rewrite dirname_data_file. }
    apply bind_Throw. rewrite unlink_cases. unfold fs_unlink. simpl.
    rewrite lookup_delete_ne by apply data_meta_ne.
    assert (Hm' : w_fs w !! meta_file this url = None) by exact Hm.
    by rewrite Hm'.
Qed.

Lemma removeExpiredCacheUrl_shard url w :
  can_remove this url w = true →
  (((∀ p, is_child (shard this url) p → is_Some (w_fs w !! p) →
          p = data_file this url ∨ p = meta_file this url) →
    dir_writable (w_fs w) (cachePath this) = true →
    w_fs (removeExpiredCacheUrl env this url w).2
    = delete (shard this url)
        (delete (meta_file this url) (delete (data_file this url) (w_fs w))))
   ∧ (∀ p, is_child (shard this url) p → is_Some (w_fs w !! p) →
           p ≠ data_file this url → p ≠ meta_file this url →
           w_fs (removeExpiredCacheUrl env this url w).2
           = delete (meta_file this url) (delete (data_file this url) (w_fs w)))).
Proof.
  unfold can_remove. rewrite !andb_true_iff. intros [[Hfd Hfm] Hw].
  pose proof (data_meta_ne this url) as Hne.
  pose proof (data_file_ne_shard this url) as Hds.
  pose proof (meta_file_ne_shard this url) as Hms.
  set (fs2 := delete (meta_file this url) (delete (data_file this url) (w_fs w))).
  assert (Hrun : removeExpiredCacheUrl env this url w
                 = removeDirectoryIfEmpty (shard this url) (with_fs w fs2)).
  { unfold removeExpiredCacheUrl.
    fold (data_file this url) (meta_file this url). rewrite dirname_filename.
    assert (Hun : (unlink (data_file this url);; unlink (meta_file this url);;
                   removeDirectoryIfEmpty (shard this url)) w
                  = removeDirectoryIfEmpty (shard this url) (with_fs w fs2)).
    { rewrite (bind_Ok _ _ _ () (with_fs w (delete (data_file this url) (w_fs w)))).
      2:{ apply unlink_Ok; [done|]. by rewrite dirname_data_file. }
      rewrite (bind_Ok _ _ _ () (with_fs w fs2)); [done|].
      rewrite unlink_Ok; simpl; [done| |].
      - unfold is_file in *. by rewrite lookup_delete_ne.
      - rewrite dirname_meta_file. unfold dir_writable in *.
        by rewrite lookup_delete_ne. }
    unfold try_catch. rewrite Hun. by rewrite removeDirectoryIfEmpty_cases. }
  rewrite Hrun, removeDirectoryIfEmpty_cases. simpl.
  assert (Hdir : is_directory fs2 (shard this url) = true).
  { revert Hw. unfold is_directory, dir_writable, fs2.
    rewrite !lookup_delete_ne by done.
    by destruct (w_fs w !! shard this url) as [[|[|]]|]. }
  assert (Hparent : path_dirname (shard this url) = cachePath this).
  { unfold shard. apply path_dirname_join. }
  assert (Hcp : ∀ q, q = data_file this url ∨ q = meta_file this url ∨ q = shard this url →
                     q ≠ cachePath this).
  { intros q Hq E. apply (f_equal length) in E.
    destruct Hq as [->|[->| ->]];
      rewrite ?length_data_file, ?length_meta_file, ?length_shard in E; lia. }
  split.
  - intros Honly Hwp. rewrite decide_True; [done|].
    split; [done|]. split.
    + apply children_nil. intros p Hchild. unfold fs2.
      destruct (decide (p = meta_file this url)) as [->|Hpm]; [apply lookup_delete_eq|].
      rewrite lookup_delete_ne by done.
      destruct (decide (p = data_file this url)) as [->|Hpd]; [apply lookup_delete_eq|].
      rewrite lookup_delete_ne by done.
      destruct (w_fs w !! p) as [n|] eqn:E; [|done].
      destruct (Honly p Hchild) as [?|?]; [by eexists|done..].
    + rewrite Hparent. revert Hwp. unfold dir_writable, fs2.
      by rewrite !lookup_delete_ne by (apply Hcp; auto).
  - intros p Hchild [n Hn] Hpd Hpm. rewrite decide_False; [done|].
    intros (_ & Hnil & _). rewrite children_nil in Hnil.
    specialize (Hnil p Hchild). unfold fs2 in Hnil.
    rewrite !lookup_delete_ne in Hnil by done.
    by assert (Some n = None) by (rewrite <- Hn; exact Hnil).
Qed.

(** [removeExpiredCacheUrl] on half an entry.  Without the [.data] file it
    removes nothing: the [.meta] file, if there is one, stays, and [get]
    does not remove it either, however old it is.  Without the [.meta] file
    it removes the [.data] file and leaves the shard directory, empty or
    not.  Either way the [ENOENT] is passed to [log]. *)
Theorem removeExpiredCacheUrl_on_half_an_entry url w :
  (w_fs w !! data_file this url = None →
   removeExpiredCacheUrl env this url w
   = (Ok (), with_log w (w_log w ++ if DISABLE_LOGGING env then []
                                    else [LogRemoveUrlError url ENOENT]))
   ∧ get this url w = (Ok None, w))
  ∧ (is_file (w_fs w) (data_file this url) = true →
     dir_writable (w_fs w) (shard this url) = true →
     w_fs w !! meta_file this url = None →
     (removeExpiredCacheUrl env this url w).1 = Ok ()
     ∧ w_fs (removeExpiredCacheUrl env this url w).2 !! data_file this url = None
     ∧ is_directory (w_fs (removeExpiredCacheUrl env this url w).2) (shard this url)
       = true
     ∧ w_log (removeExpiredCacheUrl env this url w).2
       = w_log w ++ if DISABLE_LOGGING env then []
                    else [LogRemoveUrlError url ENOENT]).
Proof.
  destruct (removeExpiredCacheUrl_half url w) as [Hdata Hmeta].
  split; [exact Hdata|].
  intros Hf Hw Hm. rewrite (Hmeta Hf Hw Hm). simpl.
  split; [done|]. split; [apply lookup_delete_eq|]. split; [|done].
  revert Hw. unfold is_directory, dir_writable.
  rewrite lookup_delete_ne by apply data_file_ne_shard.
  by destruct (w_fs w !! shard this url) as [[|[|]]|].
Qed.

(** [removeExpiredCacheUrl] tidies the shard: where it can remove the two
    files, it also removes the shard directory if nothing else is in it (and
    the cache directory lets it), and keeps the shard directory, with
    whatever else it holds, otherwise. *)
Theorem removeExpiredCacheUrl_removes_emptied_shard url w :
  can_remove this url w = true →
  ((∀ p, is_child (shard this url) p → is_Some (w_fs w !! p) →
         p = data_file this url ∨ p = meta_file this url) →
   dir_writable (w_fs w) (cachePath this) = true →
   w_fs (removeExpiredCacheUrl env this url w).2 !! shard this url = None)
  ∧ (∀ p, is_child (shard this url) p → is_Some (w_fs w !! p) →
          p ≠ data_file this url → p ≠ meta_file this url →
          is_directory (w_fs (removeExpiredCacheUrl env this url w).2) (shard this url)
          = true
          ∧ w_fs (removeExpiredCacheUrl env this url w).2 !! p = w_fs w !! p).
Proof.
  intros Hremove.
  destruct (removeExpiredCacheUrl_shard url w Hremove) as [Hgone Hkept].
  split.
  - intros Honly Hw. rewrite (Hgone Honly Hw). apply lookup_delete_eq.
  - intros p Hchild Hp Hd Hm. rewrite (Hkept p Hchild Hp Hd Hm).
    revert Hremove. unfold can_remove, is_directory, dir_writable.
    rewrite !andb_true_iff. intros [_ Hw].
    rewrite !lookup_delete_ne
      by first [apply data_file_ne_shard|apply meta_file_ne_shard|done].
    split; [|done]. by destruct (w_fs w !! shard this url) as [[|[|]]|].
Qed.

Lemma ensureDirExists_effect dirPath w :
  (ensureDirExists env dirPath w).1 = Ok ()
  ∧ (is_Some (w_fs w !! dirPath) → ensureDirExists env dirPath w = (Ok (), w))
  ∧ (∀ p n, w_fs w !! p = Some n →
            w_fs (ensureDirExists env dirPath w).2 !! p = Some n)
  ∧ (w_fs w !! dirPath = None → dirPath ≠ [] →
     w_fs (ensureDirExists env dirPath w).2 !! dirPath = Some (Dir true (w_now w))
     ∨ ∃ e, ensureDirExists env dirPath w
            = (Ok (), with_log w (w_log w ++ if DISABLE_LOGGING env then []
                                  else [LogCannotAccessDirectory dirPath e]))).
Proof.
  rewrite ensureDirExists_cases.
  destruct (w_fs w !! dirPath) as [n0|] eqn:E.
  { split_and!; [done..|]. intros [=]. }
  destruct (fs_mkdir_recursive dirPath (w_now w) (w_fs w)) as [e|fs'] eqn:Emk.
  - rewrite log_spec. split_and!; [done|by intros [? ?]|done|].
    intros _ _. right. by exists e.
  - split_and!; [done|by intros [? ?]| |].
    + intros p n Hp. simpl.
      destruct (mkdir_from_lookup [] dirPath _ _ _ p Emk) as [Hsame|(Hn & _)];
        [exact (eq_trans Hsame Hp)|].
      by assert (Some n = None) by (rewrite <- Hp; exact Hn).
    + intros _ Hne. left. simpl.
      by apply (fs_mkdir_recursive_creates _ _ _ _ Emk).
Qed.

(** [ensureDirExists] never throws and removes nothing: a file is as it
    was and a directory stays a directory.  A path that is there is left
    alone, be it a file; a missing one is created with the directories on
    the way to it, or the error is passed to [log]. *)
Theorem ensureDirExists_never_throws dirPath w :
  (ensureDirExists env dirPath w).1 = Ok ()
  ∧ (is_Some (w_fs w !! dirPath) → ensureDirExists env dirPath w = (Ok (), w))
  ∧ (∀ p c t, w_fs w !! p = Some (File c t) →
              w_fs (ensureDirExists env dirPath w).2 !! p = Some (File c t))
  ∧ (∀ p, is_directory (w_fs w) p = true →
          is_directory (w_fs (ensureDirExists env dirPath w).2) p = true)
  ∧ (w_fs w !! dirPath = None → dirPath ≠ [] →
     w_fs (ensureDirExists env dirPath w).2 !! dirPath = Some (Dir true (w_now w))
     ∨ ∃ e, ensureDirExists env dirPath w
            = (Ok (), with_log w (w_log w ++ if DISABLE_LOGGING env then []
                                  else [LogCannotAccessDirectory dirPath e]))).
Proof.
  destruct (ensureDirExists_effect dirPath w) as (Hok & Hthere & Hkept & Hmissing).
  split; [exact Hok|]. split; [exact Hthere|].
  split; [intros p c t; apply Hkept|]. split; [|exact Hmissing].
  intros p Hdir. unfold is_directory in *.
  destruct (w_fs w !! p) as [[|b t]|] eqn:E; [done| |done].
  assert (Hp : w_fs w !! p = Some (Dir b t)) by exact E.
  assert (Hp' := Hkept p _ Hp).
  assert (E' : w_fs (ensureDirExists env dirPath w).2 !! p = Some (Dir b t)) by exact Hp'.
  by rewrite E'.
Qed.
End Removals.

(** ** Start-up *)

Section StartUp.
Context `{Platform} (env : environment).

(** [init] never throws.  When the cache directory is there (or anything
    else under its name) it leaves the filesystem as it is and schedules the
    sweep, a millisecond later; when it is missing, it creates it with the
    directories on the way to it, or passes the error to [log], and
    schedules no sweep. *)
Theorem init_never_throws w :
  (init env w).1 = Ok {| cachePath := CACHE_PATH env; ttl := CACHE_TTL env |}
  ∧ (is_Some (w_fs w !! CACHE_PATH env) →
     (init env w).2
     = with_timers w
         (w_timers w ++ [{| timer_due := w_now w + 1;
                            timer_callback := TCleanUpCacheDirectory (CACHE_PATH env) |}]))
  ∧ (w_fs w !! CACHE_PATH env = None →
     CACHE_PATH env ≠ [] →
     w_timers (init env w).2 = w_timers w
     ∧ ((w_fs (init env w).2 !! CACHE_PATH env = Some (Dir true (w_now w))
         ∧ w_log (init env w).2 = w_log w)
        ∨ ∃ e, (init env w).2
               = with_log w (w_log w ++ if DISABLE_LOGGING env then []
                             else [LogCannotCreateDirectory (CACHE_PATH env) e]))).
Proof.
  unfold init, constructor, startCleanup, setTimeout. simpl. mrun. unfold fs_access.
  destruct (w_fs w !! CACHE_PATH env) as [n|] eqn:E; simpl.
  { split; [done|]. split; [done|]. intros [=]. }
  destruct (fs_mkdir_recursive (CACHE_PATH env) (w_now w) (w_fs w)) as [e|fs'] eqn:Emk;
    simpl.
  - rewrite log_spec. simpl. split; [done|]. split; [by intros [? ?]|].
    intros _ _. split; [done|]. right. by exists e.
  - split; [done|]. split; [by intros [? ?]|].
    intros _ Hne. split; [done|]. left. split; [|done].
    by apply (fs_mkdir_recursive_creates _ _ _ _ Emk).
Qed.
End StartUp.

(** ** The sweep *)

Lemma is_directory_File fs (p : path) c t :
  fs !! p = Some (File c t) → is_directory fs p = false.
Proof. unfold is_directory. by intros ->. Qed.

Lemma last_path_join d x : List.last (path_join d x) EmptyString = x.
Proof. apply last_last. Qed.

Lemma prefix_of_path_join root d x : root `prefix_of` d → root `prefix_of` path_join d x.
Proof. intros Hp. by apply prefix_app_r. Qed.

(** What the sweep does to the world, it does in steps of four kinds: it
    logs, it sets the timer of an unexpired cache file, it unlinks an
    expired cache file, it removes an empty directory, all below the
    directory it was given.  A property of the world (and of the count of
    timers) that these steps keep is kept by the sweep, which never throws. *)
Section SweepInvariant.
Context `{Platform} (env : environment) (this : URLFileSystemCache) (root : path).
Variable I : Z → world → Prop.
Hypothesis I_log : ∀ k w line,
  I k w → I k (with_log w (w_log w ++ if DISABLE_LOGGING env then [] else [line])).
Hypothesis I_timer : ∀ k w dir name n,
  I k w → root `prefix_of` dir →
  w_fs w !! path_join dir name = Some n →
  cache_file_name name = true →
  w_now w - node_mtime n < ttl this * 1000 →
  I (k + 1)
    (with_timers w
       (w_timers w ++ [expiry_timer this (w_now w) (path_join dir name) (node_mtime n)])).
Hypothesis I_unlink : ∀ k w dir name c t,
  I k w → root `prefix_of` dir →
  w_fs w !! path_join dir name = Some (File c t) →
  cache_file_name name = true →
  ttl this * 1000 ≤ w_now w - t →
  I k (with_fs w (delete (path_join dir name) (w_fs w))).
Hypothesis I_rmdir : ∀ k w d,
  I k w → root `prefix_of` d →
  is_directory (w_fs w) d = true →
  (∀ p, is_child d p → w_fs w !! p = None) →
  I k (with_fs w (delete d (w_fs w))).

Lemma inv_log k w line : I k w → I k (log env line w).2.
Proof. intros Hi. rewrite log_spec. by apply I_log. Qed.

Lemma inv_removeDirectoryIfEmpty k w d :
  I k w → root `prefix_of` d →
  ∃ w', removeDirectoryIfEmpty d w = (Ok (), w') ∧ I k w'.
Proof.
  intros Hi Hd. rewrite removeDirectoryIfEmpty_cases. eexists. split; [done|].
  case_decide as Hc; [|done].
  destruct Hc as (Hdir & Hnil & _). apply I_rmdir; [done..|].
  by apply children_nil.
Qed.

Lemma inv_removeExpiredCacheFile k w dir name n :
  I k w → root `prefix_of` dir →
  w_fs w !! path_join dir name = Some n →
  cache_file_name name = true →
  ttl this * 1000 ≤ w_now w - node_mtime n →
  ∃ w', removeExpiredCacheFile env (path_join dir name) w = (Ok (), w') ∧ I k w'.
Proof.
  intros Hi Hd Hn Hname Hexp. unfold removeExpiredCacheFile, try_catch.
  unfold mbind, M_bind. rewrite unlink_cases.
  destruct (fs_unlink (path_join dir name) (w_fs w)) as [e|fs'] eqn:E.
  - rewrite log_spec. eexists. split; [done|]. by apply I_log.
  - rewrite path_dirname_join.
    assert (∃ c, n = File c (node_mtime n)) as [c Hfile].
    { unfold fs_unlink in E.
      assert (Hn' : w_fs w !! path_join dir name = Some n) by exact Hn.
      rewrite Hn' in E. destruct n; [by eexists|done]. }
    rewrite Hfile in Hn.
    destruct (inv_removeDirectoryIfEmpty k
                (with_fs w (delete (path_join dir name) (w_fs w))) dir)
      as (w' & -> & Hi'); [by eapply I_unlink|done|].
    by exists w'.
Qed.

Lemma inv_processEntries recur dir entries tot w :
  (∀ name tot w, I (totalTimersCreated tot) w →
     ∃ tot' w', recur (path_join dir name) tot w = (Ok tot', w')
                ∧ I (totalTimersCreated tot') w') →
  root `prefix_of` dir →
  I (totalTimersCreated tot) w →
  ∃ tot' w', processEntries env this recur dir entries tot w = (Ok tot', w')
             ∧ I (totalTimersCreated tot') w'.
Proof.
  intros Hrec Hd. revert tot w.
  induction entries as [|entry rest IH]; intros tot w Hi; simpl.
  { destruct (inv_removeDirectoryIfEmpty _ w dir Hi Hd) as (w' & Hr & Hi').
    rewrite (bind_Ok _ _ _ _ _ Hr). by exists tot, w'. }
  destruct (dirent_isDirectory entry).
  { destruct (Hrec (dirent_name entry) tot w Hi) as (tot1 & w1 & Hr & Hi1).
    rewrite (bind_Ok _ _ _ _ _ Hr). by apply IH. }
  fold (cache_file_name (dirent_name entry)).
  destruct (cache_file_name (dirent_name entry)) eqn:Hname; [|by apply IH].
  unfold mbind at 1, M_bind at 1. unfold attempt, try_catch, stat, fs_read, or_throw.
  unfold mbind at 1, M_bind at 1. unfold fs_stat.
  destruct (w_fs w !! path_join dir (dirent_name entry)) as [n|] eqn:Hn; simpl.
  2:{ unfold mbind, M_bind. rewrite log_spec. simpl. eexists _, _.
      split; [done|]. by apply I_log. }
  unfold isExpiredBasedOnMtime, Date_now. unfold mbind at 1 2, M_bind at 1 2. simpl.
  case_bool_decide as Hexp.
  - destruct (inv_removeExpiredCacheFile _ w dir (dirent_name entry) n Hi Hd Hn Hname Hexp)
      as (w' & Hr & Hi').
    rewrite Hr. by apply IH.
  - unfold mbind at 1, M_bind at 1. unfold setTimeout at 1.
    unfold mbind at 1, M_bind at 1.
    apply IH. simpl. apply I_timer; [done..|lia].
Qed.

Lemma inv_processDirectory depth dir tot w :
  root `prefix_of` dir →
  I (totalTimersCreated tot) w →
  ∃ tot' w', processDirectory env this depth dir tot w = (Ok tot', w')
             ∧ I (totalTimersCreated tot') w'.
Proof.
  revert dir tot w. induction depth as [|depth IH]; intros dir tot w Hd Hi; simpl.
  { unfold mbind, M_bind. rewrite log_spec. simpl. eexists _, _.
    split; [done|]. by apply I_log. }
  unfold mbind at 1, M_bind at 1. unfold attempt, try_catch, readdir, fs_read, or_throw.
  unfold mbind at 1, M_bind at 1.
  destruct (fs_readdir dir (w_fs w)) as [e|entries]; simpl.
  { unfold mbind, M_bind. rewrite log_spec. simpl. eexists _, _.
    split; [done|]. by apply I_log. }
  apply inv_processEntries; [|done..].
  intros name tot1 w1 Hi1. apply IH; [|done]. by apply prefix_of_path_join.
Qed.

Lemma inv_cleanUpCacheDirectory w :
  I 0 w →
  ∃ tot w', cleanUpCacheDirectory env this root w = (Ok tot, w')
            ∧ I (totalTimersCreated tot) w'.
Proof.
  intros Hi. unfold cleanUpCacheDirectory.
  unfold mbind at 1, M_bind at 1. rewrite log_spec.
  unfold mbind at 1, M_bind at 1.
  set (w1 := with_log w _).
  destruct (inv_processDirectory (tree_depth (w_fs w1)) root
              {| totalRemovedFiles := 0; totalRemovedSize := 0; totalTimersCreated := 0 |}
              w1) as (tot & w2 & Hr & Hi2); [done|by apply I_log|].
  rewrite (bind_Ok _ _ _ _ _ Hr).
  unfold mbind, M_bind. rewrite log_spec. simpl. eexists _, _.
  split; [done|]. by apply I_log.
Qed.
End SweepInvariant.

Section Sweep.
Context `{Platform} (env : environment) (this : URLFileSystemCache).

(** The sweep never throws, and the timers it reports are the timers it
    has set: each is for a [.data] or [.meta] file below the directory that
    has not reached the TTL, and is due when the file does (if that is no
    more than 2^31-1 ms away). *)
Theorem sweep_sets_the_timers_it_counts dirPath w :
  ∃ tot new,
    (cleanUpCacheDirectory env this dirPath w).1 = Ok tot
    ∧ w_timers (cleanUpCacheDirectory env this dirPath w).2 = w_timers w ++ new
    ∧ totalTimersCreated tot = Z.of_nat (length new)
    ∧ ∀ t, t ∈ new →
        ∃ filename n,
          t = expiry_timer this (w_now w) filename (node_mtime n)
          ∧ w_fs w !! filename = Some n
          ∧ below dirPath filename
          ∧ cache_file_name (List.last filename EmptyString) = true
          ∧ w_now w - node_mtime n < ttl this * 1000
          ∧ (ttl this * 1000 - (w_now w - node_mtime n) ≤ 2147483647 →
             timer_due t = node_mtime n + ttl this * 1000).
Proof.
  set (good := λ t : timer,
    ∃ filename n,
      t = expiry_timer this (w_now w) filename (node_mtime n)
      ∧ w_fs w !! filename = Some n
      ∧ below dirPath filename
      ∧ cache_file_name (List.last filename EmptyString) = true
      ∧ w_now w - node_mtime n < ttl this * 1000
      ∧ (ttl this * 1000 - (w_now w - node_mtime n) ≤ 2147483647 →
         timer_due t = node_mtime n + ttl this * 1000)).
  destruct (inv_cleanUpCacheDirectory env this dirPath
              (λ k w', w_now w' = w_now w ∧ w_fs w' ⊆ w_fs w
                       ∧ ∃ new, w_timers w' = w_timers w ++ new
                                ∧ k = Z.of_nat (length new)
                                ∧ ∀ t, t ∈ new → good t)) with (w := w)
    as (tot & w' & Hrun & _ & _ & new & Htimers & Hcount & Hgood).
  - intros k w1 line (Hnow & Hsub & Hnew). done.
  - intros k w1 dir name n (Hnow & Hsub & new & Htimers & -> & Hgood) Hd Hn Hname Hfresh.
    split; [done|]. split; [done|]. exists (new ++ [expiry_timer this (w_now w1)
      (path_join dir name) (node_mtime n)]). simpl. split; [by rewrite Htimers, app_assoc|].
    split; [rewrite length_app; simpl; lia|].
    intros t [Ht|Ht%list_elem_of_singleton]%elem_of_app; [by apply Hgood|].
    subst t. exists (path_join dir name), n. rewrite Hnow in *.
    split; [done|]. split; [by eapply lookup_weaken|].
    split.
    { split; [by apply prefix_of_path_join|].
      intros E. apply prefix_length in Hd. apply (f_equal length) in E.
      unfold path_join in E. rewrite length_app in E. simpl in E. lia. }
    split; [by rewrite last_path_join|]. split; [done|].
    intros Hmax. simpl. unfold timer_delay.
    destruct (Z.ltb_spec (ttl this * 1000 - (w_now w - node_mtime n)) 1); [lia|].
    destruct (Z.ltb_spec 2147483647 (ttl this * 1000 - (w_now w - node_mtime n)));
      simpl; lia.
  - intros k w1 dir name c t (Hnow & Hsub & Hnew) _ _ _ _.
    split; [done|]. split; [|done]. simpl.
    etrans; [apply delete_subseteq|done].
  - intros k w1 d (Hnow & Hsub & Hnew) _ _ _.
    split; [done|]. split; [|done]. simpl.
    etrans; [apply delete_subseteq|done].
  - split; [done|]. split; [done|]. exists [].
    split; [by rewrite app_nil_r|]. split; [done|]. by intros t ?%elem_of_nil.
  - exists tot, new. by rewrite Hrun.
Qed.

Lemma sweep_outside dirPath w p :
  ¬ dirPath `prefix_of` p →
  w_fs (cleanUpCacheDirectory env this dirPath w).2 !! p = w_fs w !! p.
Proof.
  intros Hout.
  destruct (inv_cleanUpCacheDirectory env this dirPath
              (λ _ w', w_fs w' !! p = w_fs w !! p)) with (w := w)
    as (tot & w' & -> & Hsame); try done.
  - intros _ w1 dir name c t Hsame Hd _ _ _. simpl.
    rewrite lookup_delete_ne; [done|].
    intros <-. by apply Hout, prefix_of_path_join.
  - intros _ w1 d Hsame Hd _ _. simpl.
    rewrite lookup_delete_ne; [done|]. by intros <-.
Qed.

(** Of the files, the sweep removes only [.data] and [.meta] files that
    have reached the TTL: a file with another name, or a younger one, is
    there after the sweep, as it was. *)
Theorem sweep_keeps_other_files dirPath w p c t :
  w_fs w !! p = Some (File c t) →
  cache_file_name (List.last p EmptyString) = false ∨ w_now w - t < ttl this * 1000 →
  w_fs (cleanUpCacheDirectory env this dirPath w).2 !! p = Some (File c t).
Proof.
  intros Hp Hkeep.
  destruct (inv_cleanUpCacheDirectory env this dirPath
              (λ _ w', w_now w' = w_now w ∧ w_fs w' !! p = Some (File c t)))
    with (w := w) as (tot & w' & -> & _ & Hsame); try done.
  - intros _ w1 dir name c' t' [Hnow Hsame] _ Hfile Hname Hexp. split; [done|]. simpl.
    rewrite lookup_delete_ne; [done|].
    intros <-. rewrite last_path_join in Hkeep.
    assert (Some (File c' t') = Some (File c t)) as [= -> ->]
      by (rewrite <- Hfile; exact Hsame).
    destruct Hkeep as [Hother|Hyoung]; [congruence|lia].
  - intros _ w1 d [Hnow Hsame] _ Hdir _. split; [done|]. simpl.
    rewrite lookup_delete_ne; [done|].
    intros E. rewrite E in Hdir. by rewrite (is_directory_File _ _ _ _ Hsame) in Hdir.
Qed.

Lemma sweep_of_empty_directory dirPath w :
  is_directory (w_fs w) dirPath = true →
  (∀ p, is_child dirPath p → w_fs w !! p = None) →
  dir_writable (w_fs w) (path_dirname dirPath) = true →
  (cleanUpCacheDirectory env this dirPath w).1
  = Ok {| totalRemovedFiles := 0; totalRemovedSize := 0; totalTimersCreated := 0 |}
  ∧ w_fs (cleanUpCacheDirectory env this dirPath w).2 = delete dirPath (w_fs w).
Proof.
  intros Hdir Hnone Hw. apply children_nil in Hnone.
  cut (∃ w', cleanUpCacheDirectory env this dirPath w
             = (Ok {| totalRemovedFiles := 0; totalRemovedSize := 0;
                      totalTimersCreated := 0 |}, w')
             ∧ w_fs w' = delete dirPath (w_fs w)).
  { by intros (w' & -> & Hfs). }
  unfold cleanUpCacheDirectory.
  unfold mbind at 1, M_bind at 1. rewrite log_spec.
  unfold mbind at 1, M_bind at 1.
  set (w1 := with_log w _).
  change (tree_depth (w_fs w1)) with (S (pred (tree_depth (w_fs w1)))).
  simpl processDirectory.
  unfold mbind at 1, M_bind at 1.
  unfold mbind at 1, M_bind at 1.
  unfold attempt, try_catch, readdir, fs_read, or_throw.
  unfold mbind at 1, M_bind at 1. unfold fs_readdir.
  unfold is_directory in Hdir. simpl.
  destruct (w_fs w !! dirPath) as [[|b t]|] eqn:E; [done| |done].
  rewrite Hnone. simpl.
  unfold mbind at 1, M_bind at 1. rewrite removeDirectoryIfEmpty_cases.
  rewrite decide_True.
  2:{ subst w1. unfold is_directory. simpl. by rewrite E. }
  simpl. unfold mbind, M_bind. rewrite log_spec. by eexists.
Qed.

(** The sweep of a directory changes nothing outside of it: there, a file
    is as it was, a directory stays a directory, and nothing appears. *)
Theorem sweep_stays_below dirPath w p :
  ¬ dirPath `prefix_of` p →
  (∀ c t, w_fs w !! p = Some (File c t) →
          w_fs (cleanUpCacheDirectory env this dirPath w).2 !! p = Some (File c t))
  ∧ (is_directory (w_fs w) p = true →
     is_directory (w_fs (cleanUpCacheDirectory env this dirPath w).2) p = true)
  ∧ (w_fs w !! p = None →
     w_fs (cleanUpCacheDirectory env this dirPath w).2 !! p = None).
Proof. intros Hout. by apply same_node, sweep_outside. Qed.

(** The sweep of a directory with no entry removes the directory itself,
    be it the cache directory, and reports that it removed no file and set
    no timer. *)
Theorem sweep_removes_empty_directory dirPath w :
  is_directory (w_fs w) dirPath = true →
  (∀ p, is_child dirPath p → w_fs w !! p = None) →
  dir_writable (w_fs w) (path_dirname dirPath) = true →
  (cleanUpCacheDirectory env this dirPath w).1
  = Ok {| totalRemovedFiles := 0; totalRemovedSize := 0; totalTimersCreated := 0 |}
  ∧ w_fs (cleanUpCacheDirectory env this dirPath w).2 !! dirPath = None.
Proof.
  intros Hdir Hempty Hw.
  destruct (sweep_of_empty_directory dirPath w Hdir Hempty Hw) as [-> ->].
  split; [done|]. apply lookup_delete_eq.
Qed.
End Sweep.

(** ** Logging *)

Section Quiet.
Context `{Platform} (env : environment).

Lemma quiet_ret {A} (a : A) : quiet (mret a).
Proof. by intros w. Qed.

Lemma quiet_bind {A B} (m : M A) (f : A → M B) :
  quiet m → (∀ a, quiet (f a)) → quiet (m ≫= f).
Proof.
  intros Hm Hf w. unfold mbind, M_bind. specialize (Hm w).
  destruct (m w) as [[a|e] w']; [|done]. simpl in Hm. rewrite <- Hm. apply Hf.
Qed.

Lemma quiet_try_catch {A} (body : M A) handler :
  quiet body → (∀ e, quiet (handler e)) → quiet (try_catch body handler).
Proof.
  intros Hm Hf w. unfold try_catch. specialize (Hm w).
  destruct (body w) as [[a|e] w']; [done|]. simpl in Hm. rewrite <- Hm. apply Hf.
Qed.

Lemma quiet_attempt {A} (body : M A) : quiet body → quiet (attempt body).
Proof.
  intros Hb. apply quiet_try_catch; [|intros; apply quiet_ret].
  apply quiet_bind; [done|intros; apply quiet_ret].
Qed.

Lemma quiet_or_throw {A} (r : error + A) : quiet (or_throw r).
Proof. intros w. unfold or_throw. by destruct r. Qed.

Lemma quiet_fs_read {A} (op : filesystem → error + A) : quiet (fs_read op).
Proof. intros w. unfold fs_read, or_throw. by destruct (op (w_fs w)). Qed.

Lemma quiet_fs_write op : quiet (fs_write op).
Proof. intros w. unfold fs_write. by destruct (op (w_fs w)). Qed.

Lemma quiet_Date_now : quiet Date_now.
Proof. by intros w. Qed.

Lemma quiet_setTimeout callback ms : quiet (setTimeout callback ms).
Proof. by intros w. Qed.

Lemma quiet_if {A} (b : bool) (m1 m2 : M A) :
  quiet m1 → quiet m2 → quiet (if b then m1 else m2).
Proof. by destruct b. Qed.

Lemma quiet_writeFile p c : quiet (writeFile p c).
Proof. apply quiet_bind; [apply quiet_Date_now|intros; apply quiet_fs_write]. Qed.

Lemma quiet_mkdir_recursive p : quiet (mkdir_recursive p).
Proof. apply quiet_bind; [apply quiet_Date_now|intros; apply quiet_fs_write]. Qed.

Hypothesis disabled : DISABLE_LOGGING env = true.

Lemma quiet_log line : quiet (log env line).
Proof. intros w. unfold log. by rewrite disabled. Qed.

Create HintDb quiet_db.
#[local] Hint Resolve quiet_log quiet_setTimeout quiet_Date_now quiet_writeFile
  quiet_mkdir_recursive quiet_fs_read quiet_fs_write quiet_or_throw : quiet_db.

Ltac solve_quiet :=
  repeat match goal with
    | |- quiet (mret _) => apply quiet_ret
    | |- quiet (_ ≫= _) => apply quiet_bind; [|intros ?]
    | |- quiet (try_catch _ _) => apply quiet_try_catch; [|intros ?]
    | |- quiet (attempt _) => apply quiet_attempt
    | |- quiet (if _ then _ else _) => apply quiet_if
    | |- quiet (match ?x with left _ => _ | right _ => _ end) => destruct x
    | |- quiet (match ?x with inl _ => _ | inr _ => _ end) => destruct x
    | |- quiet (match ?x with Some _ => _ | None => _ end) => destruct x
    | |- quiet (access _) => apply quiet_fs_read
    | |- quiet (stat _) => apply quiet_fs_read
    | |- quiet (readFile _) => apply quiet_fs_read
    | |- quiet (readdir _) => apply quiet_fs_read
    | |- quiet (unlink _) => apply quiet_fs_write
    | |- quiet (rmdir _) => apply quiet_fs_write
    | |- quiet _ => solve [auto with quiet_db]
    end.

Lemma quiet_ensureDirExists d : quiet (ensureDirExists env d).
Proof. unfold ensureDirExists. solve_quiet. Qed.

Lemma quiet_removeDirectoryIfEmpty d : quiet (removeDirectoryIfEmpty d).
Proof. unfold removeDirectoryIfEmpty. solve_quiet. Qed.
#[local] Hint Resolve quiet_ensureDirExists quiet_removeDirectoryIfEmpty : quiet_db.

Lemma quiet_removeExpiredCacheFile filename :
  quiet (removeExpiredCacheFile env filename).
Proof. unfold removeExpiredCacheFile. solve_quiet. Qed.

Lemma quiet_removeExpiredCacheUrl this url : quiet (removeExpiredCacheUrl env this url).
Proof. unfold removeExpiredCacheUrl. solve_quiet. Qed.

Lemma quiet_set this url statusCode headers value :
  quiet (set env this url statusCode headers value).
Proof. unfold set. solve_quiet. Qed.

Lemma quiet_get this url : quiet (get this url).
Proof. unfold get, isFileExpired, isExpiredBasedOnMtime, gunzip, parse. solve_quiet. Qed.
#[local] Hint Resolve quiet_removeExpiredCacheFile quiet_removeExpiredCacheUrl
  quiet_set quiet_get : quiet_db.

Lemma quiet_processEntries this recur dir entries tot :
  (∀ p t, quiet (recur p t)) →
  quiet (processEntries env this recur dir entries tot).
Proof.
  intros Hrec. revert tot.
  induction entries as [|entry rest IH]; intros tot; simpl; [solve_quiet|].
  unfold isExpiredBasedOnMtime. solve_quiet.
Qed.

Lemma quiet_processDirectory this depth dir tot :
  quiet (processDirectory env this depth dir tot).
Proof.
  revert dir tot. induction depth as [|depth IH]; intros dir tot; simpl; solve_quiet.
  by apply quiet_processEntries.
Qed.
#[local] Hint Resolve quiet_processDirectory : quiet_db.

Lemma quiet_cleanUpCacheDirectory this dirPath :
  quiet (cleanUpCacheDirectory env this dirPath).
Proof. unfold cleanUpCacheDirectory. solve_quiet. Qed.

Lemma quiet_startCleanup this : quiet (startCleanup env this).
Proof. unfold startCleanup. solve_quiet. Qed.

Lemma quiet_requestReceived cache req : quiet (requestReceived env cache req).
Proof. unfold requestReceived. solve_quiet. Qed.

Lemma quiet_beforeSend cache req : quiet (beforeSend env cache req).
Proof. unfold beforeSend. solve_quiet. Qed.

Lemma quiet_fireTimer this i : quiet (fireTimer env this i).
Proof.
  intros w. unfold fireTimer. destruct (w_timers w !! i) as [t|]; [|done].
  case_decide; [|done].
  destruct (timer_callback t); simpl.
  - by rewrite bind_mret_snd, quiet_cleanUpCacheDirectory.
  - by rewrite quiet_removeExpiredCacheUrl.
  - by rewrite quiet_removeExpiredCacheFile.
Qed.

Lemma quiet_step this ev w : w_log (step env this ev w) = w_log w.
Proof.
  destruct ev; simpl.
  - done.
  - by rewrite quiet_startCleanup.
  - apply quiet_set.
  - apply quiet_get.
  - apply quiet_requestReceived.
  - apply quiet_beforeSend.
  - apply quiet_fireTimer.
Qed.
End Quiet.

(** With [DISABLE_LOGGING] set the program logs nothing: not at start-up,
    and not whatever happens to the process afterwards (calls of [set] and
    [get], the hooks, timers and sweeps, restarts), errors included. *)
Theorem nothing_logged_when_logging_is_disabled `{Platform} env this evs w :
  DISABLE_LOGGING env = true →
  w_log (init env w).2 = w_log w
  ∧ w_log (run env this evs w) = w_log w.
Proof.
  intros Hdisabled. split.
  - unfold init, constructor. rewrite bind_mret_snd. by apply quiet_startCleanup.
  - revert w. induction evs as [|ev evs IH]; intros w; simpl; [done|].
    rewrite IH. by apply quiet_step.
Qed.

(** ** The sweep is complete *)

Lemma is_directory_is_Some fs (p : path) : is_directory fs p = true → is_Some (fs !! p).
Proof. unfold is_directory. destruct (fs !! p); [by eexists|done]. Qed.

(** In a well-formed filesystem the path to a node leads through
    directories. *)
Lemma well_formed_ancestor fs q rest :
  well_formed fs → is_Some (fs !! (q ++ rest)) → rest ≠ [] →
  is_directory fs q = true.
Proof.
  intros Hwf. induction rest as [|y rest IH] using rev_ind; [done|].
  intros Hp _.
  assert (Hparent : is_directory fs (q ++ rest) = true).
  { specialize (Hwf (q ++ rest ++ [y]) Hp). rewrite app_assoc in Hwf.
    unfold path_dirname in Hwf. rewrite removelast_last in Hwf.
    apply Hwf. by destruct (q ++ rest). }
  destruct (decide (rest = [])) as [->|Hne]; [by rewrite app_nil_r in Hparent|].
  apply IH; [|done]. by apply is_directory_is_Some.
Qed.

Lemma well_formed_delete_file fs (f : path) c t :
  well_formed fs → fs !! f = Some (File c t) → well_formed (delete f fs).
Proof.
  intros Hwf Hf p [n Hp] Hne. apply lookup_delete_Some in Hp as [Hpf Hp].
  specialize (Hwf p (mk_is_Some _ _ Hp) Hne).
  assert (Hparent : f ≠ path_dirname p).
  { intros E. rewrite <- E in Hwf. by rewrite (is_directory_File _ _ _ _ Hf) in Hwf. }
  unfold is_directory in *. by rewrite lookup_delete_ne.
Qed.

Lemma well_formed_delete_empty fs (d : path) :
  well_formed fs → (∀ p, is_child d p → fs !! p = None) → well_formed (delete d fs).
Proof.
  intros Hwf Hempty p [n Hp] Hne. apply lookup_delete_Some in Hp as [Hpd Hp].
  specialize (Hwf p (mk_is_Some _ _ Hp) Hne).
  assert (Hparent : d ≠ path_dirname p).
  { intros E. assert (Hnone : fs !! p = None) by (apply Hempty; by split).
    by assert (Some n = None) by (rewrite <- Hp; exact Hnone). }
  unfold is_directory in *. by rewrite lookup_delete_ne.
Qed.

Lemma all_writable_subseteq fs fs' : fs' ⊆ fs → all_writable fs → all_writable fs'.
Proof.
  intros Hsub Hall d Hd. specialize (Hall d).
  unfold is_directory, dir_writable in *.
  destruct (fs' !! d) as [[|b t]|] eqn:E; [done| |done].
  rewrite (lookup_weaken _ _ _ _ E Hsub) in Hall. by apply Hall.
Qed.

Lemma paths_within_subseteq n fs fs' :
  fs' ⊆ fs → paths_within n fs → paths_within n fs'.
Proof. intros Hsub Hn p [x Hp]. apply Hn. exists x. by eapply lookup_weaken. Qed.

Section Sweeps.
Context (A : path → Prop).

Lemma sweeps_refl w : sweeps A w w.
Proof. split_and!; try done. exists []. by rewrite app_nil_r. Qed.

Lemma sweeps_trans w1 w2 w3 : sweeps A w1 w2 → sweeps A w2 w3 → sweeps A w1 w3.
Proof.
  intros (Hnow1 & Hsub1 & [new1 Ht1] & Hout1 & Hwf1)
         (Hnow2 & Hsub2 & [new2 Ht2] & Hout2 & Hwf2).
  split_and!.
  - congruence.
  - by etrans.
  - exists (new1 ++ new2). by rewrite Ht2, Ht1, app_assoc.
  - intros p Hp. by rewrite Hout2, Hout1.
  - auto.
Qed.

Lemma sweeps_log w lines : sweeps A w (with_log w lines).
Proof. split_and!; try done. exists []. by rewrite app_nil_r. Qed.

Lemma sweeps_timer w t : sweeps A w (with_timers w (w_timers w ++ [t])).
Proof. split_and!; try done. by exists [t]. Qed.

Lemma sweeps_unlink w (f : path) c t :
  w_fs w !! f = Some (File c t) → A f → sweeps A w (with_fs w (delete f (w_fs w))).
Proof.
  intros Hf Ha. split_and!; simpl.
  - done.
  - apply delete_subseteq.
  - exists []. by rewrite app_nil_r.
  - intros p Hp. apply lookup_delete_ne. by intros <-.
  - intros Hwf. by eapply well_formed_delete_file.
Qed.

Lemma sweeps_rmdir w (d : path) :
  (∀ p, is_child d p → w_fs w !! p = None) → A d →
  sweeps A w (with_fs w (delete d (w_fs w))).
Proof.
  intros Hempty Ha. split_and!; simpl.
  - done.
  - apply delete_subseteq.
  - exists []. by rewrite app_nil_r.
  - intros p Hp. apply lookup_delete_ne. by intros <-.
  - intros Hwf. by apply well_formed_delete_empty.
Qed.
End Sweeps.

Lemma sweeps_weaken (A B : path → Prop) w w' :
  (∀ p, A p → B p) → sweeps A w w' → sweeps B w w'.
Proof.
  intros Hab (Hnow & Hsub & Ht & Hout & Hwf). split_and!; try done.
  intros p Hp. apply Hout. auto.
Qed.

(** What [fs.readdir] lists: every entry of the directory, once, with its
    kind. *)
Lemma is_child_join d p : is_child d p → p = path_join d (List.last p EmptyString).
Proof.
  intros [Hne <-]. unfold path_join, path_dirname. by apply app_removelast_last.
Qed.

Lemma fs_readdir_is_directory fs (dir : path) :
  is_directory fs dir = true → ∃ entries, fs_readdir dir fs = inr entries.
Proof.
  unfold is_directory, fs_readdir. destruct (fs !! dir) as [[|]|]; [done| |done].
  by eexists.
Qed.

Lemma fs_readdir_entries dir fs entries :
  fs_readdir dir fs = inr entries →
  NoDup (dirent_name <$> entries)
  ∧ (∀ e, e ∈ entries →
          ∃ nd, fs !! path_join dir (dirent_name e) = Some nd
                ∧ node_isDirectory nd = dirent_isDirectory e)
  ∧ (∀ x, is_Some (fs !! path_join dir x) → x ∈ dirent_name <$> entries).
Proof.
  unfold fs_readdir. destruct (fs !! dir) as [[|]|]; [done| |done].
  intros [= <-]. rewrite <- list_fmap_compose.
  assert (Hin : ∀ p nd, (p, nd) ∈ children fs dir ↔ fs !! p = Some nd ∧ is_child dir p).
  { intros p nd. unfold children.
    by rewrite elem_of_map_to_list, map_lookup_filter_Some. }
  split_and!.
  - apply NoDup_fmap_2_strong; [|apply NoDup_map_to_list].
    intros [p nd] [p' nd'] [Hp Hc]%Hin [Hp' Hc']%Hin. simpl. intros Hlast.
    apply is_child_join in Hc, Hc'. rewrite Hlast in Hc.
    assert (p = p') as -> by congruence.
    assert (Some nd = Some nd') as [= ->] by (rewrite <- Hp, <- Hp'; done). done.
  - intros e ([p nd] & -> & [Hp Hc]%Hin)%list_elem_of_fmap. simpl.
    exists nd. by rewrite <- (is_child_join dir p).
  - intros x [nd Hx]. apply list_elem_of_fmap. exists (path_join dir x, nd). simpl.
    split; [by rewrite last_path_join|]. apply Hin. split; [done|].
    split; [unfold path_join; by destruct dir|apply path_dirname_join].
Qed.

Lemma below_app d p : below d p → ∃ x rest, p = d ++ x :: rest.
Proof.
  intros [[k ->] Hne]. destruct k as [|x rest]; [by rewrite app_nil_r in Hne|].
  by exists x, rest.
Qed.

Section Complete.
Context `{Platform} (env : environment) (this : URLFileSystemCache).

Lemma removeDirectoryIfEmpty_sweeps d w :
  ∃ w', removeDirectoryIfEmpty d w = (Ok (), w') ∧ sweeps (λ p, p = d) w w'.
Proof.
  rewrite removeDirectoryIfEmpty_cases. eexists. split; [done|].
  case_decide as Hc; [|apply sweeps_refl].
  destruct Hc as (_ & Hnil & _). apply sweeps_rmdir; [by apply children_nil|done].
Qed.

Lemma processDirectory_sweeps depth dir tot w :
  ∃ tot' w', processDirectory env this depth dir tot w = (Ok tot', w')
             ∧ sweeps (λ p, dir `prefix_of` p) w w'.
Proof.
  apply (inv_processDirectory env this dir
           (λ _ w', sweeps (λ p, dir `prefix_of` p) w w')).
  - intros _ w1 line Hs. eapply sweeps_trans; [done|apply sweeps_log].
  - intros _ w1 d name n Hs _ _ _ _. eapply sweeps_trans; [done|apply sweeps_timer].
  - intros _ w1 d name c t Hs Hd Hf _ _. eapply sweeps_trans; [done|].
    eapply sweeps_unlink; [done|]. by apply prefix_of_path_join.
  - intros _ w1 d Hs Hd _ Hempty. eapply sweeps_trans; [done|]. by apply sweeps_rmdir.
  - done.
  - apply sweeps_refl.
Qed.

Lemma handled_later now w1 w' p :
  handled this now w1 p →
  w_fs w' ⊆ w_fs w1 →
  (∃ new, w_timers w' = w_timers w1 ++ new) →
  handled this now w' p.
Proof.
  intros Hh Hsub [new Ht] c t Hp Hname.
  destruct (Hh c t) as [Hfresh Htimer]; [by eapply lookup_weaken|done|].
  split; [done|]. rewrite Ht. apply elem_of_app. by left.
Qed.

(** The loop of [processDirectory] over the entries that [fs.readdir]
    listed: no [fs.stat] fails, so that every entry is reached, and each is
    dealt with, the directories by the recursive call. *)
Lemma processEntries_complete n d dir :
  (∀ sub tot w,
     well_formed (w_fs w) → all_writable (w_fs w) → paths_within n (w_fs w) →
     (n < d + length sub)%nat →
     ∀ p, below sub p →
          handled this (w_now w) (processDirectory env this d sub tot w).2 p) →
  ∀ entries tot w,
    well_formed (w_fs w) → all_writable (w_fs w) → paths_within n (w_fs w) →
    (n < S d + length dir)%nat →
    NoDup (dirent_name <$> entries) →
    (∀ e, e ∈ entries →
          ∃ nd, w_fs w !! path_join dir (dirent_name e) = Some nd
                ∧ node_isDirectory nd = dirent_isDirectory e) →
    ∃ tot' w',
      processEntries env this (processDirectory env this d) dir entries tot w
      = (Ok tot', w')
      ∧ sweeps (λ p, p = dir ∨ ∃ x rest, x ∈ dirent_name <$> entries
                                         ∧ p = dir ++ x :: rest) w w'
      ∧ ∀ x rest, x ∈ dirent_name <$> entries →
                  handled this (w_now w) w' (dir ++ x :: rest).
Proof.
  intros IHd. induction entries as [|e rest IH]; intros tot w Hwf Hall Hn Hlen Hnd Hex.
  { simpl. destruct (removeDirectoryIfEmpty_sweeps dir w) as (w' & Hr & Hs).
    rewrite (bind_Ok _ _ _ _ _ Hr). exists tot, w'. split; [done|]. split.
    - eapply sweeps_weaken; [|done]. intros p ->. by left.
    - intros x rest' Hx. by apply elem_of_nil in Hx. }
  rewrite fmap_cons in Hnd. apply NoDup_cons in Hnd as [Hx0 Hnd].
  destruct (Hex e) as (nd & Hnode & Hkind); [left|].
  simpl processEntries.
  set (x0 := dirent_name e) in *. set (f := path_join dir x0) in *.
  assert (Hf : ∀ rest', dir ++ x0 :: rest' = f ++ rest').
  { intros rest'. unfold f, path_join. by rewrite <- app_assoc. }
  assert (Htail : ∀ tot1 w1,
    sweeps (λ p, p = dir ∨ ∃ rest', p = dir ++ x0 :: rest') w w1 →
    (∀ rest', handled this (w_now w) w1 (dir ++ x0 :: rest')) →
    ∃ tot' w',
      processEntries env this (processDirectory env this d) dir rest tot1 w1
      = (Ok tot', w')
      ∧ sweeps (λ p, p = dir ∨ ∃ x rest', x ∈ dirent_name <$> e :: rest
                                          ∧ p = dir ++ x :: rest') w w'
      ∧ ∀ x rest', x ∈ dirent_name <$> e :: rest →
                   handled this (w_now w) w' (dir ++ x :: rest')).
  { intros tot1 w1 Hs1 Hh1.
    pose proof Hs1 as (Hnow1 & Hsub1 & Hnew1 & Hout1 & Hwf1).
    destruct (IH tot1 w1) as (tot' & w' & Hrun & Hs & Hh).
    - auto.
    - by eapply all_writable_subseteq.
    - by eapply paths_within_subseteq.
    - done.
    - done.
    - intros e' He'. destruct (Hex e') as (nd' & Hnode' & Hkind'); [by right|].
      exists nd'. split; [|done]. rewrite Hout1; [done|].
      intros [E|(rest' & E)].
      + by apply path_join_ne_dir in E.
      + unfold path_join in E. apply app_inv_head in E. injection E as E _.
        apply Hx0. rewrite <- E. apply list_elem_of_fmap. by exists e'.
    - exists tot', w'. split; [done|]. split.
      + eapply sweeps_trans.
        * eapply sweeps_weaken; [|exact Hs1].
          intros p [->|(rest' & ->)]; [by left|].
          right. exists x0, rest'. split; [left|done].
        * eapply sweeps_weaken; [|exact Hs].
          intros p [->|(x & rest' & Hx & ->)]; [by left|].
          right. exists x, rest'. split; [by right|done].
      + intros x rest' [->|Hx]%elem_of_cons.
        * destruct Hs as (_ & Hsub & Hnew & _). by eapply handled_later.
        * rewrite <- Hnow1. by apply Hh. }
  assert (Hdeep : ∀ w1 y rest',
    w_fs w1 ⊆ w_fs w → node_isDirectory nd = false →
    handled this (w_now w) w1 (dir ++ x0 :: y :: rest')).
  { intros w1 y rest' Hsub Hfile c t Hp _. exfalso.
    assert (Hdir : is_directory (w_fs w) f = true).
    { apply (well_formed_ancestor _ f (y :: rest')); [done| |done].
      rewrite <- Hf. eexists. by eapply lookup_weaken. }
    unfold is_directory in Hdir.
    assert (Hnode' : w_fs w !! f = Some nd) by exact Hnode.
    rewrite Hnode' in Hdir. by destruct nd. }
  destruct (dirent_isDirectory e) eqn:Hflag.
  { destruct (processDirectory_sweeps d f tot w) as (tot1 & w1 & Hr & Hs1).
    rewrite (bind_Ok _ _ _ _ _ Hr). apply Htail.
    - eapply sweeps_weaken; [|done]. intros p [k ->]. right. exists k. by rewrite Hf.
    - intros [|y rest'] c t Hp Hname.
      + exfalso. destruct Hs1 as (_ & Hsub & _).
        pose proof (lookup_weaken _ _ _ _ Hp Hsub) as Hp'.
        assert (Some nd = Some (File c t)) as [= ->] by (rewrite <- Hnode; exact Hp').
        done.
      + assert (Hw1 : w1 = (processDirectory env this d f tot w).2) by (by rewrite Hr).
        rewrite Hw1 in Hp |- *.
        refine (IHd f tot w Hwf Hall Hn _ (dir ++ x0 :: y :: rest') _ c t Hp Hname).
        * unfold f, path_join. rewrite length_app. simpl. lia.
        * split; [rewrite Hf; by apply prefix_app_r|].
          rewrite Hf. intros E. apply (f_equal length) in E.
          rewrite length_app in E. simpl in E. lia. }
  assert (Hfile : node_isDirectory nd = false) by done.
  fold (cache_file_name x0). destruct (cache_file_name x0) eqn:Hname.
  2:{ apply Htail; [apply sweeps_refl|]. intros [|y rest']; [|by apply Hdeep].
      intros c t _. rewrite last_last. congruence. }
  unfold mbind at 1, M_bind at 1. unfold attempt, try_catch, stat, fs_read, or_throw.
  unfold mbind at 1, M_bind at 1. unfold fs_stat.
  assert (Hnode' : w_fs w !! f = Some nd) by exact Hnode.
  rewrite Hnode'. simpl.
  unfold isExpiredBasedOnMtime, Date_now. unfold mbind at 1 2, M_bind at 1 2. simpl.
  destruct nd as [c0 t0|]; [|done]. simpl.
  case_bool_decide as Hexp.
  - assert (Hdir : dir_writable (w_fs w) dir = true).
    { apply Hall. rewrite <- (path_dirname_join dir x0). apply Hwf; [by eexists|].
      unfold path_join. by destruct dir. }
    assert (Hrm : removeExpiredCacheFile env f w
                  = removeDirectoryIfEmpty dir (with_fs w (delete f (w_fs w)))).
    { unfold removeExpiredCacheFile, try_catch. unfold mbind, M_bind.
      rewrite unlink_cases. unfold fs_unlink. rewrite Hnode'.
      unfold f at 1. rewrite path_dirname_join, Hdir.
      unfold f. rewrite path_dirname_join.
      by rewrite removeDirectoryIfEmpty_cases. }
    destruct (removeDirectoryIfEmpty_sweeps dir (with_fs w (delete f (w_fs w))))
      as (w1 & Hr & Hs1).
    rewrite Hrm, Hr. apply Htail.
    + eapply sweeps_trans.
      * eapply sweeps_unlink; [exact Hnode'|]. right. exists []. done.
      * eapply sweeps_weaken; [|exact Hs1]. intros p ->. by left.
    + intros [|y rest'].
      * intros c t Hp _. exfalso. destruct Hs1 as (_ & Hsub & _).
        pose proof (lookup_weaken _ _ _ _ Hp Hsub) as Hp'. simpl in Hp'.
        assert (Hgone : delete f (w_fs w) !! f = None) by apply lookup_delete_eq.
        by assert (Some (File c t) = None) by (rewrite <- Hp'; exact Hgone).
      * apply Hdeep; [|done]. destruct Hs1 as (_ & Hsub & _).
        etrans; [exact Hsub|]. apply delete_subseteq.
  - unfold mbind at 1, M_bind at 1. unfold setTimeout at 1.
    unfold mbind at 1, M_bind at 1.
    apply Htail; [apply sweeps_timer|]. intros [|y rest']; [|by apply Hdeep].
    intros c t Hp _. simpl in Hp.
    assert (Some (File c0 t0) = Some (File c t)) as [= -> ->]
      by (rewrite <- Hnode'; exact Hp).
    split; [lia|]. simpl. apply elem_of_app. right. apply list_elem_of_singleton. done.
Qed.

Lemma processDirectory_complete n depth :
  ∀ dir tot w,
    well_formed (w_fs w) → all_writable (w_fs w) → paths_within n (w_fs w) →
    (n < depth + length dir)%nat →
    ∀ p, below dir p →
         handled this (w_now w) (processDirectory env this depth dir tot w).2 p.
Proof.
  induction depth as [|depth IH]; intros dir tot w Hwf Hall Hn Hlen p Hbelow.
  { intros c t Hp _. exfalso. simpl in Hp. rewrite bind_mret_snd, log_fs in Hp.
    specialize (Hn p (mk_is_Some _ _ Hp)).
    destruct (below_app _ _ Hbelow) as (x & rest & ->).
    rewrite length_app in Hn. simpl in *. lia. }
  destruct (below_app _ _ Hbelow) as (x & rest & ->).
  simpl. unfold mbind at 1, M_bind at 1.
  unfold attempt, try_catch, readdir, fs_read, or_throw.
  unfold mbind at 1, M_bind at 1.
  destruct (fs_readdir dir (w_fs w)) as [e|entries] eqn:E; simpl.
  { intros c t Hp _. exfalso. rewrite bind_mret_snd, log_fs in Hp.
    assert (Hdir : is_directory (w_fs w) dir = true).
    { apply (well_formed_ancestor _ dir (x :: rest)); [done|by eexists|done]. }
    destruct (fs_readdir_is_directory _ _ Hdir) as [entries E'].
    by assert (inl e = inr entries) by (rewrite <- E; exact E'). }
  destruct (fs_readdir_entries _ _ _ E) as (Hnd & Hex & Hall_listed).
  destruct (processEntries_complete n depth dir IH entries tot w)
    as (tot' & w' & -> & Hs & Hh); [done..|].
  simpl. intros c t Hp Hname. refine (Hh x rest _ c t Hp Hname).
  apply Hall_listed. destruct Hs as (_ & Hsub & _).
  pose proof (lookup_weaken _ _ _ _ Hp Hsub) as Hp'.
  destruct rest as [|y rest]; [by eexists|].
  apply is_directory_is_Some.
  apply (well_formed_ancestor _ (path_join dir x) (y :: rest)); [done| |done].
  unfold path_join. rewrite <- app_assoc. by eexists.
Qed.

(** The sweep deals with every file of the cache below the directory, in a
    filesystem whose directories can be written: after it, a [.data] or
    [.meta] file that is still there has not reached the TTL, and the timer
    that removes it when it does is set. *)
Theorem sweep_handles_every_cache_file dirPath w p c t :
  well_formed (w_fs w) →
  all_writable (w_fs w) →
  below dirPath p →
  w_fs (cleanUpCacheDirectory env this dirPath w).2 !! p = Some (File c t) →
  cache_file_name (List.last p EmptyString) = true →
  w_now w - t < ttl this * 1000
  ∧ expiry_timer this (w_now w) p t
    ∈ w_timers (cleanUpCacheDirectory env this dirPath w).2.
Proof.
  intros Hwf Hall Hbelow.
  set (w1 := with_log w (w_log w ++ if DISABLE_LOGGING env then []
                                    else [LogRemovingExpired])).
  pose proof (processDirectory_complete (pred (tree_depth (w_fs w1)))
                (tree_depth (w_fs w1)) dirPath
                {| totalRemovedFiles := 0; totalRemovedSize := 0;
                   totalTimersCreated := 0 |} w1 Hwf Hall
                (paths_within_tree_depth _)) as Hdone.
  destruct (processDirectory_sweeps (tree_depth (w_fs w1)) dirPath
              {| totalRemovedFiles := 0; totalRemovedSize := 0;
                 totalTimersCreated := 0 |} w1) as (tot & w2 & Hr & _).
  assert (Hrun : ∃ lines, cleanUpCacheDirectory env this dirPath w
                          = (Ok tot, with_log w2 lines)).
  { unfold cleanUpCacheDirectory.
    unfold mbind at 1, M_bind at 1. rewrite log_spec.
    unfold mbind at 1, M_bind at 1. fold w1.
    rewrite (bind_Ok _ _ _ _ _ Hr).
    unfold mbind, M_bind. rewrite log_spec. by eexists. }
  destruct Hrun as [lines ->]. rewrite Hr in Hdone. simpl in *.
  intros Hp Hname. refine (Hdone _ p Hbelow c t Hp Hname).
  unfold tree_depth. simpl. lia.
Qed.
End Complete.

Section LookupOfExpired.
Context `{Platform} (env : environment) (cache : URLFileSystemCache).

(** For the lookup hook an expired entry is a miss: [requestReceived]
    calls [next], leaves the request as it is, and has removed the two
    files. *)
Theorem requestReceived_removes_expired_entry req w :
  method req = "GET" →
  request_headers req !! "cache-control" ≠ Some "no-cache" →
  expired cache (url (request_prerender req)) w →
  can_remove cache (url (request_prerender req)) w = true →
  requestReceived env cache req w
  = (Ok (req, Next),
     with_fs w (delete (data_file cache (url (request_prerender req)))
                  (delete (meta_file cache (url (request_prerender req))) (w_fs w)))).
Proof.
  intros Hm Hnc Hexp Hremove. unfold requestReceived. rewrite Hm. simpl.
  case_decide; [done|].
  by rewrite (bind_Ok _ _ _ _ _ (get_expired_Ok cache _ w Hexp Hremove)).
Qed.
End LookupOfExpired.

(** * The properties on the scenario *)

Lemma well_formed_Forall (fs : filesystem) :
  map_Forall (λ p _, p = [] ∨ is_directory fs (path_dirname p) = true) fs →
  well_formed fs.
Proof.
  intros Hall p [n Hp] Hne. by destruct (Hall p n Hp).
Qed.

Lemma all_writable_Forall (fs : filesystem) :
  map_Forall (λ d _, is_directory fs d = false ∨ dir_writable fs d = true) fs →
  all_writable fs.
Proof.
  intros Hall d Hd. destruct (is_directory_is_Some _ _ Hd) as [n Hn].
  destruct (Hall d n Hn) as [Hfile|Hw]; [congruence|done].
Qed.

Section MoreOnTheScenario.
Import Scenario Situations.

Lemma tmp_is_a_directory : is_directory (w_fs started) ["tmp"] = true.
Proof. vm_compute. reflexivity. Qed.

Lemma tmp_is_no_cache_file :
  ["tmp"] ≠ data_file cache a_url ∧ ["tmp"] ≠ meta_file cache a_url.
Proof. split; intros E; vm_compute in E; discriminate E. Qed.

Lemma set_leaves_other_nodes_witness :
  ["tmp"] ≠ data_file cache a_url
  ∧ ["tmp"] ≠ meta_file cache a_url
  ∧ is_directory (w_fs started) ["tmp"] = true
  ∧ is_directory (w_fs (set env cache a_url 200 a_headers a_body started).2) ["tmp"]
    = true.
Proof.
  destruct tmp_is_no_cache_file as [Hd Hm].
  split; [exact Hd|]. split; [exact Hm|]. split; [exact tmp_is_a_directory|].
  exact (proj1 (proj2 (set_leaves_other_nodes env cache a_url 200 a_headers a_body
                         started ["tmp"] Hd Hm))
           tmp_is_a_directory).
Defined.


Lemma other_digest : urlHash a_url ≠ urlHash "http://b".
Proof. intros E. vm_compute in E. discriminate E. Qed.

Lemma cached_is_fresh : ¬ expired cache a_url cached.
Proof.
  intros (n & Hn & Hexp). vm_compute in Hn. injection Hn as <-.
  vm_compute in Hexp. by apply Hexp.
Qed.

Lemma set_of_another_url_witness :
  urlHash a_url ≠ urlHash "http://b"
  ∧ ¬ expired cache a_url cached
  ∧ w_fs (set env cache "http://b" 404 gone_headers "gone" cached).2
      !! data_file cache a_url
    = w_fs cached !! data_file cache a_url
  ∧ w_fs (set env cache "http://b" 404 gone_headers "gone" cached).2
      !! meta_file cache a_url
    = w_fs cached !! meta_file cache a_url
  ∧ (get cache a_url (set env cache "http://b" 404 gone_headers "gone" cached).2).1
    = (get cache a_url cached).1.
Proof.
  destruct (set_of_another_url env cache a_url "http://b" 404 gone_headers "gone" cached
              other_digest) as (Hd & Hm & Hget).
  split; [exact other_digest|]. split; [exact cached_is_fresh|].
  split; [exact Hd|]. split; [exact Hm|]. exact (Hget cached_is_fresh).
Defined.


Lemma a_request_reads_cache : request_headers a_request !! "cache-control" ≠ Some "no-cache".
Proof. vm_compute. discriminate. Qed.


Lemma a_request_is_served :
  (requestReceived env cache a_request cached).1
  = Ok (with_fromCache a_request true,
        Send [("content-type", JStr "text/html")] (Some (JNum 200)) a_body).
Proof. vm_compute. reflexivity. Qed.

Lemma hit_is_not_stored_again_witness :
  (requestReceived env cache a_request cached).1
  = Ok (with_fromCache a_request true,
        Send [("content-type", JStr "text/html")] (Some (JNum 200)) a_body)
  ∧ fromCache (with_fromCache a_request true) = true
  ∧ ∀ w', beforeSend env cache (with_fromCache a_request true) w' = (Ok Next, w').
Proof.
  split; [exact a_request_is_served|].
  exact (hit_is_not_stored_again env cache a_request cached _ _ _ _ a_request_is_served).
Defined.

Lemma headless_entry :
  w_fs headless !! data_file cache (url (request_prerender a_request))
  = Some (File (zlib_gzip a_body) 1000)
  ∧ w_fs headless !! meta_file cache (url (request_prerender a_request))
    = Some (File "null" 1000)
  ∧ w_now headless - 1000 < ttl cache * 1000
  ∧ zlib_gunzip (zlib_gzip a_body) = Some a_body
  ∧ JSON_parse "null" = Some JNull.
Proof. split_and!; vm_compute; reflexivity. Qed.

Lemma requestReceived_throws_without_headers_witness :
  method a_request = "GET"
  ∧ request_headers a_request !! "cache-control" ≠ Some "no-cache"
  ∧ w_fs headless !! data_file cache (url (request_prerender a_request))
    = Some (File (zlib_gzip a_body) 1000)
  ∧ w_fs headless !! meta_file cache (url (request_prerender a_request))
    = Some (File "null" 1000)
  ∧ w_now headless - 1000 < ttl cache * 1000
  ∧ zlib_gunzip (zlib_gzip a_body) = Some a_body
  ∧ JSON_parse "null" = Some JNull
  ∧ json_property JNull "headers" = None
  ∧ get cache (url (request_prerender a_request)) headless
    = (Ok (Some {| spread_metadata := JNull; content := a_body |}), headless)
  ∧ (requestReceived env cache a_request headless).1 = Throw TypeError.
Proof.
  destruct headless_entry as (Hd & Hm & Hfresh & Hbody & Hparse).
  split; [reflexivity|]. split; [exact a_request_reads_cache|].
  split; [exact Hd|]. split; [exact Hm|]. split; [exact Hfresh|].
  split; [exact Hbody|]. split; [exact Hparse|]. split; [reflexivity|].
  exact (requestReceived_throws_without_headers env cache a_request headless _ _ _ _ _ _
           eq_refl a_request_reads_cache Hd Hm Hfresh Hbody Hparse (or_introl eq_refl)).
Defined.

Lemma a_day_is_enough : timer_delay (ttl cache * 1000) ≤ CACHE_TTL env * 1000.
Proof. vm_compute. discriminate. Qed.

Lemma removal_timer_removes_entry_witness :
  can_store cache a_url started = true
  ∧ timer_delay (ttl cache * 1000) ≤ CACHE_TTL env * 1000
  ∧ let w1 := elapse (CACHE_TTL env * 1000)
                (set env cache a_url 200 a_headers a_body started).2 in
    let w2 := (fireTimer env cache (length (w_timers started)) w1).2 in
    w_fs w2 !! data_file cache a_url = None
    ∧ w_fs w2 !! meta_file cache a_url = None
    ∧ get cache a_url w2 = (Ok None, w2).
Proof.
  split; [exact can_store_started|]. split; [exact a_day_is_enough|].
  exact (removal_timer_removes_entry env cache a_url 200 a_headers a_body started
           (CACHE_TTL env * 1000) can_store_started a_day_is_enough).
Defined.

Lemma removal_timer_removes_rewritten_entry_witness :
  can_store cache a_url started = true
  ∧ 1 ≤ ttl cache * 1000 ≤ 2147483647
  ∧ 0 ≤ 1000
  ∧ 0 ≤ 86399000 < ttl cache * 1000
  ∧ ttl cache * 1000 ≤ 1000 + 86399000
  ∧ let w1 := elapse 1000 (set env cache a_url 200 a_headers a_body started).2 in
    let w2 := elapse 86399000 (set env cache a_url 404 gone_headers "gone" w1).2 in
    let w3 := (fireTimer env cache (length (w_timers started)) w2).2 in
    get cache a_url w2
    = (Ok (Some {| spread_metadata := metadata 404 (filteredHeaders gone_headers);
                   content := "gone" |}), w2)
    ∧ w_fs w3 !! data_file cache a_url = None
    ∧ w_fs w3 !! meta_file cache a_url = None
    ∧ get cache a_url w3 = (Ok None, w3).
Proof.
  assert (Httl : 1 ≤ ttl cache * 1000 ≤ 2147483647) by (simpl; lia).
  assert (Ha : 0 ≤ 1000) by lia.
  assert (Hb : 0 ≤ 86399000 < ttl cache * 1000) by (simpl; lia).
  assert (Hab : ttl cache * 1000 ≤ 1000 + 86399000) by (simpl; lia).
  split; [exact can_store_started|]. split; [exact Httl|]. split; [exact Ha|].
  split; [exact Hb|]. split; [exact Hab|].
  exact (removal_timer_removes_rewritten_entry env cache a_url 200 a_headers a_body
           404 gone_headers "gone" started 1000 86399000 can_store_started Httl Ha Hb Hab).
Defined.

Lemma can_store_long_lived : can_store long_lived a_url started = true.
Proof. vm_compute. reflexivity. Qed.

Lemma thirty_days_overflow : 2147483647 < ttl long_lived * 1000.
Proof. vm_compute. reflexivity. Qed.

Lemma long_ttl_removes_entry_at_once_witness :
  can_store long_lived a_url started = true
  ∧ 2147483647 < ttl long_lived * 1000
  ∧ let w1 := elapse 1 (set env long_lived a_url 200 a_headers a_body started).2 in
    let w2 := (fireTimer env long_lived (length (w_timers started)) w1).2 in
    get long_lived a_url w1
    = (Ok (Some {| spread_metadata := metadata 200 (filteredHeaders a_headers);
                   content := a_body |}), w1)
    ∧ w_fs w2 !! data_file long_lived a_url = None
    ∧ w_fs w2 !! meta_file long_lived a_url = None
    ∧ get long_lived a_url w2 = (Ok None, w2).
Proof.
  split; [exact can_store_long_lived|]. split; [exact thirty_days_overflow|].
  exact (long_ttl_removes_entry_at_once env long_lived a_url 200 a_headers a_body started
           can_store_long_lived thirty_days_overflow).
Defined.

Lemma shard_holds_the_entry :
  ∀ p, is_child (shard cache a_url) p → is_Some (w_fs cached !! p) →
       p = data_file cache a_url ∨ p = meta_file cache a_url.
Proof.
  assert (Hall : map_Forall
            (λ (p : path) (_ : node),
               is_child (shard cache a_url) p →
               p = data_file cache a_url ∨ p = meta_file cache a_url)
            (w_fs cached)).
  { refine (@bool_decide_unpack _ (map_Forall_dec _ _) _). vm_compute. exact I. }
  intros p Hchild [n Hp]. exact (Hall p n Hp Hchild).
Qed.

Lemma cache_directory_writable : dir_writable (w_fs cached) (cachePath cache) = true.
Proof. vm_compute. reflexivity. Qed.

Lemma removeExpiredCacheUrl_removes_emptied_shard_witness :
  can_remove cache a_url cached = true
  ∧ (∀ p, is_child (shard cache a_url) p → is_Some (w_fs cached !! p) →
          p = data_file cache a_url ∨ p = meta_file cache a_url)
  ∧ dir_writable (w_fs cached) (cachePath cache) = true
  ∧ w_fs (removeExpiredCacheUrl env cache a_url cached).2 !! shard cache a_url = None.
Proof.
  split; [exact can_remove_cached|]. split; [exact shard_holds_the_entry|].
  split; [exact cache_directory_writable|].
  exact (proj1 (removeExpiredCacheUrl_removes_emptied_shard env cache a_url cached
                  can_remove_cached)
           shard_holds_the_entry cache_directory_writable).
Defined.

Lemma tmp_is_outside : ¬ CACHE_PATH env `prefix_of` ["tmp"].
Proof. intros [k E]. vm_compute in E. discriminate E. Qed.

Lemma tmp_is_a_directory_later : is_directory (w_fs stale) ["tmp"] = true.
Proof. vm_compute. reflexivity. Qed.

Lemma sweep_stays_below_witness :
  ¬ CACHE_PATH env `prefix_of` ["tmp"]
  ∧ is_directory (w_fs stale) ["tmp"] = true
  ∧ is_directory (w_fs (cleanUpCacheDirectory env cache (CACHE_PATH env) stale).2) ["tmp"]
    = true.
Proof.
  split; [exact tmp_is_outside|]. split; [exact tmp_is_a_directory_later|].
  exact (proj1 (proj2 (sweep_stays_below env cache (CACHE_PATH env) stale ["tmp"]
                         tmp_is_outside))
           tmp_is_a_directory_later).
Defined.

Lemma young_data_file :
  w_fs a_second_later !! data_file cache a_url = Some (File (zlib_gzip a_body) 1000)
  ∧ w_now a_second_later - 1000 < ttl cache * 1000.
Proof. split; vm_compute; reflexivity. Qed.

Lemma sweep_keeps_other_files_witness :
  w_fs a_second_later !! data_file cache a_url = Some (File (zlib_gzip a_body) 1000)
  ∧ w_now a_second_later - 1000 < ttl cache * 1000
  ∧ w_fs (cleanUpCacheDirectory env cache (CACHE_PATH env) a_second_later).2
      !! data_file cache a_url
    = Some (File (zlib_gzip a_body) 1000).
Proof.
  destruct young_data_file as [Hfile Hyoung].
  split; [exact Hfile|]. split; [exact Hyoung|].
  exact (sweep_keeps_other_files env cache (CACHE_PATH env) a_second_later
           (data_file cache a_url) (zlib_gzip a_body) 1000 Hfile (or_intror Hyoung)).
Defined.

Lemma empty_cache_directory :
  is_directory (w_fs started) (CACHE_PATH env) = true
  ∧ (∀ p, is_child (CACHE_PATH env) p → w_fs started !! p = None)
  ∧ dir_writable (w_fs started) (path_dirname (CACHE_PATH env)) = true.
Proof.
  split; [vm_compute; reflexivity|]. split; [|vm_compute; reflexivity].
  apply children_nil. vm_compute. reflexivity.
Qed.

Lemma sweep_removes_empty_directory_witness :
  is_directory (w_fs started) (CACHE_PATH env) = true
  ∧ (∀ p, is_child (CACHE_PATH env) p → w_fs started !! p = None)
  ∧ dir_writable (w_fs started) (path_dirname (CACHE_PATH env)) = true
  ∧ (cleanUpCacheDirectory env cache (CACHE_PATH env) started).1
    = Ok {| totalRemovedFiles := 0; totalRemovedSize := 0; totalTimersCreated := 0 |}
  ∧ w_fs (cleanUpCacheDirectory env cache (CACHE_PATH env) started).2 !! CACHE_PATH env
    = None.
Proof.
  destruct empty_cache_directory as (Hdir & Hempty & Hparent).
  split; [exact Hdir|]. split; [exact Hempty|]. split; [exact Hparent|].
  exact (sweep_removes_empty_directory env cache (CACHE_PATH env) started
           Hdir Hempty Hparent).
Defined.

Lemma nothing_logged_when_logging_is_disabled_witness :
  DISABLE_LOGGING silent = true
  ∧ w_log (init silent cached).2 = w_log cached
  ∧ w_log (run silent cache busy_hour cached) = w_log cached.
Proof.
  split; [reflexivity|].
  exact (nothing_logged_when_logging_is_disabled silent cache busy_hour cached eq_refl).
Defined.

Lemma a_second_later_well_formed :
  well_formed (w_fs a_second_later) ∧ all_writable (w_fs a_second_later).
Proof.
  split.
  - apply well_formed_Forall.
    refine (@bool_decide_unpack _ (map_Forall_dec _ _) _). vm_compute. exact I.
  - apply all_writable_Forall.
    refine (@bool_decide_unpack _ (map_Forall_dec _ _) _). vm_compute. exact I.
Qed.

Lemma data_file_below : below (CACHE_PATH env) (data_file cache a_url).
Proof.
  split; [eexists; vm_compute; reflexivity|].
  intros E. vm_compute in E. discriminate E.
Qed.

Lemma data_file_kept :
  w_fs (cleanUpCacheDirectory env cache (CACHE_PATH env) a_second_later).2
    !! data_file cache a_url
  = Some (File (zlib_gzip a_body) 1000)
  ∧ cache_file_name (List.last (data_file cache a_url) EmptyString) = true.
Proof. split; vm_compute; reflexivity. Qed.

Lemma sweep_handles_every_cache_file_witness :
  well_formed (w_fs a_second_later)
  ∧ all_writable (w_fs a_second_later)
  ∧ below (CACHE_PATH env) (data_file cache a_url)
  ∧ w_fs (cleanUpCacheDirectory env cache (CACHE_PATH env) a_second_later).2
      !! data_file cache a_url
    = Some (File (zlib_gzip a_body) 1000)
  ∧ cache_file_name (List.last (data_file cache a_url) EmptyString) = true
  ∧ w_now a_second_later - 1000 < ttl cache * 1000
  ∧ expiry_timer cache (w_now a_second_later) (data_file cache a_url) 1000
    ∈ w_timers (cleanUpCacheDirectory env cache (CACHE_PATH env) a_second_later).2.
Proof.
  destruct a_second_later_well_formed as [Hwf Hall].
  destruct data_file_kept as [Hkept Hname].
  split; [exact Hwf|]. split; [exact Hall|]. split; [exact data_file_below|].
  split; [exact Hkept|]. split; [exact Hname|].
  exact (sweep_handles_every_cache_file env cache (CACHE_PATH env) a_second_later
           (data_file cache a_url) (zlib_gzip a_body) 1000
           Hwf Hall data_file_below Hkept Hname).
Defined.

Lemma requestReceived_removes_expired_entry_witness :
  method a_request = "GET"
  ∧ request_headers a_request !! "cache-control" ≠ Some "no-cache"
  ∧ expired cache (url (request_prerender a_request)) stale
  ∧ can_remove cache (url (request_prerender a_request)) stale = true
  ∧ requestReceived env cache a_request stale
    = (Ok (a_request, Next),
       with_fs stale
         (delete (data_file cache (url (request_prerender a_request)))
            (delete (meta_file cache (url (request_prerender a_request)))
               (w_fs stale)))).
Proof.
  split; [reflexivity|]. split; [exact a_request_reads_cache|].
  split; [exact expired_stale|]. split; [exact can_remove_stale|].
  exact (requestReceived_removes_expired_entry env cache a_request stale eq_refl
           a_request_reads_cache expired_stale can_remove_stale).
Defined.
End MoreOnTheScenario.
